(** * sprite2gif: frame anomaly detection, replacement and stabilisation

    A shallow embedding of the auto-fix pipeline (autoFix, detectBadFrames,
    analyzePixels, calculateMedianStats, calculateSimplifiedSSIM,
    replaceBadFrames, stabilizeFrames, findContentBounds, verifyFrames).

    Conventions of the embedding:
    - JavaScript numbers that hold ratios, scores and thresholds are binary64
      doubles: each is the rational it denotes ([Q]), each operation on them
      is the exact one followed by the rounding [fl], and a decimal literal
      of the source is the double nearest to it (module [Lit]). The
      thresholds passed as options are taken as given; their defaults are
      the doubles of the literals. Counts are exact, and so is the quotient
      of a count by a median of counts in the colour pass, which is only
      compared with the colour threshold and with 0.2.
    - Counts, sizes, coordinates and frame indices are natural numbers: every
      subtraction in the source on such values is guarded so that it cannot
      go below zero, and a guard of the form [i - d >= 0] is written
      [d <=? i].
    - A frame is a decoded RGBA image (PNG encoding is lossless, so the
      encoded buffer and its decoded raster determine each other).
    - The JS [Map] from frame index to anomaly list is a [gmap]. *)

From Stdlib Require Import QArith Qround Qminmax Lqa Qpower Sorted.
From stdpp Require Import gmap list strings.

Open Scope Q_scope.
Open Scope nat_scope.

(** ** Numbers *)

Module Num.

Definition QofN (n : nat) : Q := inject_Z (Z.of_nat n).

Definition Qltb (x y : Q) : bool := negb (Qle_bool y x).

(** [Math.floor] of a non-negative rational, as an array index. *)
Definition floorIdx (x : Q) : nat := Z.to_nat (Qfloor x).

(** [arr[i]] on a numeric array; the reads of the pipeline are in range
    (see [rank_indices] below), [0] stands for the
    out-of-range [undefined]. *)
Definition at_ (arr : list Q) (i : nat) : Q := nth i arr 0%Q.

(** [[...arr].sort((a, b) => a - b)]: the sort of the language is stable,
    so for a numeric comparator its result is the stable ascending
    arrangement; [insertNum] places a value before the first one that is
    not smaller. *)
Fixpoint insertNum (x : Q) (l : list Q) : list Q :=
  match l with
  | [] => [x]
  | y :: l' => if Qle_bool x y then x :: y :: l' else y :: insertNum x l'
  end.

Definition sortNum (arr : list Q) : list Q := foldr insertNum [] arr.

(** [getMedian] of calculateMedianStats. *)
Definition getMedian (arr : list Q) : Q :=
  let sorted := sortNum arr in
  at_ sorted (floorIdx (QofN (length sorted) / 2)).

(** [sorted[Math.floor(sorted.length * 0.25)]] and the same with [0.75]. *)
Definition quartile1 (sorted : list Q) : Q :=
  at_ sorted (floorIdx (QofN (length sorted) * 0.25)).

Definition quartile3 (sorted : list Q) : Q :=
  at_ sorted (floorIdx (QofN (length sorted) * 0.75)).

End Num.

Import Num.

(** ** Binary64 rounding *)

(** The numbers of the source are IEEE 754 doubles. A double is modelled by
    the rational it denotes, and every operation of the source by the exact
    operation followed by [fl], rounding to the nearest number with a 53-bit
    significand, ties to the even significand. The exponent range is not
    modelled: the quantities of this program are pixel counts, their
    quotients and a few sums and products of those, far from both ends of
    the range. *)
Module Binary64.

Definition pow2 (e : Z) : Q := (2 ^ e)%Q.

(** [floor (log2 x)] of a positive fraction. *)
Definition expo (x : Q) : Z :=
  let k := (Z.log2 (Qnum x) - Z.log2 (Z.pos (Qden x)))%Z in
  if Qle_bool (pow2 k) x then k else (k - 1)%Z.

(** The nearest integer, ties to even. *)
Definition rne (q : Q) : Z :=
  let f := Qfloor q in
  let r := (q - inject_Z f)%Q in
  if Qltb r (1 # 2) then f
  else if Qltb (1 # 2) r then (f + 1)%Z
  else if Z.even f then f else (f + 1)%Z.

Definition roundPos (x : Q) : Q :=
  let e := expo x in
  (inject_Z (rne (x * pow2 (52 - e))) * pow2 (e - 52))%Q.

Definition fl (x : Q) : Q :=
  let y := Qred x in
  match Qnum y with
  | Z0 => 0%Q
  | Zpos _ => Qred (roundPos y)
  | Zneg _ => Qred (- roundPos (- y))
  end.

End Binary64.

Import Binary64.

Arguments fl : simpl never.

(** The doubles that the decimal literals of the source denote. *)
Module Lit.
Definition d0_299 : Q := Eval vm_compute in fl 0.299.
Definition d0_587 : Q := Eval vm_compute in fl 0.587.
Definition d0_114 : Q := Eval vm_compute in fl 0.114.
Definition d6_5025 : Q := Eval vm_compute in fl 6.5025.
Definition d58_5225 : Q := Eval vm_compute in fl 58.5225.
Definition d0_08 : Q := Eval vm_compute in fl 0.08.
Definition d0_15 : Q := Eval vm_compute in fl 0.15.
Definition d0_30 : Q := Eval vm_compute in fl 0.30.
Definition d0_4 : Q := Eval vm_compute in fl 0.4.
Definition d0_35 : Q := Eval vm_compute in fl 0.35.
Definition d0_55 : Q := Eval vm_compute in fl 0.55.
End Lit.

(** ** Decoded frames and the image codec *)

(** What [sharp(buf).ensureAlpha().raw().toBuffer({resolveWithObject: true})]
    yields: [info.width], [info.height] and the flat RGBA sample array. *)
Record Frame := mkFrame { width : nat; height : nat; data : list Z }.

(** [data[i]] on a byte buffer. Raw buffers hold [4 * width * height]
    samples, so the reads of the pipeline are in range. *)
Definition byteAt (data : list Z) (i : nat) : Z := nth i data 0%Z.

Definition wfFrame (f : Frame) : Prop :=
  0 < width f ∧ 0 < height f ∧ length (data f) = height f * width f * 4.

Definition wfFrameb (f : Frame) : bool :=
  (0 <? width f) && (0 <? height f) && (length (data f) =? height f * width f * 4).

Module Sharp.

(** Channel [c] of the pixel at column [x], row [y]. *)
Definition sample (f : Frame) (x y c : nat) : Z :=
  byteAt (data f) ((y * width f + x) * 4 + c).

(** Row-major RGBA buffer of a [w] by [h] image given pixel-wise. *)
Definition raster (w h : nat) (px : nat → nat → nat → Z) : list Z :=
  flat_map (λ y, flat_map (λ x, [px x y 0; px x y 1; px x y 2; px x y 3]) (seq 0 w))
           (seq 0 h).

(** [sharp(buf).extract({left, top, width, height}).toBuffer()]; the codec
    rejects an empty area or one that leaves the image. *)
Definition extract (f : Frame) (left top w h : nat) : option Frame :=
  if (0 <? w) && (0 <? h) && (left + w <=? width f) && (top + h <=? height f)
  then Some (mkFrame w h (raster w h (λ x y c, sample f (left + x) (top + y) c)))
  else None.

(** [sharp({create: {width, height, channels: 4, background: transparent}})
    .composite([{input, left, top}]).png({palette: false}).toBuffer()].
    Source-over on a fully transparent backdrop leaves the source pixel,
    except that the codec blends colour premultiplied by alpha: a source
    pixel of alpha 0 comes out as (0, 0, 0, 0) whatever colour it carries.
    The codec rejects an overlay larger than the canvas. *)
Definition compositeOnBlank (cw ch : nat) (input : Frame) (left top : nat) : option Frame :=
  if (0 <? cw) && (0 <? ch) && (width input <=? cw) && (height input <=? ch)
  then Some (mkFrame cw ch (raster cw ch (λ x y c,
         if (left <=? x) && (x <? left + width input) &&
            (top <=? y) && (y <? top + height input)
         then if (sample input (x - left) (y - top) 3 =? 0)%Z then 0%Z
              else sample input (x - left) (y - top) c
         else 0%Z)))
  else None.

End Sharp.

(** ** Records of the pipeline *)

Inductive Channel := darkGreen | brown | darkPixels | other.

Inductive AnomalyType :=
| color_loss | green_washout | transparency_hole | extra_opacity
| halo_effect | structural_damage | pixel_outlier.

Inductive Severity := moderate | severe.

(** Method-specific fields of an anomaly record. *)
Inductive Details :=
| ColorDetails (frameCount : nat) (medianCount ratio : Q)
| OpacityDetails (frameOpacity medianOpacity lower upper : Q)
| HaloDetails (frameSemiTrans q3SemiTrans increase : Q)
| SsimDetails (ssimToPrev ssimToNext threshold : Q)
| DiffDetails (avgDiff medianDiff threshold : Q).

Record Anomaly := mkAnomaly {
  a_type : AnomalyType;
  a_channel : option Channel;
  a_severity : Severity;
  a_details : Details
}.

Definition isType (t : AnomalyType) (a : Anomaly) : bool :=
  match t, a_type a with
  | color_loss, color_loss | green_washout, green_washout
  | transparency_hole, transparency_hole | extra_opacity, extra_opacity
  | halo_effect, halo_effect | structural_damage, structural_damage
  | pixel_outlier, pixel_outlier => true
  | _, _ => false
  end.

Definition isSevere (a : Anomaly) : bool :=
  match a_severity a with severe => true | moderate => false end.

Definition onChannel (ch : Channel) (a : Anomaly) : bool :=
  match a_channel a, ch with
  | Some darkGreen, darkGreen | Some brown, brown
  | Some darkPixels, darkPixels | Some other, other => true
  | _, _ => false
  end.

Record Colors := mkColors {
  n_darkGreen : nat; n_brown : nat; n_darkPixels : nat; n_other : nat
}.

(** [colors[channel]] *)
Definition count (c : Colors) (ch : Channel) : nat :=
  match ch with
  | darkGreen => n_darkGreen c
  | brown => n_brown c
  | darkPixels => n_darkPixels c
  | other => n_other c
  end.

(** [colors[channel]++] *)
Definition bump (ch : Channel) (c : Colors) : Colors :=
  match ch with
  | darkGreen => mkColors (S (n_darkGreen c)) (n_brown c) (n_darkPixels c) (n_other c)
  | brown => mkColors (n_darkGreen c) (S (n_brown c)) (n_darkPixels c) (n_other c)
  | darkPixels => mkColors (n_darkGreen c) (n_brown c) (S (n_darkPixels c)) (n_other c)
  | other => mkColors (n_darkGreen c) (n_brown c) (n_darkPixels c) (S (n_other c))
  end.

Record AlphaCounts := mkAlphaCounts { opaque : nat; semiTrans : nat; transparent : nat }.

Record AlphaRatios := mkAlphaRatios {
  opaqueRatio : Q; semiTransRatio : Q; transparentRatio : Q
}.

Record PixelStats := mkPixelStats { colors : Colors; alpha : AlphaRatios }.

(** An element of [frameAnalysis]: [{index, data, width, height,
    ...analyzePixels(...)}]. *)
Record FrameAnalysis := mkFrameAnalysis {
  fa_index : nat;
  fa_frame : Frame;
  fa_stats : PixelStats
}.

Record Medians := mkMedians {
  m_darkGreen : Q; m_brown : Q; m_darkPixels : Q;
  m_opaqueRatio : Q; m_semiTransRatio : Q
}.

(** [stats.medians[channel]] for the three channels of the histogram pass. *)
Definition medianOf (m : Medians) (ch : Channel) : Q :=
  match ch with
  | darkGreen => m_darkGreen m
  | brown => m_brown m
  | darkPixels => m_darkPixels m
  | other => 0
  end.

Record Options := mkOptions {
  colorRatioThreshold : Q;
  opacityIQRMultiplier : Q;
  ssimThreshold : Q;
  pixelDiffThreshold : Q
}.

Definition defaultOptions : Options := mkOptions Lit.d0_35 2.5 Lit.d0_55 Lit.d0_15.

Record SsimPair := mkSsimPair { fromFrame : nat; toFrame : nat; score : Q }.

Record BadFrameRecord := mkBadFrame {
  bf_index : nat;
  bf_reasons : list Anomaly;
  bf_replacement : nat;
  bf_severity : Severity
}.

Record Detection := mkDetection {
  badFrames : list BadFrameRecord;
  methodsUsed : list string
}.

Record Replacement := mkReplacement {
  badFrame : nat; replacedWith : nat; reasons : list Anomaly
}.

Inductive Issue :=
| InconsistentSizes (sizes : list (nat * nat))
| LargeVariance (diffRatio : Q).

Record Verification := mkVerification { passed : bool; issues : list Issue }.

Record Report := mkReport {
  totalFrames : nat;
  r_badFrames : list BadFrameRecord;
  replacements : list Replacement;
  stabilized : bool;
  detectionMethods : list string;
  verified : bool;
  verificationDetails : Verification
}.

Record Result := mkResult { frames : list Frame; report : Report }.

(** ** analyzePixels *)

(** Start offsets visited by [for (let i = 0; i < data.length; i += 4)]. *)
Definition pixelOffsets (data : list Z) : list nat :=
  (λ k, 4 * k) <$> seq 0 ((length data + 3) / 4).

(** The colour tests of the pixel loop, in their order. *)
Definition classify (r g b : Z) : Channel :=
  if ((g >? r) && (g >? b) && (g >? 80) && (g <? 180) && (r <? 130) && (b <? 110))%Z
  then darkGreen
  else if ((r >? 70) && (r <? 190) && (g >? 50) && (g <? 150) && (b >? 30) && (b <? 130)
           && (Z.abs (r - g) <? 60))%Z
  then brown
  else if ((r <? 90) && (g <? 90) && (b <? 90))%Z
  then darkPixels
  else other.

Definition analyzeStep (data : list Z) (st : Colors * AlphaCounts) (i : nat)
  : Colors * AlphaCounts :=
  let '(colors, alpha) := st in
  let r := byteAt data i in
  let g := byteAt data (i + 1) in
  let b := byteAt data (i + 2) in
  let a := byteAt data (i + 3) in
  let alpha :=
    if (a >? 250)%Z
    then mkAlphaCounts (S (opaque alpha)) (semiTrans alpha) (transparent alpha)
    else if (a >? 5)%Z
    then mkAlphaCounts (opaque alpha) (S (semiTrans alpha)) (transparent alpha)
    else mkAlphaCounts (opaque alpha) (semiTrans alpha) (S (transparent alpha)) in
  if (a <? 128)%Z then (colors, alpha)
  else (bump (classify r g b) colors, alpha).

Definition analyzePixels (data : list Z) (width height : nat) : PixelStats :=
  let '(colors, alpha) :=
    foldl (analyzeStep data) (mkColors 0 0 0 0, mkAlphaCounts 0 0 0) (pixelOffsets data) in
  let totalPixels := width * height in
  mkPixelStats colors
    (mkAlphaRatios (fl (QofN (opaque alpha) / QofN totalPixels))
                   (fl (QofN (semiTrans alpha) / QofN totalPixels))
                   (fl (QofN (transparent alpha) / QofN totalPixels))).

(** The [frameAnalysis] array of detectBadFrames. *)
Definition analyzeFrames (frameBuffers : list Frame) : list FrameAnalysis :=
  imap (λ idx buf,
          mkFrameAnalysis idx buf (analyzePixels (data buf) (width buf) (height buf)))
       frameBuffers.

(** ** calculateMedianStats *)

Definition calculateMedianStats (frameAnalysis : list FrameAnalysis) : Medians :=
  mkMedians
    (getMedian ((λ f, QofN (n_darkGreen (colors (fa_stats f)))) <$> frameAnalysis))
    (getMedian ((λ f, QofN (n_brown (colors (fa_stats f)))) <$> frameAnalysis))
    (getMedian ((λ f, QofN (n_darkPixels (colors (fa_stats f)))) <$> frameAnalysis))
    (getMedian ((λ f, opaqueRatio (alpha (fa_stats f))) <$> frameAnalysis))
    (getMedian ((λ f, semiTransRatio (alpha (fa_stats f))) <$> frameAnalysis)).

(** ** calculateSimplifiedSSIM *)

Record SsimSums := mkSsimSums {
  sum1 : Q; sum2 : Q; sumSq1 : Q; sumSq2 : Q; sumProd : Q; ssimCount : nat
}.

(** One turn of the loop. [0.299 * r + 0.587 * g + 0.114 * b] is evaluated
    from the left, each product and each sum rounded. *)
Definition ssimStep (arr1 arr2 : list Z) (st : SsimSums) (i : nat) : SsimSums :=
  let a1 := byteAt arr1 (i + 3) in
  let a2 := byteAt arr2 (i + 3) in
  if ((a1 >? 64) || (a2 >? 64))%Z then
    let l1 := fl (fl (fl (Lit.d0_299 * inject_Z (byteAt arr1 i))
                      + fl (Lit.d0_587 * inject_Z (byteAt arr1 (i + 1))))
                  + fl (Lit.d0_114 * inject_Z (byteAt arr1 (i + 2)))) in
    let l2 := fl (fl (fl (Lit.d0_299 * inject_Z (byteAt arr2 i))
                      + fl (Lit.d0_587 * inject_Z (byteAt arr2 (i + 1))))
                  + fl (Lit.d0_114 * inject_Z (byteAt arr2 (i + 2)))) in
    mkSsimSums (fl (sum1 st + l1)) (fl (sum2 st + l2))
               (fl (sumSq1 st + fl (l1 * l1))) (fl (sumSq2 st + fl (l2 * l2)))
               (fl (sumProd st + fl (l1 * l2))) (S (ssimCount st))
  else st.

Definition calculateSimplifiedSSIM (data1 data2 : list Z) (width height : nat) : Q :=
  let st := foldl (ssimStep data1 data2) (mkSsimSums 0 0 0 0 0 0) (pixelOffsets data1) in
  if ssimCount st =? 0 then 1%Q
  else
    let count := QofN (ssimCount st) in
    let mean1 := fl (sum1 st / count) in
    let mean2 := fl (sum2 st / count) in
    let var1 := fl (fl (sumSq1 st / count) - fl (mean1 * mean1)) in
    let var2 := fl (fl (sumSq2 st / count) - fl (mean2 * mean2)) in
    let covar := fl (fl (sumProd st / count) - fl (mean1 * mean2)) in
    let c1 := Lit.d6_5025 in
    let c2 := Lit.d58_5225 in
    fl (fl (fl (fl (fl (2 * mean1) * mean2) + c1) * fl (fl (2 * covar) + c2))
        / fl (fl (fl (fl (mean1 * mean1) + fl (mean2 * mean2)) + c1)
              * fl (fl (var1 + var2) + c2))).

(** ** The replacement resolver (loop body of "Build final bad frames list") *)

(** [for (let dist = 2; dist < numFrames; dist++)] with its two [break]s;
    [dists] are the distances still to try, [replacement] the value kept when
    the loop ends without a [break]. *)
Fixpoint searchOutward (numFrames : nat) (badIndices : gset nat) (index : nat)
    (dists : list nat) (replacement : nat) : nat :=
  match dists with
  | [] => replacement
  | dist :: rest =>
      if (dist <=? index) && negb (bool_decide (index - dist ∈ badIndices))
      then index - dist
      else if (index + dist <? numFrames) && negb (bool_decide (index + dist ∈ badIndices))
      then index + dist
      else searchOutward numFrames badIndices index rest replacement
  end.

Definition resolveReplacement (numFrames : nat) (badIndices : gset nat) (index : nat) : nat :=
  let replacement := if 0 <? index then index - 1 else index + 1 in
  if (0 <? index) && negb (bool_decide (index - 1 ∈ badIndices))
  then index - 1
  else if (index <? numFrames - 1) && negb (bool_decide (index + 1 ∈ badIndices))
  then index + 1
  else searchOutward numFrames badIndices index (seq 2 (numFrames - 2)) replacement.

(** [badFrames.sort((a, b) => a.index - b.index)], stable. *)
Fixpoint insertByIndex (b : BadFrameRecord) (l : list BadFrameRecord) : list BadFrameRecord :=
  match l with
  | [] => [b]
  | c :: l' => if bf_index b <=? bf_index c then b :: c :: l' else c :: insertByIndex b l'
  end.

Definition sortByIndex (l : list BadFrameRecord) : list BadFrameRecord :=
  foldr insertByIndex [] l.

(** [reasons.some(r => r.severity === 'severe') ? 'severe' : 'moderate'] *)
Definition aggregateSeverity (reasons : list Anomaly) : Severity :=
  if existsb isSevere reasons then severe else moderate.

(** ** The anomaly map *)

(** [frameAnomalies.get(i) || []] *)
Definition getAnomalies (frameAnomalies : gmap nat (list Anomaly)) (i : nat) : list Anomaly :=
  default [] (frameAnomalies !! i).

(** [anomalies = frameAnomalies.get(i) || []; anomalies.push(a);
    frameAnomalies.set(i, anomalies)] *)
Definition pushAnomaly (frameAnomalies : gmap nat (list Anomaly)) (i : nat) (a : Anomaly)
  : gmap nat (list Anomaly) :=
  <[i := getAnomalies frameAnomalies i ++ [a]]> frameAnomalies.

(** A guarded block of a detection pass pushes the anomalies it found (at
    most one) on the entry of frame [i]. *)
Definition pushAll (frameAnomalies : gmap nat (list Anomaly)) (i : nat) (new : list Anomaly)
  : gmap nat (list Anomaly) :=
  foldl (λ m a, pushAnomaly m i a) frameAnomalies new.

(** ** Method 1: colour histogram *)

Definition channelCheck (opts : Options) (stats : Medians) (frame : FrameAnalysis)
    (channel : Channel) : list Anomaly :=
  let medianCount := medianOf stats channel in
  let frameCount := count (colors (fa_stats frame)) channel in
  if Qltb 50 medianCount then
    let ratio := (QofN frameCount / medianCount)%Q in
    if Qltb ratio (colorRatioThreshold opts) then
      [mkAnomaly color_loss (Some channel)
                 (if Qltb ratio 0.2 then severe else moderate)
                 (ColorDetails frameCount medianCount ratio)]
    else []
  else [].

Definition histogramAnomalies (opts : Options) (stats : Medians) (frame : FrameAnalysis)
  : list Anomaly :=
  let anomalies := flat_map (channelCheck opts stats frame) [darkGreen; brown; darkPixels] in
  if Qltb 100 (m_darkGreen stats) then
    let greenRatio := (QofN (n_darkGreen (colors (fa_stats frame))) / m_darkGreen stats)%Q in
    if Qltb greenRatio (colorRatioThreshold opts) then
      if existsb (onChannel darkGreen) anomalies then anomalies
      else anomalies ++
           [mkAnomaly green_washout None
                      (if Qltb greenRatio 0.2 then severe else moderate)
                      (ColorDetails (n_darkGreen (colors (fa_stats frame)))
                                    (m_darkGreen stats) greenRatio)]
    else anomalies
  else anomalies.

Definition method1 (opts : Options) (stats : Medians) (frameAnalysis : list FrameAnalysis)
    (frameAnomalies : gmap nat (list Anomaly)) : gmap nat (list Anomaly) :=
  foldl (λ m frame,
           let anomalies := histogramAnomalies opts stats frame in
           if 0 <? length anomalies then <[fa_index frame := anomalies]> m else m)
        frameAnomalies frameAnalysis.

(** ** Method 2: alpha channel *)

Record OpacityBounds := mkOpacityBounds {
  opacityQ1 : Q; opacityQ3 : Q; opacityIQR : Q;
  opacityLowerBound : Q; opacityUpperBound : Q
}.

Definition opacityBounds (opts : Options) (frameAnalysis : list FrameAnalysis) : OpacityBounds :=
  let opacityValues := (λ f, opaqueRatio (alpha (fa_stats f))) <$> frameAnalysis in
  let sortedOpacity := sortNum opacityValues in
  let q1 := quartile1 sortedOpacity in
  let q3 := quartile3 sortedOpacity in
  let iqr := fl (q3 - q1) in
  mkOpacityBounds q1 q3 iqr
    (fl (q1 - fl (opacityIQRMultiplier opts * iqr)))
    (fl (q3 + fl (opacityIQRMultiplier opts * iqr))).

Definition opacityAnomaly (stats : Medians) (b : OpacityBounds) (frame : FrameAnalysis)
  : list Anomaly :=
  let r := opaqueRatio (alpha (fa_stats frame)) in
  if Qltb r (opacityLowerBound b) || Qltb (opacityUpperBound b) r then
    [mkAnomaly (if Qltb r (m_opaqueRatio stats) then transparency_hole else extra_opacity)
               None
               (if Qltb r (fl (opacityLowerBound b - opacityIQR b)) then severe else moderate)
               (OpacityDetails r (m_opaqueRatio stats)
                               (opacityLowerBound b) (opacityUpperBound b))]
  else [].

Definition haloAnomaly (frameAnalysis : list FrameAnalysis) (frame : FrameAnalysis)
  : list Anomaly :=
  let semiTransValues := (λ f, semiTransRatio (alpha (fa_stats f))) <$> frameAnalysis in
  let semiTransQ3 :=
    at_ (sortNum semiTransValues) (floorIdx (QofN (length semiTransValues) * 0.75)) in
  let semiTransDiff := fl (semiTransRatio (alpha (fa_stats frame)) - semiTransQ3) in
  if Qltb Lit.d0_08 semiTransDiff then
    [mkAnomaly halo_effect None
               (if Qltb Lit.d0_15 semiTransDiff then severe else moderate)
               (HaloDetails (semiTransRatio (alpha (fa_stats frame))) semiTransQ3 semiTransDiff)]
  else [].

Definition method2 (opts : Options) (stats : Medians) (frameAnalysis : list FrameAnalysis)
    (frameAnomalies : gmap nat (list Anomaly)) : gmap nat (list Anomaly) :=
  let b := opacityBounds opts frameAnalysis in
  foldl (λ m frame,
           let m := pushAll m (fa_index frame) (opacityAnomaly stats b frame) in
           pushAll m (fa_index frame) (haloAnomaly frameAnalysis frame))
        frameAnomalies frameAnalysis.

(** ** Method 3: structural similarity of adjacent frames *)

Section Codec.

(** The two codec calls whose pixel arithmetic lies outside the repository:
    [sharp(buf).resize(w, h, {fit: 'contain', background: transparent})
    .ensureAlpha().raw().toBuffer()] and
    [pixelmatch(a, b, null, w, h, {threshold: 0.1})]. Here the buffers
    compared are the resized ones, of [4 * w * h] bytes each, so that the
    size check of [pixelmatch] passes. *)
Variable resizeContain : Frame → nat → nat → list Z.
Variable pixelmatch : list Z → list Z → nat → nat → nat.

Definition normalizeFrames (frameBuffers : list Frame) : list (list Z) :=
  let maxWidth := max_list (width <$> frameBuffers) in
  let maxHeight := max_list (height <$> frameBuffers) in
  (λ buf, resizeContain buf maxWidth maxHeight) <$> frameBuffers.

Definition adjacentSSIM (frameBuffers : list Frame) : list SsimPair :=
  let numFrames := length frameBuffers in
  let maxWidth := max_list (width <$> frameBuffers) in
  let maxHeight := max_list (height <$> frameBuffers) in
  let normalizedFrames := normalizeFrames frameBuffers in
  (λ i, mkSsimPair i (i + 1)
          (calculateSimplifiedSSIM (nth i normalizedFrames []) (nth (i + 1) normalizedFrames [])
                                   maxWidth maxHeight))
  <$> seq 0 (numFrames - 1).

(** [adjacentSSIM[i].score] *)
Definition ssimAt (pairs : list SsimPair) (i : nat) : Q :=
  at_ (score <$> pairs) i.

Definition ssimOutlierThreshold (pairs : list SsimPair) : Q :=
  let ssimScores := score <$> pairs in
  let sortedSSIM := sortNum ssimScores in
  let ssimQ1 := quartile1 sortedSSIM in
  let ssimQ3 := quartile3 sortedSSIM in
  let ssimIQR := fl (ssimQ3 - ssimQ1) in
  fl (ssimQ1 - fl (3.0 * ssimIQR)).

Definition structuralAnomaly (opts : Options) (pairs : list SsimPair) (i : nat)
  : list Anomaly :=
  let ssimToPrev := ssimAt pairs (i - 1) in
  let ssimToNext := ssimAt pairs i in
  let bothLow := Qltb ssimToPrev (ssimOutlierThreshold pairs)
                 && Qltb ssimToNext (ssimOutlierThreshold pairs) in
  let veryLow := Qltb (Qmin ssimToPrev ssimToNext) (ssimThreshold opts) in
  if bothLow && veryLow then
    [mkAnomaly structural_damage None
               (if Qltb (Qmin ssimToPrev ssimToNext) Lit.d0_4 then severe else moderate)
               (SsimDetails ssimToPrev ssimToNext (ssimOutlierThreshold pairs))]
  else [].

Definition method3 (opts : Options) (frameBuffers : list Frame)
    (frameAnomalies : gmap nat (list Anomaly)) : gmap nat (list Anomaly) :=
  let numFrames := length frameBuffers in
  let pairs := adjacentSSIM frameBuffers in
  foldl (λ m i, pushAll m i (structuralAnomaly opts pairs i))
        frameAnomalies (seq 1 (numFrames - 2)).

(** ** Method 4: pixel-difference outliers *)

Definition consecutiveDiffs (frameBuffers : list Frame) : list Q :=
  let numFrames := length frameBuffers in
  let maxWidth := max_list (width <$> frameBuffers) in
  let maxHeight := max_list (height <$> frameBuffers) in
  let normalizedFrames := normalizeFrames frameBuffers in
  let totalPixels := maxWidth * maxHeight in
  (λ i, fl (QofN (pixelmatch (nth i normalizedFrames []) (nth (i + 1) normalizedFrames [])
                             maxWidth maxHeight) / QofN totalPixels))
  <$> seq 0 (numFrames - 1).

Definition pixelAnomaly (opts : Options) (diffs : list Q) (anomalies : list Anomaly) (i : nat)
  : list Anomaly :=
  let sortedDiffs := sortNum diffs in
  let medianDiff := at_ sortedDiffs (floorIdx (QofN (length sortedDiffs) / 2)) in
  let outlierThreshold := Qmax (fl (medianDiff * 2.5)) (pixelDiffThreshold opts) in
  let avgDiff := fl (fl (at_ diffs (i - 1) + at_ diffs i) / 2) in
  if Qltb outlierThreshold avgDiff then
    if negb (existsb (isType structural_damage) anomalies) then
      [mkAnomaly pixel_outlier None
                 (if Qltb (fl (medianDiff * 4)) avgDiff then severe else moderate)
                 (DiffDetails avgDiff medianDiff outlierThreshold)]
    else []
  else [].

Definition method4 (opts : Options) (frameBuffers : list Frame)
    (frameAnomalies : gmap nat (list Anomaly)) : gmap nat (list Anomaly) :=
  let numFrames := length frameBuffers in
  let diffs := consecutiveDiffs frameBuffers in
  foldl (λ m i, pushAll m i (pixelAnomaly opts diffs (getAnomalies m i) i))
        frameAnomalies (seq 1 (numFrames - 2)).

(** ** detectBadFrames *)

(** The anomaly map after the four passes. *)
Definition detectAnomalies (frameBuffers : list Frame) (opts : Options)
  : gmap nat (list Anomaly) :=
  let frameAnalysis := analyzeFrames frameBuffers in
  let stats := calculateMedianStats frameAnalysis in
  method4 opts frameBuffers
    (method3 opts frameBuffers
       (method2 opts stats frameAnalysis
          (method1 opts stats frameAnalysis ∅))).

(** The records built from the map. The [Map] is visited in insertion order
    and the list is then sorted by index; keys are distinct, so the sorted
    list does not depend on the order of the visit, here that of
    [map_to_list]. *)
Definition buildBadFrames (numFrames : nat) (frameAnomalies : gmap nat (list Anomaly))
  : list BadFrameRecord :=
  let badIndices := dom frameAnomalies in
  sortByIndex
    ((λ '(index, reasons),
        mkBadFrame index reasons (resolveReplacement numFrames badIndices index)
                   (aggregateSeverity reasons))
     <$> map_to_list frameAnomalies).

Definition detectBadFrames (frameBuffers : list Frame) (opts : Options) : Detection :=
  let numFrames := length frameBuffers in
  if numFrames <? 3 then mkDetection [] []
  else
    mkDetection
      (buildBadFrames numFrames (detectAnomalies frameBuffers opts))
      ["color_histogram"; "alpha_analysis"; "structural_similarity"; "pixel_outlier"]%string.

End Codec.

(** ** replaceBadFrames *)

(** [frames[bad.index] = frames[bad.replacement]] on the copy of the array,
    one record after the other. [None] stands for an array that would hold
    [undefined] or grow (a read or a write outside [0 .. length - 1]), which
    is no sequence of frames. *)
Definition replaceStep (frames : option (list Frame)) (bad : BadFrameRecord)
  : option (list Frame) :=
  frames ← frames;
  src ← frames !! bf_replacement bad;
  if bf_index bad <? length frames then Some (<[bf_index bad := src]> frames) else None.

Definition replaceBadFrames (frameBuffers : list Frame) (badFrameInfos : list BadFrameRecord)
  : option (list Frame) :=
  foldl replaceStep (Some frameBuffers) badFrameInfos.

(** ** findContentBounds *)

Module Bounds.
Record t := mk { x : nat; y : nat; width : nat; height : nat }.
End Bounds.

Definition ALPHA_THRESHOLD : Z := 20.

(** The running [minX, maxX, minY, maxY] of the scan. *)
Record Extent := mkExtent { minX : nat; maxX : nat; minY : nat; maxY : nat }.

Definition scanPixel (data : list Z) (width : nat) (y : nat) (e : Extent) (x : nat) : Extent :=
  let idx := (y * width + x) * 4 in
  if (byteAt data (idx + 3) >? ALPHA_THRESHOLD)%Z
  then mkExtent (Nat.min (minX e) x) (Nat.max (maxX e) x)
                (Nat.min (minY e) y) (Nat.max (maxY e) y)
  else e.

Definition scanRow (data : list Z) (width : nat) (e : Extent) (y : nat) : Extent :=
  foldl (scanPixel data width y) e (seq 0 width).

Definition findContentBounds (data : list Z) (width height : nat) : Bounds.t :=
  let e := foldl (scanRow data width) (mkExtent width 0 height 0) (seq 0 height) in
  if (maxX e <? minX e) || (maxY e <? minY e)
  then Bounds.mk 0 0 width height
  else Bounds.mk (minX e) (minY e) (maxX e - minX e + 1) (maxY e - minY e + 1).

(** ** stabilizeFrames *)

Definition boundsOf (buf : Frame) : Bounds.t :=
  findContentBounds (data buf) (width buf) (height buf).

(** One frame of the second [Promise.all]: crop to the bounds, paste on the
    blank canvas. *)
Definition placeOnCanvas (canvasWidth canvasHeight : nat) (buf : Frame) (bounds : Bounds.t)
  : option Frame :=
  content ← Sharp.extract buf (Bounds.x bounds) (Bounds.y bounds)
                          (Bounds.width bounds) (Bounds.height bounds);
  let left := (canvasWidth - Bounds.width bounds) / 2 in
  let top := canvasHeight - Bounds.height bounds in
  Sharp.compositeOnBlank canvasWidth canvasHeight content left top.

(** [Math.max(...[])] is [-Infinity]; with no frame the canvas size is never
    used, so [max_list [] = 0] stands for it. [None]: a codec call rejects. *)
Definition stabilizeFrames (frameBuffers : list Frame) : option (list Frame) :=
  let frameData := (λ buf, (buf, boundsOf buf)) <$> frameBuffers in
  let maxContentWidth := max_list ((λ f, Bounds.width f.2) <$> frameData) in
  let maxContentHeight := max_list ((λ f, Bounds.height f.2) <$> frameData) in
  let canvasWidth := maxContentWidth + 40 in
  let canvasHeight := maxContentHeight + 40 in
  mapM (λ f, placeOnCanvas canvasWidth canvasHeight f.1 f.2) frameData.

(** ** verifyFrames and autoFix *)

(** [new Set(metas.map(m => `${m.width}x${m.height}`))]: the distinct sizes in
    the order of their first occurrence. The template string is injective on
    pairs of naturals, so the pair stands for it. *)
Definition sizeSet (metas : list (nat * nat)) : list (nat * nat) :=
  foldl (λ s m, if bool_decide (m ∈ s) then s else s ++ [m]) [] metas.

(** [frameBuffers[i]] at an index in range. *)
Definition frameAt (frameBuffers : list Frame) (i : nat) : Frame :=
  nth i frameBuffers (mkFrame 0 0 []).

Section Pipeline.

Variable resizeContain : Frame → nat → nat → list Z.
Variable pixelmatch : list Z → list Z → nat → nat → nat.

(** [pixelmatch] throws unless the two buffers have the same length and
    that length is [4 * width * height]; [None] stands for the throw. *)
Definition pixelmatchChecked (img1 img2 : list Z) (width height : nat) : option nat :=
  if (length img1 =? length img2) && (length img1 =? width * height * 4)
  then Some (pixelmatch img1 img2 width height)
  else None.

(** The ratios of the sampling loop, in order; a throw of [pixelmatch]
    leaves the loop and the function. *)
Definition sampledRatios (frameBuffers : list Frame) : option (list Q) :=
  let numFrames := length frameBuffers in
  let maxWidth := width (frameAt frameBuffers 0) in
  let maxHeight := height (frameAt frameBuffers 0) in
  let totalPixels := maxWidth * maxHeight in
  let checkIndices := [0; numFrames / 2; numFrames - 1] in
  let rawFrames := (λ i, data (frameAt frameBuffers i)) <$> checkIndices in
  mapM (λ i, diff ← pixelmatchChecked (nth i rawFrames []) (nth (i + 1) rawFrames [])
                                      maxWidth maxHeight;
             Some (fl (QofN diff / QofN totalPixels)))
       (seq 0 (length rawFrames - 1)).

Definition verifyFrames (frameBuffers : list Frame) : option Verification :=
  let metas := (λ buf, (width buf, height buf)) <$> frameBuffers in
  let sizes := sizeSet metas in
  let issues := if 1 <? length sizes then [InconsistentSizes sizes] else [] in
  let numFrames := length frameBuffers in
  issues ←
    (if 2 <? numFrames then
       ratios ← sampledRatios frameBuffers;
       Some (foldl (λ issues diffRatio,
                      if Qltb Lit.d0_30 diffRatio
                      then issues ++ [LargeVariance diffRatio] else issues)
                   issues ratios)
     else Some issues);
  Some (mkVerification (length issues =? 0) issues).

Definition autoFix (frameBuffers : list Frame) (options : Options) : option Result :=
  let frames := frameBuffers in
  let detectionResult := detectBadFrames resizeContain pixelmatch frames options in
  frames ← (if 0 <? length (badFrames detectionResult)
            then replaceBadFrames frames (badFrames detectionResult)
            else Some frames);
  let replacements :=
    if 0 <? length (badFrames detectionResult)
    then (λ b, mkReplacement (bf_index b) (bf_replacement b) (bf_reasons b))
         <$> badFrames detectionResult
    else [] in
  frames ← stabilizeFrames frames;
  finalCheck ← verifyFrames frames;
  Some (mkResult frames
          (mkReport (length frameBuffers) (badFrames detectionResult) replacements true
                    (methodsUsed detectionResult) (passed finalCheck) finalCheck)).

End Pipeline.

(** ** Vocabulary of the statements *)

(** rank counting *)
Fixpoint countIf (p : Q → bool) (l : list Q) : nat :=
  match l with
  | [] => 0
  | x :: l' => (if p x then 1 else 0) + countIf p l'
  end.

(** Every stored list is non-empty, as the passes only store after a push
    (or, in the first pass, under [anomalies.length > 0]). *)
Definition entriesNonEmpty (m : gmap nat (list Anomaly)) : Prop :=
  ∀ i l, m !! i = Some l → l ≠ [].

(** Lists whose elements carry their own position, such as [frameAnalysis]. *)
Definition selfIndexed {A} (key : A → nat) (xs : list A) : Prop :=
  ∀ i x, xs !! i = Some x → key x = i.

(** Frames with a neighbour on both sides. *)
Definition interior (numFrames j : nat) : Prop := 1 ≤ j ∧ j < numFrames - 1.

(** The bad set of a detection result: the indices of its records. *)
Definition badSet (d : Detection) : gset nat := list_to_set (bf_index <$> badFrames d).

(** A good frame [d] places before, respectively after, frame [i], inside
    the sequence (no wrap-around). *)
Definition earlierGood (bad : gset nat) (i d : nat) : Prop := d ≤ i ∧ i - d ∉ bad.

Definition laterGood (numFrames : nat) (bad : gset nat) (i d : nat) : Prop :=
  i + d < numFrames ∧ i + d ∉ bad.

(** No good frame at a distance from [1] up to, not including, [d]. *)
Definition noneWithin (numFrames : nat) (bad : gset nat) (i d : nat) : Prop :=
  ∀ d', 1 ≤ d' < d → ¬ earlierGood bad i d' ∧ ¬ laterGood numFrames bad i d'.

(** "Frame [j] is flagged with anomaly [a]". *)
Definition flagged (d : Detection) (j : nat) (a : Anomaly) : Prop :=
  ∃ rec, rec ∈ badFrames d ∧ bf_index rec = j ∧ a ∈ bf_reasons rec.

(** A pixel counts as content when its alpha exceeds [ALPHA_THRESHOLD]. *)
Definition contentAt (data : list Z) (width x y : nat) : Prop :=
  (ALPHA_THRESHOLD < byteAt data ((y * width + x) * 4 + 3))%Z.

Definition hasContent (f : Frame) : Prop :=
  ∃ x y, x < width f ∧ y < height f ∧ contentAt (data f) (width f) x y.

(** [b] is the tight bounding box of the content of a [w] by [h] raster:
    it lies in the raster, holds every content pixel, and each of its four
    edges holds one. *)
Definition TightBox (data : list Z) (w h : nat) (b : Bounds.t) : Prop :=
  1 ≤ Bounds.width b ∧ 1 ≤ Bounds.height b ∧
  Bounds.x b + Bounds.width b ≤ w ∧ Bounds.y b + Bounds.height b ≤ h ∧
  (∀ x y, x < w → y < h → contentAt data w x y →
          Bounds.x b ≤ x < Bounds.x b + Bounds.width b ∧
          Bounds.y b ≤ y < Bounds.y b + Bounds.height b) ∧
  (∃ y, y < h ∧ contentAt data w (Bounds.x b) y) ∧
  (∃ y, y < h ∧ contentAt data w (Bounds.x b + Bounds.width b - 1) y) ∧
  (∃ x, x < w ∧ contentAt data w x (Bounds.y b)) ∧
  (∃ x, x < w ∧ contentAt data w x (Bounds.y b + Bounds.height b - 1)).

(** The extent [e] results from [e0] by scanning the pixels in [P]. *)
Record Covers (data : list Z) (width : nat) (P : nat → nat → Prop) (e0 e : Extent) : Prop :=
  mkCovers {
    cov_in : ∀ x y, P x y → contentAt data width x y →
                    minX e ≤ x ≤ maxX e ∧ minY e ≤ y ≤ maxY e;
    cov_mono : minX e ≤ minX e0 ∧ maxX e0 ≤ maxX e ∧ minY e ≤ minY e0 ∧ maxY e0 ≤ maxY e;
    cov_minX : minX e = minX e0 ∨ ∃ y, P (minX e) y ∧ contentAt data width (minX e) y;
    cov_maxX : maxX e = maxX e0 ∨ ∃ y, P (maxX e) y ∧ contentAt data width (maxX e) y;
    cov_minY : minY e = minY e0 ∨ ∃ x, P x (minY e) ∧ contentAt data width x (minY e);
    cov_maxY : maxY e = maxY e0 ∨ ∃ x, P x (maxY e) ∧ contentAt data width x (maxY e)
  }.

(** The frames a successful [extract] and [composite] return. *)
Definition cropped (f : Frame) (b : Bounds.t) : Frame :=
  mkFrame (Bounds.width b) (Bounds.height b)
    (Sharp.raster (Bounds.width b) (Bounds.height b)
       (λ x y c, Sharp.sample f (Bounds.x b + x) (Bounds.y b + y) c)).

Definition pasted (cw ch : nat) (input : Frame) (left top : nat) : Frame :=
  mkFrame cw ch
    (Sharp.raster cw ch
       (λ x y c,
          if (left <=? x) && (x <? left + width input) &&
             (top <=? y) && (y <? top + height input)
          then if (Sharp.sample input (x - left) (y - top) 3 =? 0)%Z then 0%Z
               else Sharp.sample input (x - left) (y - top) c
          else 0%Z)).

(** The canvas of stabilizeFrames for a sequence. *)
Definition maxContentWidth (fs : list Frame) : nat :=
  max_list ((λ f, Bounds.width (boundsOf f)) <$> fs).

Definition maxContentHeight (fs : list Frame) : nat :=
  max_list ((λ f, Bounds.height (boundsOf f)) <$> fs).

(** Where stabilizeFrames pastes the content of [f] on a canvas. *)
Definition leftOf (canvasWidth : nat) (f : Frame) : nat :=
  (canvasWidth - Bounds.width (boundsOf f)) / 2.

Definition topOf (canvasHeight : nat) (f : Frame) : nat :=
  canvasHeight - Bounds.height (boundsOf f).

Definition placed (cw ch : nat) (f : Frame) : Frame :=
  pasted cw ch (cropped f (boundsOf f)) (leftOf cw f) (topOf ch f).

(** Column [x], row [y] of the canvas lies in the pasted content of [f]. *)
Definition inContent (cw ch : nat) (f : Frame) (x y : nat) : bool :=
  (leftOf cw f <=? x) && (x <? leftOf cw f + Bounds.width (boundsOf f)) &&
  (topOf ch f <=? y) && (y <? topOf ch f + Bounds.height (boundsOf f)).

(** The ratio the verifier computes for the frames at positions [i], [j]. *)
Definition sampleRatio (pixelmatch : list Z → list Z → nat → nat → nat)
    (fs : list Frame) (i j : nat) : Q :=
  fl (QofN (pixelmatch (data (frameAt fs i)) (data (frameAt fs j))
                       (width (frameAt fs 0)) (height (frameAt fs 0)))
      / QofN (width (frameAt fs 0) * height (frameAt fs 0))).

(** The frames at positions [i], [j] pass the size check of [pixelmatch]
    when compared at the size of the first frame. *)
Definition comparable (fs : list Frame) (i j : nat) : Prop :=
  length (data (frameAt fs i)) = length (data (frameAt fs j)) ∧
  length (data (frameAt fs i)) = width (frameAt fs 0) * height (frameAt fs 0) * 4.

(** The verifier gets as far as its [return]: with more than two frames,
    both comparisons of the sampling loop pass the size check. *)
Definition verifierReturns (fs : list Frame) : Prop :=
  2 < length fs →
  comparable fs 0 (length fs / 2) ∧ comparable fs (length fs / 2) (length fs - 1).

(** The report autoFix assembles for a detection result and the outcome of
    the verifier. *)
Definition reportOf (numFrames : nat) (d : Detection) (finalCheck : Verification) : Report :=
  mkReport numFrames (badFrames d)
    (if 0 <? length (badFrames d)
     then (λ b, mkReplacement (bf_index b) (bf_replacement b) (bf_reasons b)) <$> badFrames d
     else [])
    true (methodsUsed d) (passed finalCheck) finalCheck.

(** The wording of the selection rule: [sorted] is the ascending arrangement
    of the values, and the value picked is the one at index
    [floor (n * num / den)]. *)
Definition ascending (sorted arr : list Q) : Prop :=
  sorted ≡ₚ arr ∧ StronglySorted Qle sorted.

Definition nearestRank (num den : nat) (sorted : list Q) : Q :=
  nth (num * length sorted / den) sorted 0%Q.


(** The opaque ratio of one frame. *)
Definition opaqueRatioOf (f : Frame) : Q :=
  opaqueRatio (alpha (analyzePixels (data f) (width f) (height f))).

(** ** Sample inputs *)

Module Examples.

(** A stand-in for the resize of the codec on frames that already share
    their size: the raster itself. *)
Definition sameSize (f : Frame) (w h : nat) : list Z := data f.

(** A stand-in for the pixel comparison of the codec: the number of pixels
    that differ in some channel. *)
Fixpoint diffPixels (a b : list Z) : nat :=
  match a, b with
  | r1 :: g1 :: b1 :: a1 :: a', r2 :: g2 :: b2 :: a2 :: b' =>
      (if ((r1 =? r2) && (g1 =? g2) && (b1 =? b2) && (a1 =? a2))%Z then 0 else 1)
      + diffPixels a' b'
  | _, _ => 0
  end.

Definition countDiff (a b : list Z) (w h : nat) : nat := diffPixels a b.

(** A one-row frame made of runs of equal pixels. *)
Definition strip (runs : list (nat * list Z)) : Frame :=
  mkFrame (sum_list (fst <$> runs)) 1
          (flat_map (λ run, concat (replicate run.1 run.2)) runs).

Definition green : list Z := [60; 120; 60; 255]%Z.
Definition tan : list Z := [150; 100; 60; 255]%Z.
Definition dark : list Z := [20; 20; 20; 255]%Z.
Definition white : list Z := [255; 255; 255; 255]%Z.
Definition clear : list Z := [0; 0; 0; 0]%Z.

(** Three frames, each missing one of the three colours. *)
Definition noGreen : Frame := strip [(51, tan); (51, dark)].
Definition noTan : Frame := strip [(51, green); (51, dark)].
Definition noDark : Frame := strip [(51, green); (51, tan)].
Definition allBad : list Frame := [noGreen; noTan; noDark].

(** Five frames; the last one is fully opaque, the others half. *)
Definition halfOpaque : Frame := strip [(1, white); (1, clear)].
Definition fullOpaque : Frame := strip [(2, white)].
Definition opacityFrames : list Frame :=
  [halfOpaque; halfOpaque; halfOpaque; halfOpaque; fullOpaque].

(** Three frames; the middle one has a tenth of the green of the others. *)
Definition fullGreen : Frame := strip [(60, green)].
Definition paleGreen : Frame := strip [(6, green); (54, white)].
Definition greenFrames : list Frame := [fullGreen; paleGreen; fullGreen].

(** Nine one-pixel frames; the fifth is black among white ones. *)
Definition whitePixel : Frame := strip [(1, white)].
Definition blackPixel : Frame := strip [(1, [0; 0; 0; 255]%Z)].
Definition flickerFrames : list Frame :=
  [whitePixel; whitePixel; whitePixel; whitePixel; blackPixel;
   whitePixel; whitePixel; whitePixel; whitePixel].

(** The record detection builds for the pale frame of [greenFrames]. *)
Definition paleRecord : BadFrameRecord :=
  mkBadFrame 1
    [mkAnomaly color_loss (Some darkGreen) severe (ColorDetails 6 60%Q (6 # 60)%Q)]
    0 severe.

Definition onePixel : Frame := mkFrame 1 1 [0; 0; 0; 255]%Z.
Definition blankPixel : Frame := mkFrame 1 1 [0; 0; 0; 0]%Z.

End Examples.

(** ** Further vocabulary *)

(** The sum of the four bucket counts. *)
Definition colorTotal (c : Colors) : nat :=
  n_darkGreen c + n_brown c + n_darkPixels c + n_other c.

(** The semi-transparent ratio of one frame, and the third quartile the halo
    test compares it with. *)
Definition semiTransRatioOf (f : Frame) : Q :=
  semiTransRatio (alpha (analyzePixels (data f) (width f) (height f))).

Definition semiTransQ3 (frameAnalysis : list FrameAnalysis) : Q :=
  at_ (sortNum ((λ f, semiTransRatio (alpha (fa_stats f))) <$> frameAnalysis))
      (floorIdx (QofN (length ((λ f, semiTransRatio (alpha (fa_stats f))) <$> frameAnalysis))
                 * 0.75)).

(** The excess of the halo test, as the source computes it. *)
Definition haloExcess (fs : list Frame) (f : Frame) : Q :=
  fl (semiTransRatioOf f - semiTransQ3 (analyzeFrames fs)).

(** The bound and the average of the pixel-difference pass, as the source
    computes them. *)
Definition outlierThreshold (opts : Options) (diffs : list Q) : Q :=
  Qmax (fl (getMedian diffs * 2.5)) (pixelDiffThreshold opts).

Definition avgDiff (diffs : list Q) (i : nat) : Q :=
  fl (fl (at_ diffs (i - 1) + at_ diffs i) / 2).

(** The number of pixels of a buffer whose alpha is at least 128, the ones
    analyzePixels puts in a bucket. *)
Definition classifiedPixels (data : list Z) : nat :=
  length (List.filter (λ i, negb (byteAt data (i + 3) <? 128)%Z) (pixelOffsets data)).

Definition alphaTotal (a : AlphaCounts) : nat := opaque a + semiTrans a + transparent a.

(** The three counters of analyzePixels when its loop ends. *)
Definition alphaCounts (data : list Z) : AlphaCounts :=
  (foldl (analyzeStep data) (mkColors 0 0 0 0, mkAlphaCounts 0 0 0) (pixelOffsets data)).2.

(** [var1] of calculateSimplifiedSSIM: the variance it computes for its
    first buffer. *)
Definition ssimVar1 (data1 data2 : list Z) : Q :=
  let st := foldl (ssimStep data1 data2) (mkSsimSums 0 0 0 0 0 0) (pixelOffsets data1) in
  let count := QofN (ssimCount st) in
  let mean1 := fl (sum1 st / count) in
  fl (fl (sumSq1 st / count) - fl (mean1 * mean1)).

(** The luminance calculateSimplifiedSSIM computes for the pixel at offset
    [i] of a buffer. *)
Definition lum (data : list Z) (i : nat) : Q :=
  fl (fl (fl (Lit.d0_299 * inject_Z (byteAt data i))
          + fl (Lit.d0_587 * inject_Z (byteAt data (i + 1))))
      + fl (Lit.d0_114 * inject_Z (byteAt data (i + 2)))).

(** The samples of a [Uint8Array]. *)
Definition isByte (b : Z) : Prop := (0 ≤ b ≤ 255)%Z.

(** Half the gap between 1 and the next double: the relative error of one
    rounding is at most this. *)
Definition ulp53 : Q := Eval vm_compute in pow2 (-53).

(** The rounded sums of calculateSimplifiedSSIM for its first buffer,
    against exact sums [S] of the luminances and [T] of their squares: each
    of the [n] additions so far has added one rounding. *)
Definition sumsBound (st : SsimSums) : Prop :=
  let n := QofN (ssimCount st) in
  ∃ S T : Q,
    (0 <= S)%Q ∧ (0 <= T)%Q ∧ (S * S <= n * T)%Q ∧ (T <= n * 66049)%Q ∧
    (0 <= sum1 st)%Q ∧ (sum1 st <= S * (1 + 2 * n * ulp53))%Q ∧
    (0 <= sumSq1 st)%Q ∧ (T * (1 - (n + 1) * ulp53) <= sumSq1 st)%Q.

(** The sums when the two buffers are the same one. *)
Definition selfSums (st : SsimSums) : Prop :=
  sum2 st = sum1 st ∧ sumSq2 st = sumSq1 st ∧ sumProd st = sumSq1 st.

(** The sums of calculateSimplifiedSSIM with the two buffers exchanged. *)
Definition swapSums (st : SsimSums) : SsimSums :=
  mkSsimSums (sum2 st) (sum1 st) (sumSq2 st) (sumSq1 st) (sumProd st) (ssimCount st).

(** ** More sample inputs *)

Module Samples.

Import Examples.

(** Five one-pixel frames; the third is half transparent. *)
Definition hazyPixel : Frame := strip [(1, [255; 255; 255; 128]%Z)].
Definition haloFrames : list Frame :=
  [whitePixel; whitePixel; hazyPixel; whitePixel; whitePixel].

(** Nine one-pixel frames; the fifth is a shade darker than the others. *)
Definition offWhite : Frame := strip [(1, [254; 254; 254; 255]%Z)].
Definition shimmerFrames : list Frame :=
  [whitePixel; whitePixel; whitePixel; whitePixel; offWhite;
   whitePixel; whitePixel; whitePixel; whitePixel].

End Samples.

(** * Properties *)

(** ** Numbers *)

Lemma Qltb_lt (x y : Q) : Qltb x y = true ↔ (x < y)%Q.
Proof.
  unfold Qltb. rewrite negb_true_iff, <- not_true_iff_false, Qle_bool_iff.
  split; [apply Qnot_le_lt | apply Qlt_not_le].
Qed.

Lemma Qltb_ge (x y : Q) : Qltb x y = false ↔ (y <= x)%Q.
Proof.
  unfold Qltb. rewrite negb_false_iff. apply Qle_bool_iff.
Qed.

Lemma floorIdx_half (n : nat) : floorIdx (QofN n / 2) = n / 2.
Proof.
  change (floorIdx (QofN n / 2)) with (Z.to_nat ((Z.of_nat n * 1) `div` Z.of_nat 2)).
  rewrite Z.mul_1_r, <- Nat2Z.inj_div. apply Nat2Z.id.
Qed.

Lemma floorIdx_quarter (n : nat) : floorIdx (QofN n * 0.25) = n / 4.
Proof.
  change (floorIdx (QofN n * 0.25)) with (Z.to_nat ((Z.of_nat n * 25) `div` (Z.of_nat 4 * 25))).
  rewrite Z.div_mul_cancel_r by lia.
  rewrite <- Nat2Z.inj_div. apply Nat2Z.id.
Qed.

Lemma floorIdx_three_quarters (n : nat) : floorIdx (QofN n * 0.75) = 3 * n / 4.
Proof.
  change (floorIdx (QofN n * 0.75)) with (Z.to_nat ((Z.of_nat n * 75) `div` (Z.of_nat 4 * 25))).
  replace (Z.of_nat n * 75)%Z with (Z.of_nat (3 * n) * 25)%Z by lia.
  rewrite Z.div_mul_cancel_r by lia.
  rewrite <- Nat2Z.inj_div. apply Nat2Z.id.
Qed.

(** ** Binary64 rounding *)

Lemma pow2_pos e : (0 < pow2 e)%Q.
Proof. by apply Qpower_0_lt. Qed.

Lemma pow2_plus a b : (pow2 (a + b) == pow2 a * pow2 b)%Q.
Proof. by apply Qpower_plus. Qed.

Lemma pow2_succ a : (pow2 (a + 1) == 2 * pow2 a)%Q.
Proof. rewrite pow2_plus. change (pow2 1) with 2%Q. ring. Qed.

Lemma pow2_le a b : (a ≤ b)%Z → (pow2 a <= pow2 b)%Q.
Proof. intros H. by apply Qpower_le_compat_l. Qed.

Lemma pow2_lt a b : (a < b)%Z → (pow2 a < pow2 b)%Q.
Proof. intros H. by apply Qpower_lt_compat_l. Qed.

Lemma pow2_lt_inv a b : (pow2 a < pow2 b)%Q → (a < b)%Z.
Proof. intros H. by apply (Qpower_lt_compat_l_inv 2). Qed.

Lemma pow2_Z e : (0 ≤ e)%Z → (pow2 e == inject_Z (2 ^ e))%Q.
Proof. intros H. symmetry. by apply Zpower_Qpower. Qed.

Lemma log2_Q n :
  (0 < n)%Z → (pow2 (Z.log2 n) <= inject_Z n)%Q ∧ (inject_Z n < pow2 (Z.log2 n + 1))%Q.
Proof.
  intros Hn. pose proof (Z.log2_nonneg n). destruct (Z.log2_spec n Hn) as [H1 H2].
  rewrite !pow2_Z by lia. rewrite <- Zle_Qle, <- Zlt_Qlt. split; [done|].
  by replace (Z.log2 n + 1)%Z with (Z.succ (Z.log2 n)) by lia.
Qed.

Lemma expo_spec x : (0 < x)%Q → (pow2 (expo x) <= x)%Q ∧ (x < pow2 (expo x + 1))%Q.
Proof.
  destruct x as [n d]. intros Hx.
  assert (0 < n)%Z as Hn by (unfold Qlt in Hx; simpl in Hx; lia).
  unfold expo. cbn [Qnum Qden].
  destruct (log2_Q n Hn) as [Hn1 Hn2].
  destruct (log2_Q (Z.pos d) eq_refl) as [Hd1 Hd2].
  set (ln := Z.log2 n) in *. set (ld := Z.log2 (Z.pos d)) in *.
  assert ((n # d) * inject_Z (Z.pos d) == inject_Z n)%Q as Hxd.
  { unfold Qeq, Qmult, inject_Z. simpl. lia. }
  pose proof (pow2_pos (ln - ld)) as HA. pose proof (pow2_pos ld) as HB.
  assert (pow2 ln == pow2 (ln - ld) * pow2 ld)%Q as E1.
  { rewrite <- pow2_plus. by replace (ln - ld + ld)%Z with ln by lia. }
  rewrite pow2_succ in Hn2, Hd2. rewrite E1 in Hn1, Hn2.
  set (x := (n # d)%Q) in *. set (D := inject_Z (Z.pos d)) in *.
  set (N := inject_Z n) in *. set (A := pow2 (ln - ld)) in *. set (B := pow2 ld) in *.
  destruct (Qle_bool A x) eqn:E.
  - apply Qle_bool_iff in E. split; [done|]. rewrite pow2_succ. fold A.
    destruct (Qlt_le_dec x (2 * A)) as [|Hge]; [done|exfalso].
    assert (2 * A * B <= x * D)%Q as Hc by (apply Qmult_le_compat_nonneg; split; lra).
    lra.
  - assert (x < A)%Q as Hlt.
    { apply Qnot_le_lt. intros H. apply Qle_bool_iff in H. congruence. }
    replace (ln - ld - 1 + 1)%Z with (ln - ld)%Z by lia. split; [|done].
    assert (pow2 (ln - ld - 1) * 2 == A)%Q as E2.
    { unfold A. replace (ln - ld)%Z with (ln - ld - 1 + 1)%Z at 2 by lia.
      rewrite pow2_succ. ring. }
    pose proof (pow2_pos (ln - ld - 1)) as HP.
    set (P := pow2 (ln - ld - 1)) in *.
    destruct (Qlt_le_dec x P) as [Hl|]; [exfalso|done].
    assert (x * D <= P * D)%Q as Hc1 by (apply Qmult_le_compat_nonneg; split; lra).
    assert (P * D < P * (2 * B))%Q as Hc2.
    { apply Qmult_lt_l; lra. }
    assert (P * (2 * B) == A * B)%Q as E3 by (rewrite <- E2; ring).
    lra.
Qed.

Lemma expo_unique x e :
  (0 < x)%Q → (pow2 e <= x)%Q → (x < pow2 (e + 1))%Q → expo x = e.
Proof.
  intros Hx H1 H2. destruct (expo_spec x Hx) as [H3 H4].
  assert (expo x < e + 1)%Z by (apply pow2_lt_inv; lra).
  assert (e < expo x + 1)%Z by (apply pow2_lt_inv; lra).
  lia.
Qed.

Lemma expo_proper x y : (0 < x)%Q → (x == y)%Q → expo x = expo y.
Proof.
  intros Hx E. symmetry. destruct (expo_spec x Hx) as [H1 H2].
  apply expo_unique; rewrite <- ?E; done.
Qed.

Lemma expo_double x : (0 < x)%Q → expo (2 * x) = (expo x + 1)%Z.
Proof.
  intros Hx. destruct (expo_spec x Hx) as [H1 H2].
  apply expo_unique; [lra| |]; rewrite !pow2_succ in *; lra.
Qed.

Lemma rne_floor q : (Qfloor q ≤ rne q ≤ Qfloor q + 1)%Z.
Proof.
  unfold rne.
  destruct (Qltb (q - inject_Z (Qfloor q)) (1 # 2)),
    (Qltb (1 # 2) (q - inject_Z (Qfloor q))), (Z.even (Qfloor q)); lia.
Qed.

Lemma rne_proper q q' : (q == q')%Q → rne q = rne q'.
Proof.
  intros E. unfold rne. rewrite (Qfloor_comp _ _ E).
  assert (∀ a b c, (a == b)%Q → Qltb a c = Qltb b c) as P1.
  { intros a b c Eab. destruct (Qltb b c) eqn:Eb.
    - apply Qltb_lt. apply Qltb_lt in Eb. by rewrite Eab.
    - apply Qltb_ge. apply Qltb_ge in Eb. by rewrite Eab. }
  assert (∀ a b c, (a == b)%Q → Qltb c a = Qltb c b) as P2.
  { intros a b c Eab. destruct (Qltb c b) eqn:Eb.
    - apply Qltb_lt. apply Qltb_lt in Eb. by rewrite Eab.
    - apply Qltb_ge. apply Qltb_ge in Eb. by rewrite Eab. }
  assert (q - inject_Z (Qfloor q') == q' - inject_Z (Qfloor q'))%Q as Er by (by rewrite E).
  by rewrite (P1 _ _ _ Er), (P2 _ _ _ Er).
Qed.

Lemma rne_Z z : rne (inject_Z z) = z.
Proof.
  unfold rne. rewrite Qfloor_Z.
  assert (Qltb (inject_Z z - inject_Z z) (1 # 2) = true) as ->; [|done].
  apply Qltb_lt. lra.
Qed.

Lemma rne_mono q q' : (q <= q')%Q → (rne q ≤ rne q')%Z.
Proof.
  intros H. pose proof (Qfloor_resp_le _ _ H) as Hf.
  pose proof (rne_floor q). pose proof (rne_floor q').
  destruct (decide (Qfloor q = Qfloor q')) as [E|]; [|lia].
  unfold rne. rewrite <- E.
  set (f := Qfloor q) in *.
  destruct (Qltb (q - inject_Z f) (1 # 2)) eqn:A1.
  { destruct (Qltb (q' - inject_Z f) (1 # 2)), (Qltb (1 # 2) (q' - inject_Z f)),
      (Z.even f); lia. }
  apply Qltb_ge in A1.
  destruct (Qltb (q' - inject_Z f) (1 # 2)) eqn:B1.
  { apply Qltb_lt in B1. lra. }
  destruct (Qltb (1 # 2) (q - inject_Z f)) eqn:A2.
  { apply Qltb_lt in A2.
    assert (Qltb (1 # 2) (q' - inject_Z f) = true) as -> by (apply Qltb_lt; lra). lia. }
  destruct (Qltb (1 # 2) (q' - inject_Z f)); [destruct (Z.even f); lia|].
  destruct (Z.even f); lia.
Qed.

Lemma rne_ge z q : (inject_Z z <= q)%Q → (z ≤ rne q)%Z.
Proof. intros H. rewrite <- (rne_Z z). by apply rne_mono. Qed.

Lemma rne_le z q : (q <= inject_Z z)%Q → (rne q ≤ z)%Z.
Proof. intros H. rewrite <- (rne_Z z). by apply rne_mono. Qed.

(** The rounding of a positive number, written with its exponent. *)
Lemma roundPos_mant x :
  (0 < x)%Q →
  (2 ^ 52 ≤ rne (x * pow2 (52 - expo x)) ≤ 2 ^ 53)%Z.
Proof.
  intros Hx. destruct (expo_spec x Hx) as [H1 H2].
  pose proof (pow2_pos (52 - expo x)) as HS.
  assert (pow2 (expo x) * pow2 (52 - expo x) == inject_Z (2 ^ 52))%Q as E1.
  { rewrite <- pow2_plus, <- pow2_Z by lia. by replace (expo x + (52 - expo x))%Z with 52%Z by lia. }
  assert (pow2 (expo x + 1) * pow2 (52 - expo x) == inject_Z (2 ^ 53))%Q as E2.
  { rewrite <- pow2_plus, <- pow2_Z by lia.
    by replace (expo x + 1 + (52 - expo x))%Z with 53%Z by lia. }
  split.
  - apply rne_ge. rewrite <- E1. apply Qmult_le_compat_r; lra.
  - apply rne_le. rewrite <- E2. apply Qmult_le_compat_r; lra.
Qed.

Lemma roundPos_bounds x :
  (0 < x)%Q → (pow2 (expo x) <= roundPos x)%Q ∧ (roundPos x <= pow2 (expo x + 1))%Q.
Proof.
  intros Hx. destruct (roundPos_mant x Hx) as [H1 H2]. unfold roundPos.
  set (m := rne _) in *. pose proof (pow2_pos (expo x - 52)) as HS.
  assert (inject_Z (2 ^ 52) * pow2 (expo x - 52) == pow2 (expo x))%Q as E1.
  { rewrite <- pow2_Z, <- pow2_plus by lia. by replace (52 + (expo x - 52))%Z with (expo x) by lia. }
  assert (inject_Z (2 ^ 53) * pow2 (expo x - 52) == pow2 (expo x + 1))%Q as E2.
  { rewrite <- pow2_Z, <- pow2_plus by lia.
    by replace (53 + (expo x - 52))%Z with (expo x + 1)%Z by lia. }
  rewrite Zle_Qle in H1, H2.
  split.
  - rewrite <- E1. apply Qmult_le_compat_r; lra.
  - rewrite <- E2. apply Qmult_le_compat_r; lra.
Qed.

Lemma roundPos_pos x : (0 < x)%Q → (0 < roundPos x)%Q.
Proof.
  intros Hx. destruct (roundPos_bounds x Hx) as [H _].
  pose proof (pow2_pos (expo x)). lra.
Qed.

Lemma roundPos_proper x y : (0 < x)%Q → (x == y)%Q → (roundPos x == roundPos y)%Q.
Proof.
  intros Hx E. unfold roundPos. rewrite <- (expo_proper x y Hx E).
  rewrite (rne_proper (x * pow2 (52 - expo x)) (y * pow2 (52 - expo x))); [done|].
  by apply Qmult_comp.
Qed.

Lemma roundPos_mono x y : (0 < x)%Q → (x <= y)%Q → (roundPos x <= roundPos y)%Q.
Proof.
  intros Hx Hxy. assert (0 < y)%Q as Hy by lra.
  destruct (expo_spec x Hx) as [X1 X2]. destruct (expo_spec y Hy) as [Y1 Y2].
  assert (expo x < expo y + 1)%Z as He by (apply pow2_lt_inv; lra).
  destruct (decide (expo x = expo y)) as [E|Hne].
  - unfold roundPos. rewrite <- E. pose proof (pow2_pos (expo x - 52)).
    pose proof (pow2_pos (52 - expo x)).
    apply Qmult_le_compat_r; [|lra]. rewrite <- Zle_Qle. apply rne_mono.
    apply Qmult_le_compat_r; lra.
  - destruct (roundPos_bounds x Hx) as [_ B1]. destruct (roundPos_bounds y Hy) as [B2 _].
    assert (pow2 (expo x + 1) <= pow2 (expo y))%Q by (apply pow2_le; lia). lra.
Qed.

Lemma roundPos_idem x : (0 < x)%Q → (roundPos (roundPos x) == roundPos x)%Q.
Proof.
  intros Hx. pose proof (roundPos_pos x Hx) as Hy.
  destruct (roundPos_mant x Hx) as [M1 M2].
  assert (roundPos x == inject_Z (rne (x * pow2 (52 - expo x))) * pow2 (expo x - 52))%Q as Ey
    by reflexivity.
  set (m := rne (x * pow2 (52 - expo x))) in *.
  set (y := roundPos x) in *. set (e := expo x) in *.
  pose proof (pow2_pos (e - 52)) as HS.
  assert (pow2 (e - 52) * pow2 (52 - e) == 1)%Q as Einv.
  { rewrite <- pow2_plus. by replace (e - 52 + (52 - e))%Z with 0%Z by lia. }
  destruct (decide (m = 2 ^ 53)%Z) as [Em|Hm].
  - assert (y == pow2 (e + 1))%Q as Ey'.
    { rewrite Ey, Em, <- pow2_Z, <- pow2_plus by lia.
      by replace (53 + (e - 52))%Z with (e + 1)%Z by lia. }
    assert (expo y = (e + 1)%Z) as Ee.
    { apply expo_unique; [done| |]; rewrite Ey'; [lra|]. apply pow2_lt. lia. }
    unfold roundPos at 1. rewrite Ee.
    rewrite (rne_proper _ (inject_Z (2 ^ 52))).
    + rewrite rne_Z, Ey', <- pow2_Z, <- pow2_plus by lia.
      by replace (52 + (e + 1 - 52))%Z with (e + 1)%Z by lia.
    + rewrite Ey', <- pow2_plus, <- pow2_Z by lia.
      by replace (e + 1 + (52 - (e + 1)))%Z with 52%Z by lia.
  - assert (expo y = e) as Ee.
    { apply expo_unique; [done|apply roundPos_bounds; done|].
      rewrite Ey. 
      assert (pow2 (e + 1) == inject_Z (2 ^ 53) * pow2 (e - 52))%Q as ->.
      { rewrite <- pow2_Z, <- pow2_plus by lia.
        by replace (53 + (e - 52))%Z with (e + 1)%Z by lia. }
      apply Qmult_lt_compat_r; [done|]. rewrite <- Zlt_Qlt. lia. }
    unfold roundPos at 1. rewrite Ee.
    rewrite (rne_proper _ (inject_Z m)).
    + by rewrite rne_Z.
    + rewrite Ey, <- Qmult_assoc, Einv. ring.
Qed.

Lemma roundPos_double x : (0 < x)%Q → (roundPos (2 * x) == 2 * roundPos x)%Q.
Proof.
  intros Hx. unfold roundPos. rewrite (expo_double x Hx).
  rewrite (rne_proper (2 * x * pow2 (52 - (expo x + 1))) (x * pow2 (52 - expo x))).
  - replace (expo x + 1 - 52)%Z with (expo x - 52 + 1)%Z by lia. rewrite pow2_succ. ring.
  - assert (pow2 (52 - expo x) == 2 * pow2 (52 - (expo x + 1)))%Q as ->; [|ring].
    rewrite <- pow2_succ. by replace (52 - (expo x + 1) + 1)%Z with (52 - expo x)%Z by lia.
Qed.

(** [fl] on the three signs. *)
Lemma fl_proper x y : (x == y)%Q → fl x = fl y.
Proof. intros E. unfold fl. by rewrite (Qred_complete _ _ E). Qed.

Lemma Qnum_sign x :
  match Qnum x with
  | Z0 => (x == 0)%Q
  | Zpos _ => (0 < x)%Q
  | Zneg _ => (x < 0)%Q
  end.
Proof. destruct x as [[|p|p] d]; unfold Qeq, Qlt; simpl; lia. Qed.

Lemma fl_zero x : (x == 0)%Q → fl x = 0%Q.
Proof. intros E. by rewrite (fl_proper _ _ E). Qed.

Lemma fl_pos_eq x : (0 < x)%Q → (fl x == roundPos x)%Q.
Proof.
  intros Hx. unfold fl. pose proof (Qnum_sign (Qred x)) as Hs.
  pose proof (Qred_correct x) as E.
  destruct (Qnum (Qred x)); [lra| |lra].
  rewrite Qred_correct. apply roundPos_proper; [lra|done].
Qed.

Lemma fl_neg_eq x : (x < 0)%Q → (fl x == - roundPos (- x))%Q.
Proof.
  intros Hx. unfold fl. pose proof (Qnum_sign (Qred x)) as Hs.
  pose proof (Qred_correct x) as E.
  destruct (Qnum (Qred x)); [lra|lra|].
  rewrite Qred_correct. apply Qopp_comp. apply roundPos_proper; [lra|by rewrite E].
Qed.

Lemma fl_0 : fl 0 = 0%Q.
Proof. reflexivity. Qed.

Lemma fl_sign_pos x : (0 < x)%Q → (0 < fl x)%Q.
Proof. intros Hx. rewrite fl_pos_eq by done. by apply roundPos_pos. Qed.

Lemma fl_sign_neg x : (x < 0)%Q → (fl x < 0)%Q.
Proof.
  intros Hx. rewrite fl_neg_eq by done.
  assert (0 < roundPos (- x))%Q by (apply roundPos_pos; lra). lra.
Qed.

Lemma fl_opp x : (fl (- x) == - fl x)%Q.
Proof.
  destruct (Q_dec x 0) as [[Hx|Hx]|Hx].
  - rewrite (fl_neg_eq x), (fl_pos_eq (- x)) by lra. ring.
  - rewrite (fl_pos_eq x), (fl_neg_eq (- x)) by lra.
    rewrite (roundPos_proper (- - x) x); [done|lra|ring].
  - rewrite (fl_zero x), (fl_zero (- x)) by (rewrite ?Hx; done). done.
Qed.

Lemma fl_mono x y : (x <= y)%Q → (fl x <= fl y)%Q.
Proof.
  intros H.
  destruct (Q_dec x 0) as [[Hx|Hx]|Hx]; destruct (Q_dec y 0) as [[Hy|Hy]|Hy]; try lra.
  - rewrite (fl_neg_eq x), (fl_neg_eq y) by done.
    assert (roundPos (- y) <= roundPos (- x))%Q by (apply roundPos_mono; lra). lra.
  - pose proof (fl_sign_neg x Hx). pose proof (fl_sign_pos y Hy). lra.
  - pose proof (fl_sign_neg x Hx). rewrite (fl_zero y) by done. lra.
  - rewrite (fl_pos_eq x), (fl_pos_eq y) by done. by apply roundPos_mono.
  - rewrite (fl_zero x) by done. pose proof (fl_sign_pos y Hy). lra.
  - rewrite (fl_zero x), (fl_zero y) by done. lra.
Qed.

Lemma fl_nonneg x : (0 <= x)%Q → (0 <= fl x)%Q.
Proof. intros H. change 0%Q with (fl 0) at 1. by apply fl_mono. Qed.

Lemma fl_idem x : fl (fl x) = fl x.
Proof.
  assert (fl (fl x) == fl x)%Q as E.
  { destruct (Q_dec x 0) as [[Hx|Hx]|Hx].
    - pose proof (fl_sign_neg x Hx) as Hf. rewrite (fl_neg_eq (fl x)) by done.
      rewrite (roundPos_proper (- fl x) (roundPos (- x))).
      + rewrite roundPos_idem by lra. by rewrite <- fl_neg_eq.
      + lra.
      + rewrite fl_neg_eq by done. ring.
    - pose proof (fl_sign_pos x Hx) as Hf. rewrite (fl_pos_eq (fl x)) by done.
      rewrite (roundPos_proper (fl x) (roundPos x)); [|done|by apply fl_pos_eq].
      rewrite roundPos_idem by done. by rewrite <- fl_pos_eq.
    - by rewrite (fl_zero x). }
  assert (∀ z, Qred (fl z) = fl z) as Hcanon.
  { intros z. unfold fl. destruct (Qnum (Qred z)); [done|apply Qred_complete, Qred_correct..]. }
  transitivity (Qred (fl (fl x))); [symmetry; apply Hcanon|].
  transitivity (Qred (fl x)); [by apply Qred_complete|apply Hcanon].
Qed.

(** The constants of [Lit] are the roundings of the literals. *)
Lemma Lit_doubles :
  Lit.d0_299 = fl 0.299 ∧ Lit.d0_587 = fl 0.587 ∧ Lit.d0_114 = fl 0.114 ∧
  Lit.d6_5025 = fl 6.5025 ∧ Lit.d58_5225 = fl 58.5225 ∧
  Lit.d0_08 = fl 0.08 ∧ Lit.d0_15 = fl 0.15 ∧ Lit.d0_30 = fl 0.30 ∧ Lit.d0_4 = fl 0.4 ∧
  Lit.d0_35 = fl 0.35 ∧ Lit.d0_55 = fl 0.55 ∧ (fl 2.5 == 2.5)%Q.
Proof. repeat split; vm_compute; reflexivity. Qed.

Lemma fl_double x : (fl (2 * x) == 2 * fl x)%Q.
Proof.
  destruct (Q_dec x 0) as [[Hx|Hx]|Hx].
  - rewrite (fl_neg_eq x), (fl_neg_eq (2 * x)) by lra.
    rewrite (roundPos_proper (- (2 * x)) (2 * - x)); [|lra|ring].
    rewrite roundPos_double by lra. ring.
  - rewrite (fl_pos_eq x), (fl_pos_eq (2 * x)) by lra. by apply roundPos_double.
  - rewrite (fl_zero x), (fl_zero (2 * x)) by (rewrite ?Hx; done). done.
Qed.

Lemma rne_half q :
  (inject_Z (rne q) - q <= 1 # 2)%Q ∧ (q - inject_Z (rne q) <= 1 # 2)%Q.
Proof.
  unfold rne. pose proof (Qfloor_le q) as G1. pose proof (Qlt_floor q) as G2.
  rewrite inject_Z_plus in G2. change (inject_Z 1) with 1%Q in G2.
  destruct (Qltb (q - inject_Z (Qfloor q)) (1 # 2)) eqn:E1.
  { apply Qltb_lt in E1. split; lra. }
  apply Qltb_ge in E1.
  destruct (Qltb (1 # 2) (q - inject_Z (Qfloor q))) eqn:E2.
  { apply Qltb_lt in E2. rewrite inject_Z_plus. change (inject_Z 1) with 1%Q. split; lra. }
  apply Qltb_ge in E2.
  destruct (Z.even (Qfloor q)).
  - split; lra.
  - rewrite inject_Z_plus. change (inject_Z 1) with 1%Q. split; lra.
Qed.

Lemma roundPos_err x :
  (0 < x)%Q → (x - roundPos x <= x * ulp53)%Q ∧ (roundPos x - x <= x * ulp53)%Q.
Proof.
  intros Hx. destruct (expo_spec x Hx) as [H1 _].
  unfold roundPos. set (e := expo x) in *.
  set (M := (x * pow2 (52 - e))%Q).
  destruct (rne_half M) as [R1 R2].
  pose proof (pow2_pos (e - 52)) as HS.
  assert (M * pow2 (e - 52) == x)%Q as EM.
  { unfold M. rewrite <- Qmult_assoc, <- pow2_plus.
    replace (52 - e + (e - 52))%Z with 0%Z by lia. change (pow2 0) with 1%Q. ring. }
  assert ((1 # 2) * pow2 (e - 52) == pow2 e * ulp53)%Q as EU.
  { change ulp53 with (pow2 (-53)). change (1 # 2)%Q with (pow2 (-1)).
    rewrite <- !pow2_plus. by replace (-1 + (e - 52))%Z with (e + -53)%Z by lia. }
  assert (pow2 e * ulp53 <= x * ulp53)%Q as HU.
  { apply Qmult_le_compat_r; [done|]. by vm_compute. }
  assert ((inject_Z (rne M) - M) * pow2 (e - 52) <= (1 # 2) * pow2 (e - 52))%Q as A1
    by (apply Qmult_le_compat_r; lra).
  assert ((M - inject_Z (rne M)) * pow2 (e - 52) <= (1 # 2) * pow2 (e - 52))%Q as A2
    by (apply Qmult_le_compat_r; lra).
  set (R := inject_Z (rne M)) in *.
  assert ((R - M) * pow2 (e - 52) == R * pow2 (e - 52) - x)%Q as E1
    by (rewrite <- EM; ring).
  assert ((M - R) * pow2 (e - 52) == x - R * pow2 (e - 52))%Q as E2
    by (rewrite <- EM; ring).
  split; lra.
Qed.

(** The relative error of one rounding is at most 2^-53. *)
Lemma fl_rel x :
  (0 <= x)%Q → (x * (1 - ulp53) <= fl x)%Q ∧ (fl x <= x * (1 + ulp53))%Q.
Proof.
  intros Hx. destruct (Qle_lt_or_eq _ _ Hx) as [Hpos|Hz].
  - rewrite (fl_pos_eq x Hpos). destruct (roundPos_err x Hpos). split; lra.
  - rewrite (fl_zero x) by done. rewrite <- Hz. split; lra.
Qed.


(** sortNum *)
Lemma insertNum_Permutation x l : insertNum x l ≡ₚ x :: l.
Proof.
  induction l as [|y l IH]; simpl; [done|].
  destruct (Qle_bool x y); [done|].
  rewrite IH. apply Permutation_swap.
Qed.

Lemma sortNum_Permutation l : sortNum l ≡ₚ l.
Proof.
  induction l as [|x l IH]; simpl; [done|].
  rewrite insertNum_Permutation. by rewrite IH.
Qed.

Lemma sortNum_length l : length (sortNum l) = length l.
Proof. by rewrite sortNum_Permutation. Qed.

Lemma insertNum_sorted x l :
  StronglySorted Qle l → StronglySorted Qle (insertNum x l).
Proof.
  induction 1 as [|y l Hs IH Hall]; simpl.
  - repeat constructor.
  - destruct (Qle_bool x y) eqn:E.
    + apply Qle_bool_iff in E. constructor; [by constructor|].
      constructor; [done|].
      eapply Forall_impl; [exact Hall|]. intros z Hz. by eapply Qle_trans.
    + constructor; [done|].
      rewrite insertNum_Permutation. constructor; [|done].
      apply Qlt_le_weak, Qnot_le_lt. intros H. apply Qle_bool_iff in H. congruence.
Qed.

Lemma sortNum_sorted l : StronglySorted Qle (sortNum l).
Proof.
  induction l as [|x l IH]; simpl; [constructor|]. by apply insertNum_sorted.
Qed.


Lemma countIf_Permutation p l1 l2 : l1 ≡ₚ l2 → countIf p l1 = countIf p l2.
Proof. induction 1; simpl; lia. Qed.

Lemma countIf_mono (p q : Q → bool) l :
  (∀ x, p x = true → q x = true) → countIf p l ≤ countIf q l.
Proof.
  intros H. induction l as [|x l IH]; simpl; [lia|].
  specialize (H x). destruct (p x), (q x); lia.
Qed.

Lemma sorted_rank (s : list Q) (k : nat) :
  StronglySorted Qle s → k < length s →
  countIf (λ x, Qltb x (at_ s k)) s ≤ k < countIf (λ x, Qle_bool x (at_ s k)) s.
Proof.
  intros Hs. revert k. induction Hs as [|a s Hs IH Hall]; intros k Hk; simpl in *.
  { lia. }
  destruct k as [|k]; unfold at_; simpl.
  - assert (Qltb a a = false) as -> by (apply Qltb_ge, Qle_refl).
    assert (Qle_bool a a = true) as -> by (apply Qle_bool_iff, Qle_refl).
    split; [|lia]. 
    assert (countIf (λ x, Qltb x a) s = 0) as ->; [|lia].
    clear -Hall. induction Hall as [|b s Hb _ IH]; simpl; [done|].
    apply Qltb_ge in Hb. rewrite Hb, IH. done.
  - assert (k < length s) as Hk' by lia.
    specialize (IH k Hk'). unfold at_ in IH.
    assert (a <= nth k s 0%Q)%Q as Ha.
    { rewrite Forall_forall in Hall. apply Hall, list_elem_of_In, nth_In. lia. }
    apply Qle_bool_iff in Ha. rewrite Ha.
    destruct (Qltb a (nth k s 0%Q)); lia.
Qed.

Lemma sorted_perm_nth (s1 s2 : list Q) (k : nat) :
  StronglySorted Qle s1 → StronglySorted Qle s2 → s1 ≡ₚ s2 →
  (at_ s1 k == at_ s2 k)%Q.
Proof.
  intros H1 H2 Hp.
  destruct (decide (k < length s1)) as [Hk|Hk].
  2:{ unfold at_. rewrite !nth_overflow; [done| |]; [rewrite <- Hp|]; lia. }
  assert (k < length s2) as Hk2 by (by rewrite <- Hp).
  pose proof (sorted_rank s1 k H1 Hk) as [A1 B1].
  pose proof (sorted_rank s2 k H2 Hk2) as [A2 B2].
  rewrite (countIf_Permutation _ _ _ Hp) in A1. rewrite (countIf_Permutation _ _ _ Hp) in B1.
  apply Qle_antisym; apply Qnot_lt_le; intros Hlt.
  - (* at_ s2 k < at_ s1 k *)
    enough (countIf (λ x, Qle_bool x (at_ s2 k)) s2 ≤ countIf (λ x, Qltb x (at_ s1 k)) s2) by lia.
    apply countIf_mono. intros x Hx. apply Qle_bool_iff in Hx. apply Qltb_lt.
    by eapply Qle_lt_trans.
  - enough (countIf (λ x, Qle_bool x (at_ s1 k)) s2 ≤ countIf (λ x, Qltb x (at_ s2 k)) s2) by lia.
    apply countIf_mono. intros x Hx. apply Qle_bool_iff in Hx. apply Qltb_lt.
    by eapply Qle_lt_trans.
Qed.

Lemma sorted_at_mono (s : list Q) (i j : nat) :
  StronglySorted Qle s → i ≤ j → j < length s → (at_ s i <= at_ s j)%Q.
Proof.
  intros Hs. revert i j. induction Hs as [|a s Hs IH Hall]; intros i j Hij Hj; simpl in *.
  { lia. }
  unfold at_ in *. destruct i as [|i], j as [|j]; simpl; try lia.
  - apply Qle_refl.
  - rewrite Forall_forall in Hall. apply Hall, list_elem_of_In, nth_In. lia.
  - apply IH; lia.
Qed.

(** ** The anomaly map *)

Lemma getAnomalies_pushAnomaly (m : gmap nat (list Anomaly)) i a j :
  getAnomalies (pushAnomaly m i a) j
  = if decide (i = j) then getAnomalies m i ++ [a] else getAnomalies m j.
Proof.
  unfold pushAnomaly, getAnomalies at 1. rewrite lookup_insert.
  by destruct (decide (i = j)).
Qed.

Lemma getAnomalies_pushAll (m : gmap nat (list Anomaly)) i new j :
  getAnomalies (pushAll m i new) j
  = if decide (i = j) then getAnomalies m i ++ new else getAnomalies m j.
Proof.
  unfold pushAll. revert m. induction new as [|a new IH]; intros m; simpl.
  - destruct (decide (i = j)) as [->|]; [by rewrite app_nil_r|done].
  - rewrite IH, !getAnomalies_pushAnomaly.
    destruct (decide (i = j)); [|done].
    rewrite decide_True by done. by rewrite <- app_assoc.
Qed.

Lemma pushAll_app (m : gmap nat (list Anomaly)) i l1 l2 :
  pushAll (pushAll m i l1) i l2 = pushAll m i (l1 ++ l2).
Proof. unfold pushAll. by rewrite foldl_app. Qed.

Lemma foldl_pointwise {A B} (f g : A → B → A) (l : list B) (a : A) :
  (∀ a x, f a x = g a x) → foldl f a l = foldl g a l.
Proof.
  intros H. revert a. induction l as [|x l IH]; intros a; simpl; [done|].
  by rewrite H, IH.
Qed.


Lemma entriesNonEmpty_dom m i :
  entriesNonEmpty m → i ∈ dom m ↔ getAnomalies m i ≠ [].
Proof.
  intros Hm. rewrite elem_of_dom. unfold getAnomalies. split.
  - intros [l Hl]. rewrite Hl. simpl. by eapply Hm.
  - destruct (m !! i); [eauto|done].
Qed.

Lemma entriesNonEmpty_pushAnomaly m i a :
  entriesNonEmpty m → entriesNonEmpty (pushAnomaly m i a).
Proof.
  intros Hm j l. unfold pushAnomaly. rewrite lookup_insert.
  destruct (decide (i = j)); [|by apply Hm].
  intros [= <-]. by destruct (getAnomalies m i).
Qed.

Lemma entriesNonEmpty_pushAll m i new :
  entriesNonEmpty m → entriesNonEmpty (pushAll m i new).
Proof.
  unfold pushAll. revert m. induction new as [|a new IH]; intros m Hm; simpl; [done|].
  by apply IH, entriesNonEmpty_pushAnomaly.
Qed.

Lemma entriesNonEmpty_foldl {A} (step : gmap nat (list Anomaly) → A → gmap nat (list Anomaly))
    (xs : list A) m :
  (∀ m x, entriesNonEmpty m → entriesNonEmpty (step m x)) →
  entriesNonEmpty m → entriesNonEmpty (foldl step m xs).
Proof.
  intros Hstep. revert m. induction xs as [|x xs IH]; intros m Hm; simpl; [done|].
  by apply IH, Hstep.
Qed.

(** A pass that visits distinct indices and pushes, at each, anomalies that
    depend on the entry found there. *)
Lemma foldl_pushAll_get (g : list Anomaly → nat → list Anomaly) (xs : list nat)
    (m : gmap nat (list Anomaly)) (j : nat) :
  NoDup xs →
  getAnomalies (foldl (λ m i, pushAll m i (g (getAnomalies m i) i)) m xs) j
  = getAnomalies m j ++ (if decide (j ∈ xs) then g (getAnomalies m j) j else []).
Proof.
  intros Hnd. revert m. induction Hnd as [|i xs Hi Hnd IH]; intros m; cbn [foldl].
  - rewrite (decide_False (P := j ∈ [])) by apply not_elem_of_nil. by rewrite app_nil_r.
  - rewrite IH, !getAnomalies_pushAll.
    destruct (decide (i = j)) as [->|Hij].
    + rewrite (decide_False (P := j ∈ xs)) by done.
      rewrite (decide_True (P := j ∈ j :: xs)) by apply list_elem_of_here.
      by rewrite app_nil_r.
    + destruct (decide (j ∈ xs)) as [Hj|Hj].
      * rewrite (decide_True (P := j ∈ i :: xs)) by (by apply list_elem_of_further). done.
      * rewrite (decide_False (P := j ∈ i :: xs)); [done|]. rewrite elem_of_cons. by intros [?|?].
Qed.


Lemma selfIndexed_snoc_inv {A} (key : A → nat) xs x :
  selfIndexed key (xs ++ [x]) → selfIndexed key xs ∧ key x = length xs.
Proof.
  intros H. split.
  - intros i y Hy. apply H. by apply lookup_app_l_Some.
  - apply H. by rewrite lookup_app_r, Nat.sub_diag.
Qed.

Lemma foldl_keyed_pushAll_get {A} (key : A → nat) (g : A → list Anomaly) (xs : list A)
    (m : gmap nat (list Anomaly)) (j : nat) :
  selfIndexed key xs →
  getAnomalies (foldl (λ m x, pushAll m (key x) (g x)) m xs) j
  = getAnomalies m j ++ from_option g [] (xs !! j).
Proof.
  revert j. induction xs as [|x xs IH] using rev_ind; intros j Hk; simpl.
  - by rewrite app_nil_r.
  - apply selfIndexed_snoc_inv in Hk as [Hk Hx].
    rewrite foldl_app. simpl. rewrite getAnomalies_pushAll, !IH by done.
    destruct (decide (key x = j)) as [<-|Hj].
    + rewrite Hx, lookup_app_r, Nat.sub_diag by done. simpl.
      rewrite (lookup_ge_None_2 xs) by done. simpl. by rewrite app_nil_r.
    + destruct (decide (j < length xs)).
      * by rewrite lookup_app_l.
      * rewrite (lookup_ge_None_2 (xs ++ [x])), (lookup_ge_None_2 xs); [done|lia|].
        rewrite length_app. simpl. lia.
Qed.

Lemma foldl_keyed_set_get {A} (key : A → nat) (g : A → list Anomaly) (xs : list A) (j : nat) :
  selfIndexed key xs →
  getAnomalies (foldl (λ m x, if 0 <? length (g x) then <[key x := g x]> m else m) ∅ xs) j
  = from_option g [] (xs !! j).
Proof.
  revert j. induction xs as [|x xs IH] using rev_ind; intros j Hk; simpl.
  - done.
  - apply selfIndexed_snoc_inv in Hk as [Hk Hx].
    rewrite foldl_app. simpl.
    assert (getAnomalies (if 0 <? length (g x)
              then <[key x := g x]> (foldl (λ m x, if 0 <? length (g x) then <[key x := g x]> m else m) ∅ xs)
              else foldl (λ m x, if 0 <? length (g x) then <[key x := g x]> m else m) ∅ xs) j
            = if decide (key x = j) then g x else from_option g [] (xs !! j)) as ->.
    { destruct (decide (key x = j)) as [<-|Hj].
      - destruct (g x) as [|a l] eqn:Hg; simpl.
        + rewrite IH by done. rewrite Hx, lookup_ge_None_2 by done. done.
        + unfold getAnomalies. by rewrite lookup_insert_eq.
      - destruct (0 <? length (g x)); [|by apply IH].
        unfold getAnomalies at 1. rewrite lookup_insert_ne by done. by apply IH. }
    destruct (decide (key x = j)) as [<-|Hj].
    + by rewrite Hx, lookup_app_r, Nat.sub_diag.
    + destruct (decide (j < length xs)).
      * by rewrite lookup_app_l.
      * rewrite (lookup_ge_None_2 (xs ++ [x])), (lookup_ge_None_2 xs); [done|lia|].
        rewrite length_app. simpl. lia.
Qed.

Lemma analyzeFrames_lookup fs i :
  analyzeFrames fs !! i
  = (λ buf, mkFrameAnalysis i buf (analyzePixels (data buf) (width buf) (height buf)))
    <$> fs !! i.
Proof. unfold analyzeFrames. by rewrite list_lookup_imap. Qed.

Lemma analyzeFrames_selfIndexed fs : selfIndexed fa_index (analyzeFrames fs).
Proof.
  intros i x. rewrite analyzeFrames_lookup.
  destruct (fs !! i); simpl; [|done]. by intros [= <-].
Qed.

Lemma analyzeFrames_length fs : length (analyzeFrames fs) = length fs.
Proof. unfold analyzeFrames. apply length_imap. Qed.

(** ** The four passes, entry by entry *)

Section Detection.

Variable resizeContain : Frame → nat → nat → list Z.
Variable pixelmatch : list Z → list Z → nat → nat → nat.

Lemma method1_get opts stats fa j :
  selfIndexed fa_index fa →
  getAnomalies (method1 opts stats fa ∅) j
  = from_option (histogramAnomalies opts stats) [] (fa !! j).
Proof. intros Hfa. unfold method1. by apply foldl_keyed_set_get. Qed.

Lemma method2_get opts stats fa m j :
  selfIndexed fa_index fa →
  getAnomalies (method2 opts stats fa m) j
  = getAnomalies m j
    ++ from_option (λ frame, opacityAnomaly stats (opacityBounds opts fa) frame
                             ++ haloAnomaly fa frame) [] (fa !! j).
Proof.
  intros Hfa. unfold method2.
  rewrite <- (foldl_keyed_pushAll_get fa_index _ fa m j Hfa).
  f_equal. apply foldl_pointwise. intros m' frame. apply pushAll_app.
Qed.


Lemma interior_seq numFrames j : j ∈ seq 1 (numFrames - 2) ↔ interior numFrames j.
Proof. rewrite elem_of_seq. unfold interior. lia. Qed.

Lemma method3_get opts fs m j :
  getAnomalies (method3 resizeContain opts fs m) j
  = getAnomalies m j
    ++ (if decide (interior (length fs) j)
        then structuralAnomaly opts (adjacentSSIM resizeContain fs) j else []).
Proof.
  unfold method3.
  rewrite (foldl_pushAll_get (λ _ i, structuralAnomaly opts (adjacentSSIM resizeContain fs) i))
    by apply NoDup_seq.
  f_equal. by apply decide_ext, interior_seq.
Qed.

Lemma method4_get opts fs m j :
  getAnomalies (method4 resizeContain pixelmatch opts fs m) j
  = getAnomalies m j
    ++ (if decide (interior (length fs) j)
        then pixelAnomaly opts (consecutiveDiffs resizeContain pixelmatch fs)
                          (getAnomalies m j) j
        else []).
Proof.
  unfold method4.
  rewrite (foldl_pushAll_get
             (pixelAnomaly opts (consecutiveDiffs resizeContain pixelmatch fs)))
    by apply NoDup_seq.
  f_equal. by apply decide_ext, interior_seq.
Qed.

Lemma method1_nonEmpty opts stats fa m :
  entriesNonEmpty m → entriesNonEmpty (method1 opts stats fa m).
Proof.
  apply entriesNonEmpty_foldl. clear m. intros m frame Hm.
  destruct (histogramAnomalies opts stats frame) as [|a l] eqn:E; simpl; [done|].
  intros i l'. rewrite lookup_insert. destruct (decide (fa_index frame = i)); [|by apply Hm].
  by intros [= <-].
Qed.

Lemma method2_nonEmpty opts stats fa m :
  entriesNonEmpty m → entriesNonEmpty (method2 opts stats fa m).
Proof.
  apply entriesNonEmpty_foldl. clear m. intros m frame Hm.
  by do 2 apply entriesNonEmpty_pushAll.
Qed.

Lemma method3_nonEmpty opts fs m :
  entriesNonEmpty m → entriesNonEmpty (method3 resizeContain opts fs m).
Proof.
  apply entriesNonEmpty_foldl. clear m. intros m i Hm. by apply entriesNonEmpty_pushAll.
Qed.

Lemma method4_nonEmpty opts fs m :
  entriesNonEmpty m → entriesNonEmpty (method4 resizeContain pixelmatch opts fs m).
Proof.
  apply entriesNonEmpty_foldl. clear m. intros m i Hm. by apply entriesNonEmpty_pushAll.
Qed.

Lemma detectAnomalies_nonEmpty fs opts :
  entriesNonEmpty (detectAnomalies resizeContain pixelmatch fs opts).
Proof.
  unfold detectAnomalies.
  apply method4_nonEmpty, method3_nonEmpty, method2_nonEmpty, method1_nonEmpty.
  intros i l. by rewrite lookup_empty.
Qed.

(** Where the anomalies of a frame come from. *)
Lemma detectAnomalies_elem fs opts j a :
  a ∈ getAnomalies (detectAnomalies resizeContain pixelmatch fs opts) j ↔
  (∃ frame, analyzeFrames fs !! j = Some frame ∧
     (a ∈ histogramAnomalies opts (calculateMedianStats (analyzeFrames fs)) frame
      ∨ a ∈ opacityAnomaly (calculateMedianStats (analyzeFrames fs))
                           (opacityBounds opts (analyzeFrames fs)) frame
      ∨ a ∈ haloAnomaly (analyzeFrames fs) frame))
  ∨ (interior (length fs) j ∧
     a ∈ structuralAnomaly opts (adjacentSSIM resizeContain fs) j)
  ∨ (interior (length fs) j ∧
     a ∈ pixelAnomaly opts (consecutiveDiffs resizeContain pixelmatch fs)
           (getAnomalies (method3 resizeContain opts fs
              (method2 opts (calculateMedianStats (analyzeFrames fs)) (analyzeFrames fs)
                 (method1 opts (calculateMedianStats (analyzeFrames fs))
                          (analyzeFrames fs) ∅))) j) j).
Proof.
  unfold detectAnomalies.
  rewrite method4_get. rewrite elem_of_app.
  rewrite method3_get at 1. rewrite elem_of_app.
  rewrite method2_get, method1_get by apply analyzeFrames_selfIndexed.
  rewrite elem_of_app.
  destruct (analyzeFrames fs !! j) as [frame|]; simpl.
  - rewrite elem_of_app.
    destruct (decide (interior (length fs) j)) as [Hi|Hi].
    + split.
      * intros [[[?|[?|?]]|?]|?]; eauto 10.
      * intros [(frame' & [= <-] & [?|[?|?]])|[[_ ?]|[_ ?]]]; eauto 10.
    + split.
      * intros [[[?|[?|?]]|H]|H]; eauto 10; by apply elem_of_nil in H.
      * intros [(frame' & [= <-] & [?|[?|?]])|[[? ?]|[? ?]]]; eauto 10; done.
  - destruct (decide (interior (length fs) j)) as [Hi|Hi].
    + split.
      * intros [[[H|H]|?]|?]; eauto 10; by apply elem_of_nil in H.
      * intros [(frame' & [=] & _)|[[_ ?]|[_ ?]]]; eauto 10.
    + split.
      * intros [[[H|H]|H]|H]; by apply elem_of_nil in H.
      * intros [(frame' & [=] & _)|[[? ?]|[? ?]]]; done.
Qed.

Lemma detectAnomalies_keys fs opts j :
  j ∈ dom (detectAnomalies resizeContain pixelmatch fs opts) → j < length fs.
Proof.
  rewrite entriesNonEmpty_dom by apply detectAnomalies_nonEmpty.
  intros Hne.
  destruct (getAnomalies (detectAnomalies resizeContain pixelmatch fs opts) j) as [|a l] eqn:E;
    [done|].
  assert (a ∈ getAnomalies (detectAnomalies resizeContain pixelmatch fs opts) j) as Ha
    by (rewrite E; apply list_elem_of_here).
  apply detectAnomalies_elem in Ha as [(frame & Hf & _)|[[[? ?] _]|[[? ?] _]]]; [|lia..].
  apply lookup_lt_Some in Hf. by rewrite analyzeFrames_length in Hf.
Qed.

End Detection.

(** ** The replacement resolver *)

Lemma earlier_test bad i d :
  (d <=? i) && negb (bool_decide (i - d ∈ bad)) = true ↔ earlierGood bad i d.
Proof.
  unfold earlierGood.
  rewrite andb_true_iff, Nat.leb_le, negb_true_iff, bool_decide_eq_false. done.
Qed.

Lemma later_test numFrames bad i d :
  (i + d <? numFrames) && negb (bool_decide (i + d ∈ bad)) = true
  ↔ laterGood numFrames bad i d.
Proof.
  unfold laterGood.
  rewrite andb_true_iff, Nat.ltb_lt, negb_true_iff, bool_decide_eq_false. done.
Qed.

(** The loop either runs through, or leaves at the first distance of the
    list that has a good frame, the earlier frame first. *)
Lemma searchOutward_cases numFrames bad i dists r :
  (searchOutward numFrames bad i dists r = r ∧
   ∀ d, d ∈ dists → ¬ earlierGood bad i d ∧ ¬ laterGood numFrames bad i d)
  ∨ ∃ pre d post,
      dists = pre ++ d :: post ∧
      (∀ d', d' ∈ pre → ¬ earlierGood bad i d' ∧ ¬ laterGood numFrames bad i d') ∧
      ((earlierGood bad i d ∧ searchOutward numFrames bad i dists r = i - d)
       ∨ (¬ earlierGood bad i d ∧ laterGood numFrames bad i d ∧
          searchOutward numFrames bad i dists r = i + d)).
Proof.
  induction dists as [|d dists IH]; simpl.
  - left. split; [done|]. intros d Hd. by apply elem_of_nil in Hd.
  - destruct ((d <=? i) && negb (bool_decide (i - d ∈ bad))) eqn:E1.
    { apply earlier_test in E1. right. exists [], d, dists.
      split; [done|]. split; [|by left].
      intros d' Hd'. by apply elem_of_nil in Hd'. }
    assert (¬ earlierGood bad i d) as N1
      by (rewrite <- earlier_test; congruence).
    destruct ((i + d <? numFrames) && negb (bool_decide (i + d ∈ bad))) eqn:E2.
    { apply later_test in E2. right. exists [], d, dists.
      split; [done|]. split; [|by right].
      intros d' Hd'. by apply elem_of_nil in Hd'. }
    assert (¬ laterGood numFrames bad i d) as N2
      by (rewrite <- later_test; congruence).
    destruct IH as [[Hr Hall]|(pre & d0 & post & -> & Hpre & Hd0)].
    + left. split; [done|]. intros d' [->|Hd']%elem_of_cons; [done|by apply Hall].
    + right. exists (d :: pre), d0, post. split; [done|]. split; [|done].
      intros d' [->|Hd']%elem_of_cons; [done|by apply Hpre].
Qed.

Lemma seq_split_at a n pre d post :
  seq a n = pre ++ d :: post → pre = seq a (d - a) ∧ a ≤ d < a + n.
Proof.
  intros H.
  assert (seq a n !! length pre = Some d) as Hd
    by (rewrite H; by apply list_lookup_middle).
  apply lookup_seq in Hd as [-> Hlt].
  split; [|lia].
  replace (a + length pre - a) with (length pre) by lia.
  transitivity (take (length pre) (seq a n)).
  { rewrite H. by rewrite take_app_length. }
  rewrite take_seq. f_equal. lia.
Qed.

(** The replacement as a function of the distances that hold a good frame:
    the least distance wins, the earlier frame before the later one. *)
Lemma resolveReplacement_nearest numFrames bad i d :
  i < numFrames → 1 ≤ d → noneWithin numFrames bad i d →
  (earlierGood bad i d → resolveReplacement numFrames bad i = i - d) ∧
  (¬ earlierGood bad i d → laterGood numFrames bad i d →
   resolveReplacement numFrames bad i = i + d).
Proof.
  intros Hi Hd Hnone. unfold resolveReplacement.
  destruct ((0 <? i) && negb (bool_decide (i - 1 ∈ bad))) eqn:E1.
  { assert (earlierGood bad i 1) as G1.
    { apply earlier_test. by destruct i. }
    destruct (decide (d = 1)) as [->|Hne]; [by split|].
    destruct (Hnone 1) as [N _]; [lia|done]. }
  assert (¬ earlierGood bad i 1) as N1.
  { rewrite <- earlier_test. destruct i; simpl in *; congruence. }
  destruct ((i <? numFrames - 1) && negb (bool_decide (i + 1 ∈ bad))) eqn:E2.
  { assert (laterGood numFrames bad i 1) as G1.
    { unfold laterGood. apply andb_true_iff in E2 as [E2 E3].
      apply Nat.ltb_lt in E2. apply negb_true_iff, bool_decide_eq_false in E3.
      split; [lia|done]. }
    destruct (decide (d = 1)) as [->|Hne]; [by split|].
    destruct (Hnone 1) as [_ N]; [lia|done]. }
  assert (¬ laterGood numFrames bad i 1) as N2.
  { unfold laterGood. intros [G1 G2]. apply andb_false_iff in E2 as [E2|E2].
    - apply Nat.ltb_ge in E2. lia.
    - apply negb_false_iff, bool_decide_eq_true in E2. done. }
  destruct (decide (d = 1)) as [->|Hne]; [by split|].
  destruct (searchOutward_cases numFrames bad i (seq 2 (numFrames - 2))
              (if 0 <? i then i - 1 else i + 1))
    as [[_ Hall]|(pre & d0 & post & Hsplit & Hpre & Hd0)].
  - (* the loop found nothing: distance [d] holds no good frame *)
    split.
    + intros G. destruct (Hall d) as [N _]; [|done].
      apply elem_of_seq. destruct G. lia.
    + intros _ G. destruct (Hall d) as [_ N]; [|done].
      apply elem_of_seq. destruct G. lia.
  - apply seq_split_at in Hsplit as [-> Hrange].
    assert (¬ d0 < d) as Hnlt.
    { intros Hlt. destruct (Hnone d0) as [Na Nb]; [lia|].
      by destruct Hd0 as [[? _]|(_ & ? & _)]. }
    assert (d < d0 → ¬ earlierGood bad i d ∧ ¬ laterGood numFrames bad i d) as Hbefore.
    { intros Hlt. apply Hpre, elem_of_seq. lia. }
    split.
    + intros G. destruct (decide (d < d0)) as [Hlt|Hge].
      { by destruct (Hbefore Hlt). }
      assert (d0 = d) as -> by lia.
      by destruct Hd0 as [[_ ->]|(N & _)].
    + intros NG G. destruct (decide (d < d0)) as [Hlt|Hge].
      { by destruct (Hbefore Hlt). }
      assert (d0 = d) as -> by lia.
      by destruct Hd0 as [[G' _]|(_ & _ & ->)].
Qed.

Lemma resolveReplacement_cases numFrames bad i :
  i < numFrames →
  (resolveReplacement numFrames bad i = (if 0 <? i then i - 1 else i + 1) ∧
   ∀ d, 1 ≤ d → ¬ earlierGood bad i d ∧ ¬ laterGood numFrames bad i d)
  ∨ ∃ d, 1 ≤ d ∧
      ((earlierGood bad i d ∧ resolveReplacement numFrames bad i = i - d)
       ∨ (laterGood numFrames bad i d ∧ resolveReplacement numFrames bad i = i + d)).
Proof.
  intros Hi. unfold resolveReplacement.
  destruct ((0 <? i) && negb (bool_decide (i - 1 ∈ bad))) eqn:E1.
  { right. exists 1. split; [done|]. left. split; [|done].
    apply earlier_test. by destruct i. }
  assert (¬ earlierGood bad i 1) as N1.
  { rewrite <- earlier_test. destruct i; simpl in *; congruence. }
  destruct ((i <? numFrames - 1) && negb (bool_decide (i + 1 ∈ bad))) eqn:E2.
  { right. exists 1. split; [done|]. right. split; [|done].
    unfold laterGood. apply andb_true_iff in E2 as [E2 E3].
    apply Nat.ltb_lt in E2. apply negb_true_iff, bool_decide_eq_false in E3.
    split; [lia|done]. }
  assert (¬ laterGood numFrames bad i 1) as N2.
  { unfold laterGood. intros [G1 G2]. apply andb_false_iff in E2 as [E2|E2].
    - apply Nat.ltb_ge in E2. lia.
    - apply negb_false_iff, bool_decide_eq_true in E2. done. }
  destruct (searchOutward_cases numFrames bad i (seq 2 (numFrames - 2))
              (if 0 <? i then i - 1 else i + 1))
    as [[Hr Hall]|(pre & d0 & post & Hsplit & Hpre & Hd0)].
  - left. split; [done|]. intros d Hd.
    destruct (decide (d = 1)) as [->|Hne]; [done|].
    destruct (decide (d < numFrames)) as [Hlt|Hge].
    + apply Hall, elem_of_seq. lia.
    + unfold earlierGood, laterGood. lia.
  - right. exists d0. apply seq_split_at in Hsplit as [_ Hrange].
    split; [lia|]. destruct Hd0 as [[? ?]|(_ & ? & ?)]; eauto.
Qed.

Lemma resolveReplacement_ne numFrames bad i :
  i < numFrames → resolveReplacement numFrames bad i ≠ i.
Proof.
  intros Hi.
  destruct (resolveReplacement_cases numFrames bad i Hi)
    as [[-> _]|(d & Hd & [[[? ?] ->]|[[? ?] ->]])]; [|lia..].
  destruct i; simpl; lia.
Qed.

Lemma resolveReplacement_lt numFrames bad i :
  2 ≤ numFrames → i < numFrames → resolveReplacement numFrames bad i < numFrames.
Proof.
  intros HN Hi.
  destruct (resolveReplacement_cases numFrames bad i Hi)
    as [[-> _]|(d & Hd & [[[? ?] ->]|[[? ?] ->]])]; [|lia..].
  destruct i; simpl; lia.
Qed.

Lemma resolveReplacement_good numFrames bad i g :
  i < numFrames → i ∈ bad → g < numFrames → g ∉ bad →
  resolveReplacement numFrames bad i ∉ bad.
Proof.
  intros Hi Hbad Hg Hgood.
  destruct (resolveReplacement_cases numFrames bad i Hi)
    as [[_ Hnone]|(d & Hd & [[[? ?] ->]|[[? ?] ->]])]; [|done..].
  exfalso.
  assert (g ≠ i) as Hne by (intros ->; done).
  destruct (decide (g < i)).
  - destruct (Hnone (i - g)) as [N _]; [lia|]. apply N. split; [lia|].
    by replace (i - (i - g)) with g by lia.
  - destruct (Hnone (g - i)) as [_ N]; [lia|]. apply N. split.
    + lia.
    + by replace (i + (g - i)) with g by lia.
Qed.

Lemma resolveReplacement_all_bad numFrames bad i :
  i < numFrames → (∀ g, g < numFrames → g ∈ bad) →
  resolveReplacement numFrames bad i = if 0 <? i then i - 1 else i + 1.
Proof.
  intros Hi Hall.
  destruct (resolveReplacement_cases numFrames bad i Hi)
    as [[-> _]|(d & Hd & [[[? G] _]|[[? G] _]])]; [done|..];
    exfalso; apply G, Hall; lia.
Qed.

(** ** The list of bad-frame records *)

Lemma insertByIndex_Permutation b l : insertByIndex b l ≡ₚ b :: l.
Proof.
  induction l as [|c l IH]; simpl; [done|].
  destruct (bf_index b <=? bf_index c); [done|].
  rewrite IH. apply Permutation_swap.
Qed.

Lemma sortByIndex_Permutation l : sortByIndex l ≡ₚ l.
Proof.
  induction l as [|b l IH]; simpl; [done|].
  rewrite insertByIndex_Permutation. by rewrite IH.
Qed.

Lemma elem_of_buildBadFrames numFrames (m : gmap nat (list Anomaly)) rec :
  rec ∈ buildBadFrames numFrames m ↔
  ∃ i reasons, m !! i = Some reasons ∧
    rec = mkBadFrame i reasons (resolveReplacement numFrames (dom m) i)
                     (aggregateSeverity reasons).
Proof.
  unfold buildBadFrames. rewrite sortByIndex_Permutation, list_elem_of_fmap.
  split.
  - intros ([i reasons] & -> & Hin). apply elem_of_map_to_list in Hin. eauto.
  - intros (i & reasons & Hm & ->). exists (i, reasons). split; [done|].
    by apply elem_of_map_to_list.
Qed.

Lemma buildBadFrames_indices numFrames (m : gmap nat (list Anomaly)) :
  list_to_set (bf_index <$> buildBadFrames numFrames m) = dom m.
Proof.
  apply set_eq. intros i.
  rewrite elem_of_list_to_set, list_elem_of_fmap, elem_of_dom. split.
  - intros (rec & -> & Hrec). apply elem_of_buildBadFrames in Hrec as (j & l & Hm & ->).
    simpl. eauto.
  - intros [l Hl]. eexists. split; [|apply elem_of_buildBadFrames; eauto]. done.
Qed.

Lemma buildBadFrames_length numFrames (m : gmap nat (list Anomaly)) :
  length (buildBadFrames numFrames m) = size m.
Proof.
  unfold buildBadFrames.
  rewrite sortByIndex_Permutation, length_fmap. apply length_map_to_list.
Qed.

(** ** replaceBadFrames *)

Lemma replaceBadFrames_total (recs : list BadFrameRecord) (fs : list Frame) :
  (∀ rec, rec ∈ recs → bf_index rec < length fs ∧ bf_replacement rec < length fs) →
  ∃ out, replaceBadFrames fs recs = Some out ∧ length out = length fs ∧
         ∀ f, f ∈ out → f ∈ fs.
Proof.
  unfold replaceBadFrames.
  assert (∀ (cur : list Frame),
            length cur = length fs → (∀ f, f ∈ cur → f ∈ fs) →
            (∀ rec, rec ∈ recs → bf_index rec < length fs ∧ bf_replacement rec < length fs) →
            ∃ out, foldl replaceStep (Some cur) recs = Some out ∧ length out = length fs ∧
                   ∀ f, f ∈ out → f ∈ fs) as Hgen.
  { induction recs as [|rec recs IH]; intros cur Hlen Hsub Hin; simpl.
    - eauto.
    - destruct (Hin rec) as [Hi Hr]; [apply list_elem_of_here|].
      destruct (lookup_lt_is_Some_2 cur (bf_replacement rec)) as [src Hsrc]; [lia|].
      rewrite Hsrc. simpl.
      assert ((bf_index rec <? length cur) = true) as -> by (apply Nat.ltb_lt; lia).
      apply IH.
      + by rewrite length_insert.
      + intros f Hf. apply list_elem_of_lookup in Hf as [k Hk].
        apply list_lookup_insert_Some in Hk as [(_ & <- & _)|[_ Hk]].
        * apply Hsub. by eapply list_elem_of_lookup_2.
        * apply Hsub. by eapply list_elem_of_lookup_2.
      + intros rec' Hrec'. apply Hin. by apply list_elem_of_further. }
  intros Hin. by apply Hgen.
Qed.

(** ** Detection results *)

Section DetectionResults.

Variable resizeContain : Frame → nat → nat → list Z.
Variable pixelmatch : list Z → list Z → nat → nat → nat.

Lemma detectBadFrames_short fs opts :
  length fs < 3 → detectBadFrames resizeContain pixelmatch fs opts = mkDetection [] [].
Proof.
  intros H. unfold detectBadFrames.
  by assert ((length fs <? 3) = true) as -> by (by apply Nat.ltb_lt).
Qed.

Lemma detectBadFrames_long fs opts :
  3 ≤ length fs →
  badFrames (detectBadFrames resizeContain pixelmatch fs opts)
  = buildBadFrames (length fs) (detectAnomalies resizeContain pixelmatch fs opts).
Proof.
  intros H. unfold detectBadFrames.
  by assert ((length fs <? 3) = false) as -> by (apply Nat.ltb_ge; lia).
Qed.

Lemma badSet_detect fs opts :
  3 ≤ length fs →
  badSet (detectBadFrames resizeContain pixelmatch fs opts)
  = dom (detectAnomalies resizeContain pixelmatch fs opts).
Proof.
  intros H. unfold badSet. rewrite detectBadFrames_long by done.
  apply buildBadFrames_indices.
Qed.

(** A record of the result, read back from the anomaly map. *)
Lemma elem_of_detectBadFrames fs opts rec :
  rec ∈ badFrames (detectBadFrames resizeContain pixelmatch fs opts) ↔
  3 ≤ length fs ∧
  ∃ i reasons,
    detectAnomalies resizeContain pixelmatch fs opts !! i = Some reasons ∧
    rec = mkBadFrame i reasons
            (resolveReplacement (length fs)
               (badSet (detectBadFrames resizeContain pixelmatch fs opts)) i)
            (aggregateSeverity reasons).
Proof.
  destruct (decide (3 ≤ length fs)) as [H|H].
  - rewrite badSet_detect, detectBadFrames_long, elem_of_buildBadFrames by done.
    split; [intros (i & l & ? & ?)|intros (_ & i & l & ? & ?)]; eauto.
  - rewrite detectBadFrames_short by lia. simpl. split.
    + intros Hin. by apply elem_of_nil in Hin.
    + intros [? _]. lia.
Qed.


Lemma flagged_detect fs opts j a :
  flagged (detectBadFrames resizeContain pixelmatch fs opts) j a ↔
  3 ≤ length fs ∧ a ∈ getAnomalies (detectAnomalies resizeContain pixelmatch fs opts) j.
Proof.
  unfold flagged. split.
  - intros (rec & Hrec & <- & Ha).
    apply elem_of_detectBadFrames in Hrec as (HN & i & reasons & Hm & ->).
    split; [done|]. simpl in *. unfold getAnomalies. by rewrite Hm.
  - intros [HN Ha]. unfold getAnomalies in Ha.
    destruct (detectAnomalies resizeContain pixelmatch fs opts !! j) as [reasons|] eqn:Hm;
      simpl in Ha; [|by apply elem_of_nil in Ha].
    eexists. split; [apply elem_of_detectBadFrames; eauto|]. done.
Qed.

Lemma detect_records_in_range fs opts rec :
  rec ∈ badFrames (detectBadFrames resizeContain pixelmatch fs opts) →
  bf_index rec < length fs ∧ bf_replacement rec < length fs.
Proof.
  intros Hrec.
  apply elem_of_detectBadFrames in Hrec as (HN & i & reasons & Hm & ->). simpl.
  assert (i < length fs) as Hi
    by (apply (detectAnomalies_keys resizeContain pixelmatch fs opts), elem_of_dom; eauto).
  split; [done|]. apply resolveReplacement_lt; [lia|done].
Qed.

Lemma replaceBadFrames_detect fs opts :
  ∃ out,
    replaceBadFrames fs (badFrames (detectBadFrames resizeContain pixelmatch fs opts))
    = Some out ∧ length out = length fs ∧ ∀ f, f ∈ out → f ∈ fs.
Proof. apply replaceBadFrames_total. intros rec. apply detect_records_in_range. Qed.

End DetectionResults.

(** ** Rasters *)

Lemma flat_map_pointwise {A B} (f g : A → list B) (l : list A) :
  (∀ a, a ∈ l → f a = g a) → flat_map f l = flat_map g l.
Proof.
  induction l as [|a l IH]; intros H; simpl; [done|].
  rewrite H by apply list_elem_of_here. f_equal.
  apply IH. intros b Hb. by apply H, list_elem_of_further.
Qed.

Lemma flat_map_blocks_length {A B} (f : A → list B) (k : nat) (l : list A) :
  (∀ a, length (f a) = k) → length (flat_map f l) = length l * k.
Proof.
  intros Hk. induction l as [|a l IH]; simpl; [done|].
  rewrite length_app, Hk, IH. lia.
Qed.

Lemma flat_map_blocks_nth {A B} (f : A → list B) (k : nat) (l : list A) (i j : nat) (a : A)
    (d : B) :
  (∀ a, length (f a) = k) → j < k → l !! i = Some a →
  nth (i * k + j) (flat_map f l) d = nth j (f a) d.
Proof.
  intros Hk Hj. revert i. induction l as [|b l IH]; intros i Hi; [done|].
  simpl. destruct i as [|i]; simpl in *.
  - injection Hi as ->. apply app_nth1. by rewrite Hk.
  - rewrite app_nth2 by (rewrite Hk; lia).
    rewrite Hk. replace (k + i * k + j - k) with (i * k + j) by lia.
    by apply IH.
Qed.

Lemma raster_length w h px : length (Sharp.raster w h px) = h * w * 4.
Proof.
  unfold Sharp.raster.
  rewrite (flat_map_blocks_length _ (w * 4)).
  - rewrite length_seq. lia.
  - intros y. rewrite (flat_map_blocks_length _ 4) by done. by rewrite length_seq.
Qed.

Lemma raster_nth w h px x y c :
  x < w → y < h → c < 4 →
  byteAt (Sharp.raster w h px) ((y * w + x) * 4 + c) = px x y c.
Proof.
  intros Hx Hy Hc. unfold byteAt, Sharp.raster.
  replace ((y * w + x) * 4 + c) with (y * (w * 4) + (x * 4 + c)) by lia.
  rewrite (flat_map_blocks_nth _ (w * 4) _ y (x * 4 + c) y).
  - rewrite (flat_map_blocks_nth _ 4 _ x c x); [|done|done|].
    + by do 4 (destruct c as [|c]; [done|]); lia.
    + apply lookup_seq. lia.
  - intros y'. rewrite (flat_map_blocks_length _ 4) by done. by rewrite length_seq.
  - lia.
  - apply lookup_seq. lia.
Qed.

Lemma raster_pointwise w h px px' :
  (∀ x y c, x < w → y < h → c < 4 → px x y c = px' x y c) →
  Sharp.raster w h px = Sharp.raster w h px'.
Proof.
  intros H. unfold Sharp.raster.
  apply flat_map_pointwise. intros y Hy%elem_of_seq.
  apply flat_map_pointwise. intros x Hx%elem_of_seq.
  rewrite !H by lia. done.
Qed.

(** ** findContentBounds *)

Lemma contentAt_test data width x y :
  (byteAt data ((y * width + x) * 4 + 3) >? ALPHA_THRESHOLD)%Z = true
  ↔ contentAt data width x y.
Proof. unfold contentAt. rewrite Z.gtb_ltb. apply Z.ltb_lt. Qed.

Lemma Covers_none data width (P : nat → nat → Prop) e :
  (∀ x y, ¬ P x y) → Covers data width P e e.
Proof. intros H. split; try (by left); [|lia]. intros x y HP. by destruct (H x y). Qed.

Lemma Covers_then data width (P Q R : nat → nat → Prop) e0 e1 e2 :
  (∀ x y, R x y ↔ P x y ∨ Q x y) →
  Covers data width P e0 e1 → Covers data width Q e1 e2 → Covers data width R e0 e2.
Proof.
  intros HR [in1 mono1 a1 b1 c1 d1] [in2 mono2 a2 b2 c2 d2]. split.
  - intros x y [HP|HQ]%HR Hc.
    + specialize (in1 x y HP Hc). lia.
    + by apply in2.
  - lia.
  - destruct a2 as [->|(y & ? & ?)]; [|right; exists y; rewrite HR; eauto].
    destruct a1 as [->|(y & ? & ?)]; [by left|right; exists y; rewrite HR; eauto].
  - destruct b2 as [->|(y & ? & ?)]; [|right; exists y; rewrite HR; eauto].
    destruct b1 as [->|(y & ? & ?)]; [by left|right; exists y; rewrite HR; eauto].
  - destruct c2 as [->|(x & ? & ?)]; [|right; exists x; rewrite HR; eauto].
    destruct c1 as [->|(x & ? & ?)]; [by left|right; exists x; rewrite HR; eauto].
  - destruct d2 as [->|(x & ? & ?)]; [|right; exists x; rewrite HR; eauto].
    destruct d1 as [->|(x & ? & ?)]; [by left|right; exists x; rewrite HR; eauto].
Qed.

Lemma scanPixel_Covers data width y e x :
  Covers data width (λ x' y', x' = x ∧ y' = y) e (scanPixel data width y e x).
Proof.
  unfold scanPixel.
  destruct (byteAt data ((y * width + x) * 4 + 3) >? ALPHA_THRESHOLD)%Z eqn:E.
  - apply contentAt_test in E. split; simpl.
    + intros x' y' [-> ->] _. lia.
    + lia.
    + destruct (Nat.min_spec (minX e) x) as [[? ->]|[? ->]]; [by left|right; eauto].
    + destruct (Nat.max_spec (maxX e) x) as [[? ->]|[? ->]]; [right; eauto|by left].
    + destruct (Nat.min_spec (minY e) y) as [[? ->]|[? ->]]; [by left|right; eauto].
    + destruct (Nat.max_spec (maxY e) y) as [[? ->]|[? ->]]; [right; eauto|by left].
  - assert (¬ contentAt data width x y) as N by (rewrite <- contentAt_test; congruence).
    split; try (by left); [|lia]. by intros x' y' [-> ->] ?.
Qed.

Lemma scanRow_Covers data width xs y e :
  Covers data width (λ x' y', x' ∈ xs ∧ y' = y) e (foldl (scanPixel data width y) e xs).
Proof.
  revert e. induction xs as [|x xs IH]; intros e; simpl.
  - apply Covers_none. intros x' y' [H _]. by apply elem_of_nil in H.
  - eapply Covers_then; [|apply scanPixel_Covers|apply IH].
    intros x' y'. simpl. rewrite elem_of_cons. tauto.
Qed.

Lemma scanRows_Covers data width ys e :
  Covers data width (λ x' y', x' < width ∧ y' ∈ ys) e (foldl (scanRow data width) e ys).
Proof.
  revert e. induction ys as [|y ys IH]; intros e; simpl.
  - apply Covers_none. intros x' y' [_ H]. by apply elem_of_nil in H.
  - eapply Covers_then; [|apply (scanRow_Covers data width (seq 0 width) y)|apply IH].
    intros x' y'. simpl. rewrite elem_of_cons, elem_of_seq.
    split; [intros [? [->|?]]|intros [[? ->]|[? ?]]]; auto with lia.
Qed.

Lemma scan_Covers data width height :
  Covers data width (λ x y, x < width ∧ y < height)
         (mkExtent width 0 height 0)
         (foldl (scanRow data width) (mkExtent width 0 height 0) (seq 0 height)).
Proof.
  apply (Covers_then data width (λ _ _, False) (λ x y, x < width ∧ y ∈ seq 0 height)
                     _ _ (mkExtent width 0 height 0)).
  - intros x y. rewrite elem_of_seq. split; [intros [? ?]; right; lia|intros [[]|[? ?]]; lia].
  - apply Covers_none. by intros ? ? [].
  - apply scanRows_Covers.
Qed.

Lemma findContentBounds_tight data w h :
  (∃ x y, x < w ∧ y < h ∧ contentAt data w x y) →
  TightBox data w h (findContentBounds data w h).
Proof.
  intros (x0 & y0 & Hx0 & Hy0 & Hc0). unfold findContentBounds.
  destruct (scan_Covers data w h) as [Hin Hmono HminX HmaxX HminY HmaxY].
  set (e := foldl (scanRow data w) (mkExtent w 0 h 0) (seq 0 h)) in *.
  simpl in Hmono, HminX, HmaxX, HminY, HmaxY.
  destruct (Hin x0 y0) as [Hx Hy]; [done..|].
  assert ((maxX e <? minX e) = false) as -> by (apply Nat.ltb_ge; lia).
  assert ((maxY e <? minY e) = false) as -> by (apply Nat.ltb_ge; lia).
  simpl.
  assert (∃ y, y < h ∧ contentAt data w (minX e) y) as A1.
  { destruct HminX as [?|(y & [? ?] & ?)]; [lia|eauto]. }
  assert (∃ y, y < h ∧ contentAt data w (maxX e) y) as A2.
  { destruct HmaxX as [E0|(y & [? ?] & ?)]; [|eauto].
    exists y0. split; [done|]. by replace (maxX e) with x0 by lia. }
  assert (∃ x, x < w ∧ contentAt data w x (minY e)) as A3.
  { destruct HminY as [?|(x & [? ?] & ?)]; [lia|eauto]. }
  assert (∃ x, x < w ∧ contentAt data w x (maxY e)) as A4.
  { destruct HmaxY as [E0|(x & [? ?] & ?)]; [|eauto].
    exists x0. split; [done|]. by replace (maxY e) with y0 by lia. }
  assert (maxX e < w).
  { destruct HmaxX as [?|(y & [? ?] & ?)]; lia. }
  assert (maxY e < h).
  { destruct HmaxY as [?|(x & [? ?] & ?)]; lia. }
  unfold TightBox. simpl.
  replace (minX e + (maxX e - minX e + 1) - 1) with (maxX e) by lia.
  replace (minY e + (maxY e - minY e + 1) - 1) with (maxY e) by lia.
  repeat split; try done; try lia.
  - destruct (Hin x y) as [? ?]; [done..|lia].
  - destruct (Hin x y) as [? ?]; [done..|lia].
  - destruct (Hin x y) as [? ?]; [done..|lia].
  - destruct (Hin x y) as [? ?]; [done..|lia].
Qed.

Lemma findContentBounds_blank data w h :
  0 < w →
  (∀ x y, x < w → y < h → ¬ contentAt data w x y) →
  findContentBounds data w h = Bounds.mk 0 0 w h.
Proof.
  intros Hw Hnone. unfold findContentBounds.
  destruct (scan_Covers data w h) as [Hin Hmono HminX HmaxX HminY HmaxY].
  set (e := foldl (scanRow data w) (mkExtent w 0 h 0) (seq 0 h)) in *.
  simpl in Hmono, HminX, HmaxX, HminY, HmaxY.
  assert (minX e = w) as ->.
  { destruct HminX as [?|(y & [? ?] & ?)]; [done|]. by destruct (Hnone (minX e) y). }
  assert (maxX e = 0) as ->.
  { destruct HmaxX as [?|(y & [? ?] & ?)]; [done|]. by destruct (Hnone (maxX e) y). }
  by assert ((0 <? w) = true) as -> by (by apply Nat.ltb_lt).
Qed.

Lemma TightBox_unique data w h b1 b2 :
  TightBox data w h b1 → TightBox data w h b2 → b1 = b2.
Proof.
  intros (w1 & h1 & fx1 & fy1 & in1 & (ya1 & ? & a1) & (yb1 & ? & b1') & (xc1 & ? & c1)
          & (xd1 & ? & d1))
         (w2 & h2 & fx2 & fy2 & in2 & (ya2 & ? & a2) & (yb2 & ? & b2') & (xc2 & ? & c2)
          & (xd2 & ? & d2)).
  destruct b1 as [x1 y1 bw1 bh1], b2 as [x2 y2 bw2 bh2]. simpl in *.
  assert (x1 ≤ x2 < x1 + bw1) by (apply (in1 x2 ya2); [lia|done|done]).
  assert (x1 ≤ x2 + bw2 - 1 < x1 + bw1) by (apply (in1 (x2 + bw2 - 1) yb2); [lia|done|done]).
  assert (y1 ≤ y2 < y1 + bh1) by (apply (in1 xc2 y2); [done|lia|done]).
  assert (y1 ≤ y2 + bh2 - 1 < y1 + bh1) by (apply (in1 xd2 (y2 + bh2 - 1)); [done|lia|done]).
  assert (x2 ≤ x1 < x2 + bw2) by (apply (in2 x1 ya1); [lia|done|done]).
  assert (x2 ≤ x1 + bw1 - 1 < x2 + bw2) by (apply (in2 (x1 + bw1 - 1) yb1); [lia|done|done]).
  assert (y2 ≤ y1 < y2 + bh2) by (apply (in2 xc1 y1); [done|lia|done]).
  assert (y2 ≤ y1 + bh1 - 1 < y2 + bh2) by (apply (in2 xd1 (y1 + bh1 - 1)); [done|lia|done]).
  f_equal; lia.
Qed.

(** ** stabilizeFrames *)

Lemma findContentBounds_fits data w h :
  0 < w → 0 < h →
  let b := findContentBounds data w h in
  1 ≤ Bounds.width b ∧ 1 ≤ Bounds.height b ∧
  Bounds.x b + Bounds.width b ≤ w ∧ Bounds.y b + Bounds.height b ≤ h.
Proof.
  intros Hw Hh. unfold findContentBounds.
  destruct (scan_Covers data w h) as [Hin Hmono HminX HmaxX HminY HmaxY].
  set (e := foldl (scanRow data w) (mkExtent w 0 h 0) (seq 0 h)) in *.
  simpl in Hmono, HminX, HmaxX, HminY, HmaxY.
  destruct ((maxX e <? minX e) || (maxY e <? minY e)) eqn:E; simpl; [lia|].
  apply orb_false_iff in E as [E1 E2]. apply Nat.ltb_ge in E1, E2.
  assert (maxX e < w) by (destruct HmaxX as [?|(y & [? ?] & ?)]; lia).
  assert (maxY e < h) by (destruct HmaxY as [?|(x & [? ?] & ?)]; lia).
  lia.
Qed.

Lemma boundsOf_fits f :
  wfFrame f →
  1 ≤ Bounds.width (boundsOf f) ∧ 1 ≤ Bounds.height (boundsOf f) ∧
  Bounds.x (boundsOf f) + Bounds.width (boundsOf f) ≤ width f ∧
  Bounds.y (boundsOf f) + Bounds.height (boundsOf f) ≤ height f.
Proof. intros (Hw & Hh & _). by apply findContentBounds_fits. Qed.

Lemma sample_raster w h px x y c :
  x < w → y < h → c < 4 →
  Sharp.sample (mkFrame w h (Sharp.raster w h px)) x y c = px x y c.
Proof. intros. unfold Sharp.sample. simpl. by apply raster_nth. Qed.

Lemma extract_cropped f b :
  1 ≤ Bounds.width b → 1 ≤ Bounds.height b →
  Bounds.x b + Bounds.width b ≤ width f → Bounds.y b + Bounds.height b ≤ height f →
  Sharp.extract f (Bounds.x b) (Bounds.y b) (Bounds.width b) (Bounds.height b)
  = Some (cropped f b).
Proof.
  intros. unfold Sharp.extract.
  assert ((0 <? Bounds.width b) = true) as -> by (apply Nat.ltb_lt; lia).
  assert ((0 <? Bounds.height b) = true) as -> by (apply Nat.ltb_lt; lia).
  assert ((Bounds.x b + Bounds.width b <=? width f) = true) as -> by (by apply Nat.leb_le).
  assert ((Bounds.y b + Bounds.height b <=? height f) = true) as -> by (by apply Nat.leb_le).
  done.
Qed.

Lemma compositeOnBlank_pasted cw ch input left top :
  0 < cw → 0 < ch → width input ≤ cw → height input ≤ ch →
  Sharp.compositeOnBlank cw ch input left top = Some (pasted cw ch input left top).
Proof.
  intros. unfold Sharp.compositeOnBlank.
  assert ((0 <? cw) = true) as -> by (by apply Nat.ltb_lt).
  assert ((0 <? ch) = true) as -> by (by apply Nat.ltb_lt).
  assert ((width input <=? cw) = true) as -> by (by apply Nat.leb_le).
  assert ((height input <=? ch) = true) as -> by (by apply Nat.leb_le).
  done.
Qed.

Lemma placeOnCanvas_placed cw ch f :
  wfFrame f → Bounds.width (boundsOf f) ≤ cw → Bounds.height (boundsOf f) ≤ ch →
  placeOnCanvas cw ch f (boundsOf f) = Some (placed cw ch f).
Proof.
  intros Hwf Hw Hh. destruct (boundsOf_fits f Hwf) as (? & ? & ? & ?).
  unfold placeOnCanvas. rewrite extract_cropped by done. simpl.
  apply compositeOnBlank_pasted; simpl; lia.
Qed.

Lemma placed_wf cw ch f : 0 < cw → 0 < ch → wfFrame (placed cw ch f).
Proof.
  intros. unfold wfFrame, placed, pasted. simpl. by rewrite raster_length.
Qed.

(** The pixels of a stabilized frame. *)
Lemma placed_sample cw ch f x y c :
  wfFrame f → x < cw → y < ch → c < 4 →
  Sharp.sample (placed cw ch f) x y c
  = if inContent cw ch f x y
    then if (Sharp.sample f (Bounds.x (boundsOf f) + (x - leftOf cw f))
                            (Bounds.y (boundsOf f) + (y - topOf ch f)) 3 =? 0)%Z
         then 0%Z
         else Sharp.sample f (Bounds.x (boundsOf f) + (x - leftOf cw f))
                             (Bounds.y (boundsOf f) + (y - topOf ch f)) c
    else 0%Z.
Proof.
  intros Hwf Hx Hy Hc. unfold placed, pasted.
  rewrite sample_raster by done. unfold inContent. simpl.
  destruct ((leftOf cw f <=? x) && (x <? leftOf cw f + Bounds.width (boundsOf f)) &&
            (topOf ch f <=? y) && (y <? topOf ch f + Bounds.height (boundsOf f))) eqn:E;
    [|done].
  repeat (apply andb_true_iff in E as [E ?]).
  apply Nat.leb_le in E. 
  repeat match goal with H : (_ <? _) = true |- _ => apply Nat.ltb_lt in H
                    | H : (_ <=? _) = true |- _ => apply Nat.leb_le in H end.
  unfold cropped. rewrite !sample_raster by lia. done.
Qed.

Lemma stabilizeFrames_placed fs :
  Forall wfFrame fs →
  stabilizeFrames fs
  = Some (placed (maxContentWidth fs + 40) (maxContentHeight fs + 40) <$> fs).
Proof.
  intros Hwf. unfold stabilizeFrames.
  rewrite <- !list_fmap_compose.
  change ((λ f : Frame * Bounds.t, Bounds.width f.2) ∘ (λ buf, (buf, boundsOf buf)))
    with (λ f, Bounds.width (boundsOf f)).
  change ((λ f : Frame * Bounds.t, Bounds.height f.2) ∘ (λ buf, (buf, boundsOf buf)))
    with (λ f, Bounds.height (boundsOf f)).
  fold (maxContentWidth fs) (maxContentHeight fs).
  apply mapM_Some. apply Forall2_fmap_l, Forall2_fmap_r.
  apply Forall_Forall2_diag. apply Forall_forall. intros f Hf. simpl.
  apply placeOnCanvas_placed.
  - rewrite Forall_forall in Hwf. by apply Hwf.
  - transitivity (maxContentWidth fs); [|lia].
    apply max_list_elem_of_le, list_elem_of_fmap. eauto.
  - transitivity (maxContentHeight fs); [|lia].
    apply max_list_elem_of_le, list_elem_of_fmap. eauto.
Qed.

Lemma contentAt_sample f x y :
  contentAt (data f) (width f) x y ↔ (ALPHA_THRESHOLD < Sharp.sample f x y 3)%Z.
Proof. done. Qed.

Lemma inContent_spec cw ch f x y :
  inContent cw ch f x y = true ↔
  leftOf cw f ≤ x < leftOf cw f + Bounds.width (boundsOf f) ∧
  topOf ch f ≤ y < topOf ch f + Bounds.height (boundsOf f).
Proof.
  unfold inContent. rewrite !andb_true_iff, !Nat.leb_le, !Nat.ltb_lt. lia.
Qed.

Lemma placed_contentAt cw ch f x y :
  wfFrame f → x < cw → y < ch →
  contentAt (data (placed cw ch f)) cw x y ↔
  inContent cw ch f x y = true ∧
  contentAt (data f) (width f) (Bounds.x (boundsOf f) + (x - leftOf cw f))
                               (Bounds.y (boundsOf f) + (y - topOf ch f)).
Proof.
  intros Hwf Hx Hy.
  change (contentAt (data (placed cw ch f)) cw x y)
    with (contentAt (data (placed cw ch f)) (width (placed cw ch f)) x y).
  rewrite !contentAt_sample, placed_sample by (done || lia).
  unfold ALPHA_THRESHOLD.
  destruct (inContent cw ch f x y); [|split; [lia|by intros [? _]]].
  destruct (Z.eqb_spec (Sharp.sample f (Bounds.x (boundsOf f) + (x - leftOf cw f))
                          (Bounds.y (boundsOf f) + (y - topOf ch f)) 3) 0) as [E|E].
  - rewrite E. split; [lia|]. intros [_ ?]. lia.
  - tauto.
Qed.

(** The content box of a stabilized frame is the content box of the frame
    it came from, moved to its place on the canvas. *)
Lemma placed_bounds cw ch f :
  wfFrame f → hasContent f →
  Bounds.width (boundsOf f) ≤ cw → Bounds.height (boundsOf f) ≤ ch →
  boundsOf (placed cw ch f)
  = Bounds.mk (leftOf cw f) (topOf ch f)
              (Bounds.width (boundsOf f)) (Bounds.height (boundsOf f)).
Proof.
  intros Hwf Hc Hw Hh.
  pose proof (findContentBounds_tight _ _ _ Hc) as Ht. fold (boundsOf f) in Ht.
  destruct Ht as (w1 & h1 & fx & fy & Hin & (ya & Hya & a) & (yb & Hyb & b) & (xc & Hxc & c)
                  & (xd & Hxd & d)).
  set (bx := Bounds.x (boundsOf f)) in *. set (by_ := Bounds.y (boundsOf f)) in *.
  set (bw := Bounds.width (boundsOf f)) in *. set (bh := Bounds.height (boundsOf f)) in *.
  assert (leftOf cw f + bw ≤ cw) as Hl.
  { unfold leftOf. fold bw.
    assert ((cw - bw) / 2 ≤ cw - bw) by (apply Nat.Div0.div_le_upper_bound; lia). lia. }
  assert (topOf ch f + bh = ch) as Htop by (unfold topOf; fold bh; lia).
  set (l := leftOf cw f) in *. set (t := topOf ch f) in *.
  assert (∀ x y, bx ≤ x < bx + bw → by_ ≤ y < by_ + bh →
                 contentAt (data f) (width f) x y →
                 contentAt (data (placed cw ch f)) cw (l + (x - bx)) (t + (y - by_))) as Hmove.
  { intros x y Hx Hy Hxy. apply placed_contentAt; [done|lia|lia|].
    split; [apply inContent_spec; fold l t bw bh; lia|].
    fold l t bx by_.
    by replace (bx + (l + (x - bx) - l)) with x by lia;
       replace (by_ + (t + (y - by_) - t)) with y by lia. }
  assert (TightBox (data (placed cw ch f)) cw ch (Bounds.mk l t bw bh)) as Hbox.
  { unfold TightBox. simpl. split; [done|]. split; [done|]. split; [done|]. split; [lia|].
    split.
    { intros x y Hx Hy Hxy. apply placed_contentAt in Hxy as [Hxy _]; [|done..].
      apply inContent_spec in Hxy. fold l t bw bh in Hxy. lia. }
    split.
    { exists (t + (ya - by_)).
      destruct (Hin bx ya) as [? ?]; [lia|done|done|].
      split; [lia|]. replace l with (l + (bx - bx)) at 1 by lia. apply Hmove; [lia|lia|done]. }
    split.
    { exists (t + (yb - by_)).
      destruct (Hin (bx + bw - 1) yb) as [? ?]; [lia|done|done|].
      split; [lia|]. replace (l + bw - 1) with (l + (bx + bw - 1 - bx)) by lia.
      apply Hmove; [lia|lia|done]. }
    split.
    { exists (l + (xc - bx)).
      destruct (Hin xc by_) as [? ?]; [done|lia|done|].
      split; [lia|]. replace t with (t + (by_ - by_)) at 1 by lia. apply Hmove; [lia|lia|done]. }
    { exists (l + (xd - bx)).
      destruct (Hin xd (by_ + bh - 1)) as [? ?]; [done|lia|done|].
      split; [lia|]. replace (t + bh - 1) with (t + (by_ + bh - 1 - by_)) by lia.
      apply Hmove; [lia|lia|done]. } }
  apply (TightBox_unique (data (placed cw ch f)) cw ch); [|done].
  apply (findContentBounds_tight (data (placed cw ch f)) cw ch).
  destruct Hbox as (_ & _ & _ & _ & _ & (y & Hy & Hxy) & _). simpl in *.
  exists l, y. split; [lia|]. split; [lia|done].
Qed.

Lemma leftOf_centered cw f :
  Bounds.width (boundsOf f) ≤ cw →
  leftOf cw f ≤ cw - (leftOf cw f + Bounds.width (boundsOf f)) ≤ leftOf cw f + 1.
Proof.
  intros H. unfold leftOf.
  pose proof (Nat.div_mod_eq (cw - Bounds.width (boundsOf f)) 2) as E.
  pose proof (Nat.mod_upper_bound (cw - Bounds.width (boundsOf f)) 2). lia.
Qed.

Lemma maxContentWidth_ge fs f : f ∈ fs → Bounds.width (boundsOf f) ≤ maxContentWidth fs.
Proof. intros Hf. apply max_list_elem_of_le, list_elem_of_fmap. eauto. Qed.

Lemma maxContentHeight_ge fs f : f ∈ fs → Bounds.height (boundsOf f) ≤ maxContentHeight fs.
Proof. intros Hf. apply max_list_elem_of_le, list_elem_of_fmap. eauto. Qed.

(** C2 (amended). Every stabilized frame has the size of the one canvas,
    [maxContentWidth + 40] by [maxContentHeight + 40], where the maxima are
    taken over the content boxes found at alpha threshold 20. The content
    box of a frame is pasted horizontally centred (the two side gaps differ
    by at most one pixel) with its bottom edge on the bottom edge of the
    canvas: the content box of the stabilized frame is that box at that
    place, and outside of it the canvas is transparent. *)
Theorem C2_stabilize_canvas (fs : list Frame) :
  Forall wfFrame fs →
  let cw := maxContentWidth fs + 40 in
  let ch := maxContentHeight fs + 40 in
  ∃ out, stabilizeFrames fs = Some out ∧ length out = length fs ∧
    ∀ i f o, fs !! i = Some f → out !! i = Some o →
      width o = cw ∧ height o = ch ∧
      (hasContent f → TightBox (data f) (width f) (height f) (boundsOf f)) ∧
      (∀ x y c, x < cw → y < ch → c < 4 → inContent cw ch f x y = false →
         Sharp.sample o x y c = 0%Z) ∧
      topOf ch f + Bounds.height (boundsOf f) = ch ∧
      leftOf cw f ≤ cw - (leftOf cw f + Bounds.width (boundsOf f)) ≤ leftOf cw f + 1 ∧
      (hasContent f →
       boundsOf o = Bounds.mk (leftOf cw f) (topOf ch f)
                              (Bounds.width (boundsOf f)) (Bounds.height (boundsOf f))).
Proof.
  intros Hwf cw ch. eexists. split; [by apply stabilizeFrames_placed|].
  split; [by rewrite length_fmap|].
  intros i f o Hf Ho. rewrite list_lookup_fmap, Hf in Ho. injection Ho as <-.
  assert (f ∈ fs) as Hin by (by eapply list_elem_of_lookup_2).
  assert (wfFrame f) as Hwff by (rewrite Forall_forall in Hwf; by apply Hwf).
  pose proof (maxContentWidth_ge fs f Hin). pose proof (maxContentHeight_ge fs f Hin).
  fold cw ch.
  split; [done|]. split; [done|].
  split; [apply findContentBounds_tight|].
  split; [intros x y c Hx Hy Hc Hout; by rewrite placed_sample, Hout|].
  split; [unfold topOf; lia|].
  split; [apply leftOf_centered; lia|].
  intros Hc. apply placed_bounds; [done|done|lia|lia].
Qed.

Lemma placed_placed cw ch f :
  wfFrame f → hasContent f →
  Bounds.width (boundsOf f) ≤ cw → Bounds.height (boundsOf f) ≤ ch →
  placed cw ch (placed cw ch f) = placed cw ch f.
Proof.
  intros Hwf Hc Hw Hh.
  pose proof (placed_bounds cw ch f Hwf Hc Hw Hh) as Hb.
  destruct (boundsOf_fits f Hwf) as (? & ? & ? & ?).
  assert (leftOf cw f + Bounds.width (boundsOf f) ≤ cw).
  { pose proof (leftOf_centered cw f Hw). lia. }
  assert (topOf ch f + Bounds.height (boundsOf f) = ch) by (unfold topOf; lia).
  unfold placed at 1. unfold leftOf at 1, topOf at 1. rewrite Hb.
  cbn [Bounds.x Bounds.y Bounds.width Bounds.height].
  fold (leftOf cw f) (topOf ch f). unfold placed at 2. unfold pasted. f_equal.
  apply raster_pointwise. intros x y c Hx Hy Hcc. simpl.
  destruct ((leftOf cw f <=? x) && (x <? leftOf cw f + Bounds.width (boundsOf f)) &&
            (topOf ch f <=? y) && (y <? topOf ch f + Bounds.height (boundsOf f))) eqn:E;
    [|done].
  pose proof E as Ein. apply inContent_spec in Ein.
  unfold cropped. cbn [Bounds.x Bounds.y Bounds.width Bounds.height].
  rewrite !sample_raster by lia.
  rewrite !placed_sample by (done || lia).
  assert (inContent cw ch f (leftOf cw f + (x - leftOf cw f)) (topOf ch f + (y - topOf ch f))
          = true) as -> by (apply inContent_spec; lia).
  replace (leftOf cw f + (x - leftOf cw f) - leftOf cw f) with (x - leftOf cw f) by lia.
  replace (topOf ch f + (y - topOf ch f) - topOf ch f) with (y - topOf ch f) by lia.
  destruct (Z.eqb_spec (Sharp.sample f (Bounds.x (boundsOf f) + (x - leftOf cw f))
                          (Bounds.y (boundsOf f) + (y - topOf ch f)) 3) 0) as [E0|E0];
    [done|].
  by destruct (Z.eqb_spec (Sharp.sample f (Bounds.x (boundsOf f) + (x - leftOf cw f))
                             (Bounds.y (boundsOf f) + (y - topOf ch f)) 3) 0).
Qed.

(** C8 (amended). On a sequence in which every frame has a pixel of alpha
    above 20, stabilizing the stabilized sequence returns it unchanged. *)
Theorem C8_stabilize_idempotent (fs : list Frame) :
  Forall wfFrame fs → Forall hasContent fs →
  ∃ out, stabilizeFrames fs = Some out ∧ stabilizeFrames out = Some out.
Proof.
  intros Hwf Hc.
  set (cw := maxContentWidth fs + 40). set (ch := maxContentHeight fs + 40).
  exists (placed cw ch <$> fs). split; [by apply stabilizeFrames_placed|].
  assert (∀ f, f ∈ fs →
            wfFrame f ∧ hasContent f ∧
            Bounds.width (boundsOf f) ≤ cw ∧ Bounds.height (boundsOf f) ≤ ch) as Hall.
  { intros f Hf. rewrite Forall_forall in Hwf, Hc.
    pose proof (maxContentWidth_ge fs f Hf). pose proof (maxContentHeight_ge fs f Hf).
    split; [by apply Hwf|]. split; [by apply Hc|]. unfold cw, ch. lia. }
  assert (maxContentWidth (placed cw ch <$> fs) = maxContentWidth fs) as Ew.
  { unfold maxContentWidth. rewrite <- list_fmap_compose. f_equal.
    apply list_fmap_ext. intros i f Hf%list_elem_of_lookup_2. simpl.
    destruct (Hall f Hf) as (? & ? & ? & ?). by rewrite placed_bounds. }
  assert (maxContentHeight (placed cw ch <$> fs) = maxContentHeight fs) as Eh.
  { unfold maxContentHeight. rewrite <- list_fmap_compose. f_equal.
    apply list_fmap_ext. intros i f Hf%list_elem_of_lookup_2. simpl.
    destruct (Hall f Hf) as (? & ? & ? & ?). by rewrite placed_bounds. }
  rewrite stabilizeFrames_placed.
  - rewrite Ew, Eh. fold cw ch. f_equal. rewrite <- list_fmap_compose.
    apply list_fmap_ext. intros i f Hf%list_elem_of_lookup_2. simpl.
    destruct (Hall f Hf) as (? & ? & ? & ?). by apply placed_placed.
  - apply Forall_fmap, Forall_forall. intros f _. apply placed_wf; unfold cw, ch; lia.
Qed.

(** ** verifyFrames *)

Lemma sizeSet_acc (s l : list (nat * nat)) :
  NoDup s →
  NoDup (foldl (λ s m, if bool_decide (m ∈ s) then s else s ++ [m]) s l) ∧
  ∀ x, x ∈ foldl (λ s m, if bool_decide (m ∈ s) then s else s ++ [m]) s l ↔ x ∈ s ∨ x ∈ l.
Proof.
  revert s. induction l as [|m l IH]; intros s Hs; simpl.
  - split; [done|]. intros x. rewrite elem_of_nil. tauto.
  - destruct (bool_decide (m ∈ s)) eqn:E.
    + apply bool_decide_eq_true in E. destruct (IH s Hs) as [Hnd Hin].
      split; [done|]. intros x. rewrite Hin, elem_of_cons.
      split; [tauto|]. intros [?|[->|?]]; tauto.
    + apply bool_decide_eq_false in E.
      destruct (IH (s ++ [m])) as [Hnd Hin].
      { apply NoDup_app. split; [done|]. split; [|apply NoDup_singleton].
        intros x Hx Hm. apply list_elem_of_singleton in Hm as ->. done. }
      split; [done|]. intros x.
      rewrite Hin, elem_of_app, list_elem_of_singleton, elem_of_cons. tauto.
Qed.

Lemma sizeSet_NoDup metas : NoDup (sizeSet metas).
Proof. apply sizeSet_acc, NoDup_nil_2. Qed.

Lemma elem_of_sizeSet metas x : x ∈ sizeSet metas ↔ x ∈ metas.
Proof.
  unfold sizeSet. destruct (sizeSet_acc [] metas) as [_ H]; [apply NoDup_nil_2|].
  rewrite H, elem_of_nil. tauto.
Qed.

Lemma two_distinct {A} (l : list A) :
  NoDup l → 1 < length l ↔ ∃ a b, a ∈ l ∧ b ∈ l ∧ a ≠ b.
Proof.
  intros Hnd. split.
  - destruct l as [|a [|b l]]; simpl; [lia|lia|]. intros _.
    exists a, b. split; [apply list_elem_of_here|].
    split; [apply list_elem_of_further, list_elem_of_here|].
    apply NoDup_cons in Hnd as [Hnd _]. intros ->. apply Hnd, list_elem_of_here.
  - intros (a & b & Ha & Hb & Hne).
    destruct l as [|c [|d l]]; simpl; [by apply elem_of_nil in Ha| |lia].
    apply list_elem_of_singleton in Ha, Hb. congruence.
Qed.

Lemma variance_fold_elem (issues0 : list Issue) (ratios : list Q) (x : Issue) :
  x ∈ foldl (λ issues diffRatio,
               if Qltb Lit.d0_30 diffRatio then issues ++ [LargeVariance diffRatio] else issues)
            issues0 ratios
  ↔ x ∈ issues0 ∨ ∃ q, q ∈ ratios ∧ (Lit.d0_30 < q)%Q ∧ x = LargeVariance q.
Proof.
  revert issues0. induction ratios as [|r ratios IH]; intros issues0; simpl.
  - split; [by left|]. intros [?|(q & Hq & _)]; [done|]. by apply elem_of_nil in Hq.
  - rewrite IH. destruct (Qltb Lit.d0_30 r) eqn:E.
    + apply Qltb_lt in E. rewrite elem_of_app, list_elem_of_singleton. split.
      * intros [[?| ->]|(q & ? & ? & ->)]; [by left|right..].
        -- exists r. split; [apply list_elem_of_here|done].
        -- exists q. split; [by apply list_elem_of_further|done].
      * intros [?|(q & [->|?]%elem_of_cons & ? & ->)]; [by left; left|by left; right|].
        right. eauto.
    + apply Qltb_ge in E. split.
      * intros [?|(q & ? & ? & ->)]; [by left|right].
        exists q. split; [by apply list_elem_of_further|done].
      * intros [?|(q & [->|?]%elem_of_cons & Hq & ->)]; [by left| |right; eauto].
        exfalso. by apply (Qlt_not_le _ _ Hq).
Qed.

(** A double exceeds the literal [0.30] of the source exactly when it
    exceeds the number 0.30: the literal is the double next below it. *)
Lemma above_literal_030 x : (Lit.d0_30 < fl x)%Q ↔ (0.30 < fl x)%Q.
Proof.
  assert (Lit.d0_30 <= 0.30)%Q as Hlit by (by vm_compute).
  assert (fl 0.30 = Lit.d0_30) as Efl by (vm_compute; reflexivity).
  split; [|lra]. intros H.
  destruct (Qlt_le_dec 0.30 (fl x)) as [|Hle]; [done|exfalso].
  apply fl_mono in Hle. rewrite fl_idem, Efl in Hle. lra.
Qed.

Lemma comparable_dec fs i j : comparable fs i j ∨ ¬ comparable fs i j.
Proof.
  unfold comparable.
  destruct (Nat.eq_dec (length (data (frameAt fs i))) (length (data (frameAt fs j))));
    destruct (Nat.eq_dec (length (data (frameAt fs i)))
                (width (frameAt fs 0) * height (frameAt fs 0) * 4)); tauto.
Qed.

Section PipelineResults.

Variable resizeContain : Frame → nat → nat → list Z.
Variable pixelmatch : list Z → list Z → nat → nat → nat.

Lemma pixelmatchChecked_Some fs i j :
  comparable fs i j →
  pixelmatchChecked pixelmatch (data (frameAt fs i)) (data (frameAt fs j))
                    (width (frameAt fs 0)) (height (frameAt fs 0))
  = Some (pixelmatch (data (frameAt fs i)) (data (frameAt fs j))
                     (width (frameAt fs 0)) (height (frameAt fs 0))).
Proof.
  intros [E1 E2]. unfold pixelmatchChecked.
  by rewrite (proj2 (Nat.eqb_eq _ _) E1), (proj2 (Nat.eqb_eq _ _) E2).
Qed.

Lemma pixelmatchChecked_None fs i j :
  ¬ comparable fs i j →
  pixelmatchChecked pixelmatch (data (frameAt fs i)) (data (frameAt fs j))
                    (width (frameAt fs 0)) (height (frameAt fs 0))
  = None.
Proof.
  intros Hn. unfold pixelmatchChecked.
  destruct (Nat.eqb_spec (length (data (frameAt fs i))) (length (data (frameAt fs j))));
    [|done].
  destruct (Nat.eqb_spec (length (data (frameAt fs i)))
              (width (frameAt fs 0) * height (frameAt fs 0) * 4)); [|done].
  by destruct Hn.
Qed.

Lemma sampledRatios_unfold fs :
  sampledRatios pixelmatch fs
  = d1 ← pixelmatchChecked pixelmatch (data (frameAt fs 0)) (data (frameAt fs (length fs / 2)))
                           (width (frameAt fs 0)) (height (frameAt fs 0));
    d2 ← pixelmatchChecked pixelmatch (data (frameAt fs (length fs / 2)))
                           (data (frameAt fs (length fs - 1)))
                           (width (frameAt fs 0)) (height (frameAt fs 0));
    Some [fl (QofN d1 / QofN (width (frameAt fs 0) * height (frameAt fs 0)));
          fl (QofN d2 / QofN (width (frameAt fs 0) * height (frameAt fs 0)))].
Proof.
  unfold sampledRatios. cbv zeta.
  change (length ((λ i, data (frameAt fs i)) <$> [0; length fs / 2; length fs - 1]) - 1)
    with 2.
  change (seq 0 2) with [0; 1].
  cbn [mapM]. cbn [fmap list_fmap nth Nat.add].
  destruct (pixelmatchChecked pixelmatch (data (frameAt fs 0)) _ _ _) as [d1|]; [|done].
  simpl. by destruct (pixelmatchChecked pixelmatch _ _ _ _) as [d2|].
Qed.

Lemma sampledRatios_Some fs :
  comparable fs 0 (length fs / 2) → comparable fs (length fs / 2) (length fs - 1) →
  sampledRatios pixelmatch fs
  = Some [sampleRatio pixelmatch fs 0 (length fs / 2);
          sampleRatio pixelmatch fs (length fs / 2) (length fs - 1)].
Proof.
  intros H1 H2. rewrite sampledRatios_unfold.
  by rewrite (pixelmatchChecked_Some fs _ _ H1), (pixelmatchChecked_Some fs _ _ H2).
Qed.

Lemma sampledRatios_None fs :
  ¬ (comparable fs 0 (length fs / 2) ∧ comparable fs (length fs / 2) (length fs - 1)) →
  sampledRatios pixelmatch fs = None.
Proof.
  intros Hn. rewrite sampledRatios_unfold.
  destruct (comparable_dec fs 0 (length fs / 2)) as [H1|H1].
  - rewrite (pixelmatchChecked_Some fs _ _ H1). simpl.
    rewrite pixelmatchChecked_None; [done|]. intros H2. by apply Hn.
  - by rewrite (pixelmatchChecked_None fs _ _ H1).
Qed.

Lemma verifierReturns_cases fs :
  verifierReturns fs ∨
  (2 < length fs ∧
   ¬ (comparable fs 0 (length fs / 2) ∧ comparable fs (length fs / 2) (length fs - 1))).
Proof.
  unfold verifierReturns.
  destruct (decide (2 < length fs)) as [Hn|Hn]; [|left; intros; lia].
  destruct (comparable_dec fs 0 (length fs / 2));
    destruct (comparable_dec fs (length fs / 2) (length fs - 1)); tauto.
Qed.

(** What the verifier returns when it returns, and when it does. *)
Lemma verifyFrames_Some fs v :
  verifyFrames pixelmatch fs = Some v ↔
  verifierReturns fs ∧
  v = mkVerification (length (issues v) =? 0) (issues v) ∧
  issues v
  = (let sizes := sizeSet ((λ buf, (width buf, height buf)) <$> fs) in
     let issues := if 1 <? length sizes then [InconsistentSizes sizes] else [] in
     if 2 <? length fs
     then foldl (λ issues diffRatio,
                   if Qltb Lit.d0_30 diffRatio
                   then issues ++ [LargeVariance diffRatio] else issues)
                issues [sampleRatio pixelmatch fs 0 (length fs / 2);
                        sampleRatio pixelmatch fs (length fs / 2) (length fs - 1)]
     else issues).
Proof.
  unfold verifyFrames. cbv zeta.
  destruct (2 <? length fs) eqn:E2.
  - apply Nat.ltb_lt in E2.
    destruct (verifierReturns_cases fs) as [Hr|[_ Hc]].
    + destruct (Hr E2) as [H1 H2]. rewrite (sampledRatios_Some fs H1 H2). simpl. split.
      * intros [= <-]. split; [done|]. by split.
      * intros (_ & Hv & Hi). rewrite Hv, Hi. done.
    + rewrite (sampledRatios_None fs Hc). simpl. split; [done|].
      intros [H _]. by destruct Hc; apply H.
  - apply Nat.ltb_ge in E2. simpl. split.
    + intros [= <-]. split; [intros ?; lia|]. by split.
    + intros (_ & Hv & Hi). rewrite Hv, Hi. done.
Qed.

Lemma verifyFrames_None fs :
  verifyFrames pixelmatch fs = None ↔
  2 < length fs ∧
  ¬ (comparable fs 0 (length fs / 2) ∧ comparable fs (length fs / 2) (length fs - 1)).
Proof.
  destruct (verifyFrames pixelmatch fs) as [v|] eqn:E.
  - apply verifyFrames_Some in E as [Hr _]. split; [done|].
    intros [Hn Hc]. by destruct Hc; apply Hr.
  - split; [intros _|done].
    destruct (verifierReturns_cases fs) as [Hr|?]; [exfalso|done].
    unfold verifyFrames in E. cbv zeta in E.
    destruct (2 <? length fs) eqn:E2; [|done].
    apply Nat.ltb_lt in E2. destruct (Hr E2) as [H1 H2].
    by rewrite (sampledRatios_Some fs H1 H2) in E.
Qed.

Lemma verifyFrames_issues fs v x :
  verifyFrames pixelmatch fs = Some v →
  x ∈ issues v ↔
  (1 < length (sizeSet ((λ buf, (width buf, height buf)) <$> fs)) ∧
   x = InconsistentSizes (sizeSet ((λ buf, (width buf, height buf)) <$> fs)))
  ∨ (2 < length fs ∧
     ∃ q, q ∈ [sampleRatio pixelmatch fs 0 (length fs / 2);
               sampleRatio pixelmatch fs (length fs / 2) (length fs - 1)] ∧
          (0.30 < q)%Q ∧ x = LargeVariance q).
Proof.
  intros (_ & _ & ->)%verifyFrames_Some. cbv zeta.
  set (sizes := sizeSet ((λ buf, (width buf, height buf)) <$> fs)).
  assert (x ∈ (if 1 <? length sizes then [InconsistentSizes sizes] else [])
          ↔ 1 < length sizes ∧ x = InconsistentSizes sizes) as H0.
  { destruct (1 <? length sizes) eqn:E.
    - apply Nat.ltb_lt in E. rewrite list_elem_of_singleton. tauto.
    - apply Nat.ltb_ge in E. rewrite elem_of_nil. split; [done|lia]. }
  assert (∀ q, q ∈ [sampleRatio pixelmatch fs 0 (length fs / 2);
                    sampleRatio pixelmatch fs (length fs / 2) (length fs - 1)] →
               (Lit.d0_30 < q)%Q ↔ (0.30 < q)%Q) as Hlit.
  { intros q Hq. repeat (apply elem_of_cons in Hq as [->|Hq]; [apply above_literal_030|]).
    by apply elem_of_nil in Hq. }
  destruct (2 <? length fs) eqn:E2.
  - apply Nat.ltb_lt in E2. rewrite variance_fold_elem, H0. split.
    + intros [?|(q & Hq & Hgt & ->)]; [by left|right]. split; [done|].
      exists q. split; [done|]. split; [by apply Hlit|done].
    + intros [?|(_ & q & Hq & Hgt & ->)]; [by left|right].
      exists q. split; [done|]. split; [by apply Hlit|done].
  - apply Nat.ltb_ge in E2. rewrite H0. split; [tauto|]. intros [?|[? _]]; [done|lia].
Qed.

(** Frames of one size, each holding its [4 * w * h] bytes, are verified
    without a throw. *)
Lemma verifyFrames_uniform fs w h :
  (∀ f, f ∈ fs → width f = w ∧ height f = h ∧ length (data f) = h * w * 4) →
  ∃ v, verifyFrames pixelmatch fs = Some v.
Proof.
  intros Hall.
  destruct (verifyFrames pixelmatch fs) as [v|] eqn:E; [eauto|exfalso].
  apply verifyFrames_None in E as [Hn Hc]. apply Hc.
  assert (∀ i, i < length fs →
            width (frameAt fs i) = w ∧ height (frameAt fs i) = h ∧
            length (data (frameAt fs i)) = h * w * 4) as Hat.
  { intros i Hi. apply Hall. unfold frameAt. apply list_elem_of_In, nth_In, Hi. }
  assert (length fs / 2 < length fs) as Hmid by (apply Nat.div_lt; lia).
  destruct (Hat 0) as (W0 & H0 & L0); [lia|].
  destruct (Hat (length fs / 2) Hmid) as (_ & _ & L1).
  destruct (Hat (length fs - 1)) as (_ & _ & L2); [lia|].
  unfold comparable. rewrite W0, H0, L0, L1, L2. lia.
Qed.

Lemma autoFix_unfold fs opts :
  autoFix resizeContain pixelmatch fs opts
  = replaced ← (if 0 <? length (badFrames (detectBadFrames resizeContain pixelmatch fs opts))
                then replaceBadFrames fs
                       (badFrames (detectBadFrames resizeContain pixelmatch fs opts))
                else Some fs);
    st ← stabilizeFrames replaced;
    finalCheck ← verifyFrames pixelmatch st;
    Some (mkResult st
            (reportOf (length fs) (detectBadFrames resizeContain pixelmatch fs opts)
                      finalCheck)).
Proof. done. Qed.

(** autoFix returns on every sequence of decoded frames. *)
Lemma autoFix_total fs opts :
  Forall wfFrame fs →
  ∃ replaced st finalCheck,
    (if 0 <? length (badFrames (detectBadFrames resizeContain pixelmatch fs opts))
     then replaceBadFrames fs (badFrames (detectBadFrames resizeContain pixelmatch fs opts))
     else Some fs) = Some replaced ∧
    length replaced = length fs ∧
    stabilizeFrames replaced = Some st ∧ length st = length fs ∧
    verifyFrames pixelmatch st = Some finalCheck ∧
    autoFix resizeContain pixelmatch fs opts
    = Some (mkResult st
              (reportOf (length fs) (detectBadFrames resizeContain pixelmatch fs opts)
                        finalCheck)).
Proof.
  intros Hwf.
  assert (∃ replaced,
            (if 0 <? length (badFrames (detectBadFrames resizeContain pixelmatch fs opts))
             then replaceBadFrames fs
                    (badFrames (detectBadFrames resizeContain pixelmatch fs opts))
             else Some fs) = Some replaced ∧
            length replaced = length fs ∧ Forall wfFrame replaced)
    as (replaced & Hrep & Hlen & Hwf').
  { destruct (0 <? length _).
    - destruct (replaceBadFrames_detect resizeContain pixelmatch fs opts)
        as (out & Hout & Hlen & Hsub).
      exists out. split; [done|]. split; [done|].
      rewrite Forall_forall in Hwf. apply Forall_forall. intros f Hf. by apply Hwf, Hsub.
    - by exists fs. }
  set (cw := maxContentWidth replaced + 40). set (ch := maxContentHeight replaced + 40).
  destruct (verifyFrames_uniform (placed cw ch <$> replaced) cw ch) as [v Hv].
  { intros f (g & -> & _)%list_elem_of_fmap. split; [done|]. split; [done|].
    apply placed_wf; unfold cw, ch; lia. }
  exists replaced, (placed cw ch <$> replaced), v.
  split; [done|]. split; [done|].
  split; [by apply stabilizeFrames_placed|].
  split; [by rewrite length_fmap|].
  split; [done|].
  rewrite autoFix_unfold, Hrep. simpl.
  rewrite stabilizeFrames_placed by done. simpl. fold cw ch. by rewrite Hv.
Qed.

(** C7. A sequence of fewer than three frames is not examined: the result of
    detection is empty, nothing is replaced, and autoFix returns the frames
    the stabilizer makes of the input together with the report, which holds
    the outcome of the verifier on them. *)
Theorem C7_short_sequence fs opts :
  length fs < 3 → Forall wfFrame fs →
  detectBadFrames resizeContain pixelmatch fs opts = mkDetection [] [] ∧
  ∃ st finalCheck,
    stabilizeFrames fs = Some st ∧
    verifyFrames pixelmatch st = Some finalCheck ∧
    autoFix resizeContain pixelmatch fs opts
    = Some (mkResult st
              (mkReport (length fs) [] [] true [] (passed finalCheck) finalCheck)).
Proof.
  intros Hlen Hwf.
  pose proof (detectBadFrames_short resizeContain pixelmatch fs opts Hlen) as Hd.
  split; [done|].
  destruct (autoFix_total fs opts Hwf)
    as (replaced & st & v & Hrep & _ & Hst & _ & Hv & Hfix).
  rewrite Hd in Hrep, Hfix. simpl in Hrep. injection Hrep as <-.
  exists st, v. split; [done|]. split; [done|]. by rewrite Hfix.
Qed.

(** C10. autoFix returns as many frames as it was given, and reports that
    number as [totalFrames]. *)
Theorem C10_length_preserved fs opts :
  Forall wfFrame fs →
  ∃ r, autoFix resizeContain pixelmatch fs opts = Some r ∧
       length (frames r) = length fs ∧ totalFrames (report r) = length fs.
Proof.
  intros Hwf.
  destruct (autoFix_total fs opts Hwf) as (replaced & st & v & _ & _ & _ & Hlen & _ & Hfix).
  eexists. split; [exact Hfix|]. by split.
Qed.


End PipelineResults.

(** ** Medians and quartiles *)

Lemma at_sortNum_ascending arr sorted k :
  ascending sorted arr → (at_ (sortNum arr) k == at_ sorted k)%Q.
Proof.
  intros [Hp Hs]. apply sorted_perm_nth; [apply sortNum_sorted|done|].
  by rewrite sortNum_Permutation, Hp.
Qed.

Lemma at_sortNum_elem arr k : k < length arr → at_ (sortNum arr) k ∈ arr.
Proof.
  intros Hk.
  apply (elem_of_Permutation_proper _ _ _ (sortNum_Permutation arr)).
  apply list_elem_of_In, nth_In. by rewrite sortNum_length.
Qed.

Lemma getMedian_at arr : getMedian arr = at_ (sortNum arr) (length arr / 2).
Proof. unfold getMedian. by rewrite floorIdx_half, sortNum_length. Qed.

Lemma quartile1_at arr : quartile1 (sortNum arr) = at_ (sortNum arr) (length arr / 4).
Proof. unfold quartile1. by rewrite floorIdx_quarter, sortNum_length. Qed.

Lemma quartile3_at arr : quartile3 (sortNum arr) = at_ (sortNum arr) (3 * length arr / 4).
Proof. unfold quartile3. by rewrite floorIdx_three_quarters, sortNum_length. Qed.

Lemma rank_indices n :
  0 < n → n / 4 ≤ n / 2 ∧ n / 2 ≤ 3 * n / 4 ∧ 3 * n / 4 < n.
Proof.
  intros Hn.
  pose proof (Nat.div_mod_eq n 4). pose proof (Nat.mod_upper_bound n 4).
  pose proof (Nat.div_mod_eq n 2). pose proof (Nat.mod_upper_bound n 2).
  pose proof (Nat.div_mod_eq (3 * n) 4). pose proof (Nat.mod_upper_bound (3 * n) 4).
  lia.
Qed.

(** C3. The median is the element at index [floor (n / 2)] of the values in
    ascending order, and the quartiles are the elements at [floor (n * 0.25)]
    and [floor (n * 0.75)]; each is one of the given values (nothing is
    interpolated). For the ratios 0.1, 0.5, 0.5, 0.5, 0.9 both quartiles are
    0.5. *)
Theorem C3_nearest_rank (arr sorted : list Q) :
  ascending sorted arr →
  (getMedian arr == nearestRank 1 2 sorted)%Q ∧
  (quartile1 (sortNum arr) == nearestRank 1 4 sorted)%Q ∧
  (quartile3 (sortNum arr) == nearestRank 3 4 sorted)%Q ∧
  (arr ≠ [] →
   getMedian arr ∈ arr ∧ quartile1 (sortNum arr) ∈ arr ∧ quartile3 (sortNum arr) ∈ arr) ∧
  quartile1 (sortNum [0.1; 0.5; 0.5; 0.5; 0.9]%Q) = 0.5%Q ∧
  quartile3 (sortNum [0.1; 0.5; 0.5; 0.5; 0.9]%Q) = 0.5%Q.
Proof.
  intros Hasc. pose proof Hasc as [Hp _].
  assert (length sorted = length arr) as Hlen by (by rewrite Hp).
  rewrite getMedian_at, quartile1_at, quartile3_at. unfold nearestRank.
  rewrite Hlen, !Nat.mul_1_l.
  split; [by apply at_sortNum_ascending|].
  split; [by apply at_sortNum_ascending|].
  split; [by apply at_sortNum_ascending|].
  split; [|done].
  intros Hne.
  assert (0 < length arr) as Hn by (destruct arr; simpl; [done|lia]).
  destruct (rank_indices (length arr) Hn) as (? & ? & ?).
  repeat split; apply at_sortNum_elem; lia.
Qed.

(** ** What each pass contributes *)

Lemma channelCheck_elem opts stats frame ch a :
  a ∈ channelCheck opts stats frame ch ↔
  (50 < medianOf stats ch)%Q ∧
  (QofN (count (colors (fa_stats frame)) ch) / medianOf stats ch < colorRatioThreshold opts)%Q ∧
  a = mkAnomaly color_loss (Some ch)
        (if Qltb (QofN (count (colors (fa_stats frame)) ch) / medianOf stats ch) 0.2
         then severe else moderate)
        (ColorDetails (count (colors (fa_stats frame)) ch) (medianOf stats ch)
           (QofN (count (colors (fa_stats frame)) ch) / medianOf stats ch)).
Proof.
  unfold channelCheck.
  destruct (Qltb 50 (medianOf stats ch)) eqn:E1.
  - apply Qltb_lt in E1.
    destruct (Qltb _ (colorRatioThreshold opts)) eqn:E2.
    + apply Qltb_lt in E2. rewrite list_elem_of_singleton. tauto.
    + apply Qltb_ge in E2. rewrite elem_of_nil. split; [done|].
      intros (_ & H & _). by apply (Qlt_not_le _ _ H).
  - apply Qltb_ge in E1. rewrite elem_of_nil. split; [done|].
    intros (H & _). by apply (Qlt_not_le _ _ H).
Qed.

Lemma histogramAnomalies_elem opts stats frame a :
  a ∈ histogramAnomalies opts stats frame →
  (∃ ch, ch ∈ [darkGreen; brown; darkPixels] ∧ a ∈ channelCheck opts stats frame ch)
  ∨ a_type a = green_washout.
Proof.
  unfold histogramAnomalies.
  set (anomalies := flat_map (channelCheck opts stats frame) [darkGreen; brown; darkPixels]).
  assert (a ∈ anomalies →
          ∃ ch, ch ∈ [darkGreen; brown; darkPixels] ∧ a ∈ channelCheck opts stats frame ch)
    as Hbase.
  { unfold anomalies. rewrite list_elem_of_In, in_flat_map.
    intros (ch & Hch & Ha). exists ch. by rewrite !list_elem_of_In. }
  destruct (Qltb 100 (m_darkGreen stats)); [|by left; apply Hbase].
  destruct (Qltb _ (colorRatioThreshold opts)); [|by left; apply Hbase].
  destruct (existsb (onChannel darkGreen) anomalies); [by left; apply Hbase|].
  rewrite elem_of_app, list_elem_of_singleton. intros [?| ->]; [by left; apply Hbase|by right].
Qed.


Lemma opacityAnomaly_elem stats b frame a :
  a ∈ opacityAnomaly stats b frame ↔
  ((opaqueRatio (alpha (fa_stats frame)) < opacityLowerBound b)%Q
   ∨ (opacityUpperBound b < opaqueRatio (alpha (fa_stats frame)))%Q) ∧
  a = mkAnomaly
        (if Qltb (opaqueRatio (alpha (fa_stats frame))) (m_opaqueRatio stats)
         then transparency_hole else extra_opacity)
        None
        (if Qltb (opaqueRatio (alpha (fa_stats frame)))
                 (fl (opacityLowerBound b - opacityIQR b))
         then severe else moderate)
        (OpacityDetails (opaqueRatio (alpha (fa_stats frame))) (m_opaqueRatio stats)
                        (opacityLowerBound b) (opacityUpperBound b)).
Proof.
  unfold opacityAnomaly.
  destruct (Qltb _ (opacityLowerBound b)) eqn:E1.
  - apply Qltb_lt in E1. simpl. rewrite list_elem_of_singleton. tauto.
  - apply Qltb_ge in E1. simpl.
    destruct (Qltb (opacityUpperBound b) _) eqn:E2.
    + apply Qltb_lt in E2. rewrite list_elem_of_singleton. tauto.
    + apply Qltb_ge in E2. rewrite elem_of_nil. split; [done|].
      intros [[H|H] _]; by apply (Qlt_not_le _ _ H).
Qed.

Lemma haloAnomaly_type fa frame a : a ∈ haloAnomaly fa frame → a_type a = halo_effect.
Proof.
  unfold haloAnomaly. destruct (Qltb Lit.d0_08 _); [|by intros ?%elem_of_nil].
  by intros ->%list_elem_of_singleton.
Qed.

Lemma structuralAnomaly_elem opts pairs i a :
  a ∈ structuralAnomaly opts pairs i ↔
  ((ssimAt pairs (i - 1) < ssimOutlierThreshold pairs)%Q ∧
   (ssimAt pairs i < ssimOutlierThreshold pairs)%Q ∧
   (Qmin (ssimAt pairs (i - 1)) (ssimAt pairs i) < ssimThreshold opts)%Q) ∧
  a = mkAnomaly structural_damage None
        (if Qltb (Qmin (ssimAt pairs (i - 1)) (ssimAt pairs i)) Lit.d0_4
         then severe else moderate)
        (SsimDetails (ssimAt pairs (i - 1)) (ssimAt pairs i) (ssimOutlierThreshold pairs)).
Proof.
  unfold structuralAnomaly.
  destruct (Qltb (ssimAt pairs (i - 1)) (ssimOutlierThreshold pairs)) eqn:E1; simpl.
  2:{ apply Qltb_ge in E1. rewrite elem_of_nil. split; [done|].
      intros [(H & _ & _) _]. by apply (Qlt_not_le _ _ H). }
  destruct (Qltb (ssimAt pairs i) (ssimOutlierThreshold pairs)) eqn:E2; simpl.
  2:{ apply Qltb_ge in E2. rewrite elem_of_nil. split; [done|].
      intros [(_ & H & _) _]. by apply (Qlt_not_le _ _ H). }
  destruct (Qltb (Qmin (ssimAt pairs (i - 1)) (ssimAt pairs i)) (ssimThreshold opts)) eqn:E3.
  2:{ apply Qltb_ge in E3. rewrite elem_of_nil. split; [done|].
      intros [(_ & _ & H) _]. by apply (Qlt_not_le _ _ H). }
  apply Qltb_lt in E1, E2, E3. rewrite list_elem_of_singleton. tauto.
Qed.

Lemma pixelAnomaly_type opts diffs prev i a :
  a ∈ pixelAnomaly opts diffs prev i → a_type a = pixel_outlier.
Proof.
  unfold pixelAnomaly. destruct (Qltb _ _); [|by intros ?%elem_of_nil].
  destruct (negb _); [|by intros ?%elem_of_nil].
  by intros ->%list_elem_of_singleton.
Qed.

Section DetectionClaims.

Variable resizeContain : Frame → nat → nat → list Z.
Variable pixelmatch : list Z → list Z → nat → nat → nat.

(** The pass an anomaly of a given type comes from. *)
Lemma flagged_source fs opts j a :
  flagged (detectBadFrames resizeContain pixelmatch fs opts) j a →
  match a_type a with
  | color_loss =>
      ∃ frame ch, analyzeFrames fs !! j = Some frame ∧
        ch ∈ [darkGreen; brown; darkPixels] ∧
        a ∈ channelCheck opts (calculateMedianStats (analyzeFrames fs)) frame ch
  | transparency_hole | extra_opacity =>
      ∃ frame, analyzeFrames fs !! j = Some frame ∧
        a ∈ opacityAnomaly (calculateMedianStats (analyzeFrames fs))
                           (opacityBounds opts (analyzeFrames fs)) frame
  | structural_damage =>
      interior (length fs) j ∧ a ∈ structuralAnomaly opts (adjacentSSIM resizeContain fs) j
  | _ => True
  end.
Proof.
  intros [_ Ha]%flagged_detect.
  apply detectAnomalies_elem in Ha as [(frame & Hf & [Ha|[Ha|Ha]])|[[Hi Ha]|[Hi Ha]]].
  - apply histogramAnomalies_elem in Ha as [(ch & Hch & Ha)| ->]; [|done].
    pose proof Ha as (_ & _ & ->)%channelCheck_elem. simpl. eauto.
  - pose proof Ha as (_ & ->)%opacityAnomaly_elem. cbn [a_type].
    destruct (Qltb _ _); eauto.
  - by rewrite (haloAnomaly_type _ _ _ Ha).
  - pose proof Ha as (_ & ->)%structuralAnomaly_elem. cbn [a_type]. done.
  - by rewrite (pixelAnomaly_type _ _ _ _ _ Ha).
Qed.

Lemma adjacentSSIM_length fs : length (adjacentSSIM resizeContain fs) = length fs - 1.
Proof. unfold adjacentSSIM. by rewrite length_fmap, length_seq. Qed.

Lemma ssimAt_adjacent fs k :
  k < length fs - 1 →
  ssimAt (adjacentSSIM resizeContain fs) k
  = calculateSimplifiedSSIM (nth k (normalizeFrames resizeContain fs) [])
                            (nth (k + 1) (normalizeFrames resizeContain fs) [])
                            (max_list (width <$> fs)) (max_list (height <$> fs)).
Proof.
  intros Hk. unfold ssimAt, at_, adjacentSSIM.
  rewrite nth_lookup, <- list_fmap_compose, list_lookup_fmap.
  by rewrite (proj2 (lookup_seq 0 (length fs - 1) k k)).
Qed.

(** C4. In a sequence of at least three frames, a frame with a neighbour on
    both sides is flagged [structural_damage] exactly when its two adjacent
    scores are both below the floor Q1 - 3.0 * IQR of the adjacent scores
    and the smaller of the two is below [ssimThreshold]; with only one of
    the two scores below the floor it is not flagged so. The scores are
    those of calculateSimplifiedSSIM on the resized neighbours, and the
    floor is computed in doubles as the source does, the difference, the
    product and the difference again each rounded. *)
Theorem C4_structural_damage fs opts i :
  3 ≤ length fs → interior (length fs) i →
  let d := detectBadFrames resizeContain pixelmatch fs opts in
  let pairs := adjacentSSIM resizeContain fs in
  let sorted := sortNum (score <$> pairs) in
  length pairs = length fs - 1 ∧
  (∀ k, k < length fs - 1 →
     ssimAt pairs k
     = calculateSimplifiedSSIM (nth k (normalizeFrames resizeContain fs) [])
                               (nth (k + 1) (normalizeFrames resizeContain fs) [])
                               (max_list (width <$> fs)) (max_list (height <$> fs))) ∧
  ssimOutlierThreshold pairs
  = fl (quartile1 sorted - fl (3.0 * fl (quartile3 sorted - quartile1 sorted))) ∧
  ((∃ a, flagged d i a ∧ a_type a = structural_damage) ↔
   (ssimAt pairs (i - 1) < ssimOutlierThreshold pairs)%Q ∧
   (ssimAt pairs i < ssimOutlierThreshold pairs)%Q ∧
   (Qmin (ssimAt pairs (i - 1)) (ssimAt pairs i) < ssimThreshold opts)%Q) ∧
  (¬ ((ssimAt pairs (i - 1) < ssimOutlierThreshold pairs)%Q ∧
      (ssimAt pairs i < ssimOutlierThreshold pairs)%Q) →
   ∀ a, flagged d i a → a_type a ≠ structural_damage).
Proof.
  intros HN Hi d pairs sorted.
  split; [apply adjacentSSIM_length|].
  split; [apply ssimAt_adjacent|].
  split; [done|].
  assert ((∃ a, flagged d i a ∧ a_type a = structural_damage) ↔
          (ssimAt pairs (i - 1) < ssimOutlierThreshold pairs)%Q ∧
          (ssimAt pairs i < ssimOutlierThreshold pairs)%Q ∧
          (Qmin (ssimAt pairs (i - 1)) (ssimAt pairs i) < ssimThreshold opts)%Q) as Hiff.
  { split.
    - intros (a & Hfl & Hty). apply flagged_source in Hfl. rewrite Hty in Hfl.
      destruct Hfl as [_ Ha]. by apply structuralAnomaly_elem in Ha as [? _].
    - intros Hcond. eexists. split.
      + apply flagged_detect. split; [done|]. apply detectAnomalies_elem.
        right. left. split; [done|]. apply structuralAnomaly_elem. by split.
      + done. }
  split; [done|].
  intros Hnot a Hfl Hty. apply Hnot.
  destruct (proj1 Hiff) as (? & ? & _); [eauto|done].
Qed.

End DetectionClaims.

(** ** The median of a sequence with one low count *)



Lemma QofN_le a b : a ≤ b ↔ (QofN a <= QofN b)%Q.
Proof. unfold QofN. rewrite <- Zle_Qle. lia. Qed.

Lemma QofN_lt a b : a < b ↔ (QofN a < QofN b)%Q.
Proof. unfold QofN. rewrite <- Zlt_Qlt. lia. Qed.


Lemma medianOf_channel fa ch :
  ch ∈ [darkGreen; brown; darkPixels] →
  medianOf (calculateMedianStats fa) ch
  = getMedian (QofN <$> ((λ f, count (colors (fa_stats f)) ch) <$> fa)).
Proof.
  intros Hch. rewrite <- list_fmap_compose.
  repeat (apply elem_of_cons in Hch as [->|Hch]; [done|]).
  by apply elem_of_nil in Hch.
Qed.

Lemma analyzeFrames_at fs i f :
  fs !! i = Some f →
  analyzeFrames fs !! i
  = Some (mkFrameAnalysis i f (analyzePixels (data f) (width f) (height f))).
Proof. intros H. by rewrite analyzeFrames_lookup, H. Qed.

(** ** The order of the opacity bounds *)

Lemma analyzeFrames_doubles fs f :
  f ∈ analyzeFrames fs →
  fl (opaqueRatio (alpha (fa_stats f))) = opaqueRatio (alpha (fa_stats f)) ∧
  fl (semiTransRatio (alpha (fa_stats f))) = semiTransRatio (alpha (fa_stats f)).
Proof.
  intros [i Hi]%list_elem_of_lookup. rewrite analyzeFrames_lookup in Hi.
  destruct (fs !! i) as [g|]; [|done]. injection Hi as <-.
  unfold analyzePixels. cbn [fa_stats].
  destruct (foldl _ _ _) as [cs al]. cbn [alpha opaqueRatio semiTransRatio].
  split; apply fl_idem.
Qed.

Lemma opacity_order opts fa :
  fa ≠ [] → (0 <= opacityIQRMultiplier opts)%Q →
  (∀ f, f ∈ fa → fl (opaqueRatio (alpha (fa_stats f))) = opaqueRatio (alpha (fa_stats f))) →
  let b := opacityBounds opts fa in
  (opacityLowerBound b <= m_opaqueRatio (calculateMedianStats fa))%Q ∧
  (m_opaqueRatio (calculateMedianStats fa) <= opacityUpperBound b)%Q ∧
  (0 <= opacityIQR b)%Q.
Proof.
  intros Hne Hk Hdbl. unfold opacityBounds, calculateMedianStats. cbn zeta.
  cbn [opacityLowerBound opacityUpperBound opacityIQR m_opaqueRatio].
  set (vals := (λ f, opaqueRatio (alpha (fa_stats f))) <$> fa).
  assert (0 < length vals) as Hn.
  { unfold vals. rewrite length_fmap. destruct fa; simpl; [done|lia]. }
  assert (∀ v, v ∈ vals → fl v = v) as Hvals.
  { intros v (f & -> & Hf)%list_elem_of_fmap. by apply Hdbl. }
  rewrite getMedian_at, quartile1_at, quartile3_at.
  destruct (rank_indices (length vals) Hn) as (H1 & H2 & H3).
  pose proof (Hvals _ (at_sortNum_elem vals (length vals / 4) ltac:(lia))) as D1.
  pose proof (Hvals _ (at_sortNum_elem vals _ H3)) as D3.
  pose proof (sortNum_sorted vals) as Hs.
  assert (at_ (sortNum vals) (length vals / 4) <= at_ (sortNum vals) (length vals / 2))%Q as A1.
  { apply sorted_at_mono; [done|done|]. rewrite sortNum_length. lia. }
  assert (at_ (sortNum vals) (length vals / 2) <= at_ (sortNum vals) (3 * length vals / 4))%Q
    as A2.
  { apply sorted_at_mono; [done|done|]. by rewrite sortNum_length. }
  set (q1 := at_ (sortNum vals) (length vals / 4)) in *.
  set (md := at_ (sortNum vals) (length vals / 2)) in *.
  set (q3 := at_ (sortNum vals) (3 * length vals / 4)) in *.
  assert (0 <= q3 - q1)%Q as Hiqr' by lra.
  pose proof (fl_nonneg _ Hiqr') as Hiqr.
  pose proof (fl_nonneg _ (Qmult_le_0_compat _ _ Hk Hiqr)) as Hp.
  set (p := fl (opacityIQRMultiplier opts * fl (q3 - q1))%Q) in *.
  assert (fl (q1 - p) <= fl q1)%Q as L by (apply fl_mono; lra).
  assert (fl q3 <= fl (q3 + p))%Q as U by (apply fl_mono; lra).
  rewrite D1 in L. rewrite D3 in U.
  repeat split; [lra|lra|done].
Qed.

Section OpacityClaims.

Variable resizeContain : Frame → nat → nat → list Z.
Variable pixelmatch : list Z → list Z → nat → nat → nat.

(** The opacity pass on a sequence of at least three frames, with a
    multiplier that is not negative: which frames get which type, and the
    severities the code gives. An [extra_opacity] anomaly is never
    [severe]. *)
Lemma opacity_flags fs opts j f :
  3 ≤ length fs → (0 <= opacityIQRMultiplier opts)%Q → fs !! j = Some f →
  let d := detectBadFrames resizeContain pixelmatch fs opts in
  let b := opacityBounds opts (analyzeFrames fs) in
  ((∃ a, flagged d j a ∧ a_type a = transparency_hole)
   ↔ (opaqueRatioOf f < opacityLowerBound b)%Q) ∧
  ((∃ a, flagged d j a ∧ a_type a = extra_opacity)
   ↔ (opacityUpperBound b < opaqueRatioOf f)%Q) ∧
  (∀ a, flagged d j a → a_type a = transparency_hole →
        (a_severity a = severe
         ↔ (opaqueRatioOf f < fl (opacityLowerBound b - opacityIQR b))%Q)) ∧
  (∀ a, flagged d j a → a_type a = extra_opacity → a_severity a = moderate).
Proof.
  intros HN Hk Hf d b.
  assert (fl (opacityLowerBound b) = opacityLowerBound b) as Hlb.
  { unfold b, opacityBounds. cbn zeta. cbn [opacityLowerBound]. apply fl_idem. }
  assert (analyzeFrames fs ≠ []) as Hne.
  { intros E. pose proof (analyzeFrames_length fs) as Hl. rewrite E in Hl. simpl in Hl. lia. }
  destruct (opacity_order opts (analyzeFrames fs) Hne Hk) as (Hlo & Hhi & Hiqr).
  { intros g Hg. by destruct (analyzeFrames_doubles fs g Hg). }
  fold b in Hlo, Hhi, Hiqr.
  set (stats := calculateMedianStats (analyzeFrames fs)) in *.
  pose proof (analyzeFrames_at fs j f Hf) as Hfa.
  set (frame := mkFrameAnalysis j f (analyzePixels (data f) (width f) (height f))) in *.
  assert (∀ a, a ∈ opacityAnomaly stats b frame → flagged d j a) as Hflag.
  { intros a Ha. apply flagged_detect. split; [done|]. apply detectAnomalies_elem.
    left. exists frame. split; [done|]. right. by left. }
  assert (∀ a, flagged d j a → a_type a = transparency_hole ∨ a_type a = extra_opacity →
               a ∈ opacityAnomaly stats b frame) as Hsrc.
  { intros a Hfl Hty. apply flagged_source in Hfl.
    destruct Hty as [Hty|Hty]; rewrite Hty in Hfl;
      destruct Hfl as (frame' & Hfr & Ha); rewrite Hfa in Hfr; by injection Hfr as <-. }
  change (opaqueRatioOf f) with (opaqueRatio (alpha (fa_stats frame))).
  set (r := opaqueRatio (alpha (fa_stats frame))) in *.
  split.
  { split.
    - intros (a & Hfl & Hty). pose proof (Hsrc a Hfl (or_introl Hty)) as Ha.
      apply opacityAnomaly_elem in Ha as [Hout ->]. fold r in Hout |- *. cbn [a_type] in Hty. fold r in Hty.
      destruct (Qltb r (m_opaqueRatio stats)) eqn:E; [|done].
      apply Qltb_lt in E. destruct Hout as [?|?]; [done|lra].
    - intros Hlow. eexists. split.
      + apply Hflag, opacityAnomaly_elem. split; [by left|done].
      + cbn [a_type]. fold r. assert (Qltb r (m_opaqueRatio stats) = true) as ->; [|done].
        apply Qltb_lt. lra. }
  split.
  { split.
    - intros (a & Hfl & Hty). pose proof (Hsrc a Hfl (or_intror Hty)) as Ha.
      apply opacityAnomaly_elem in Ha as [Hout ->]. fold r in Hout |- *. cbn [a_type] in Hty. fold r in Hty.
      destruct (Qltb r (m_opaqueRatio stats)) eqn:E; [done|].
      apply Qltb_ge in E. destruct Hout as [?|?]; [lra|done].
    - intros Hhigh. eexists. split.
      + apply Hflag, opacityAnomaly_elem. split; [by right|done].
      + cbn [a_type]. fold r. assert (Qltb r (m_opaqueRatio stats) = false) as ->; [|done].
        apply Qltb_ge. lra. }
  split.
  { intros a Hfl Hty. pose proof (Hsrc a Hfl (or_introl Hty)) as Ha.
    apply opacityAnomaly_elem in Ha as [_ ->]. cbn [a_severity]. fold r.
    destruct (Qltb r (fl (opacityLowerBound b - opacityIQR b))) eqn:E.
    - apply Qltb_lt in E. done.
    - apply Qltb_ge in E. split; [done|]. intros H. by destruct (Qlt_not_le _ _ H). }
  intros a Hfl Hty. pose proof (Hsrc a Hfl (or_intror Hty)) as Ha.
  apply opacityAnomaly_elem in Ha as [_ ->]. cbn [a_type a_severity] in *. fold r in Hty |- *.
  destruct (Qltb r (m_opaqueRatio stats)) eqn:E; [done|]. apply Qltb_ge in E.
  assert (Qltb r (fl (opacityLowerBound b - opacityIQR b)) = false) as ->; [|done].
  apply Qltb_ge.
  assert (fl (opacityLowerBound b - opacityIQR b) <= fl (opacityLowerBound b))%Q as L
    by (apply fl_mono; lra).
  rewrite Hlb in L. lra.
Qed.


End OpacityClaims.

(** ** The claims on sample inputs *)

Import Examples.

Ltac frames_wf :=
  repeat first [apply Forall_nil_2 | apply Forall_cons_2];
  unfold wfFrame; vm_compute; repeat split; lia.

(** C5 (the code at the failing input). Four frames are half opaque and the
    fifth is fully opaque: the upper bound is 0.5 and the IQR is 0, so the
    fifth frame lies more than one IQR beyond the bound; it is flagged
    [extra_opacity], and with severity [moderate]. *)
Theorem C5_extra_opacity_moderate
    (resizeContain : Frame → nat → nat → list Z)
    (pixelmatch : list Z → list Z → nat → nat → nat) :
  let d := detectBadFrames resizeContain pixelmatch opacityFrames defaultOptions in
  let b := opacityBounds defaultOptions (analyzeFrames opacityFrames) in
  (opacityUpperBound b == 0.5)%Q ∧ (opacityIQR b == 0)%Q ∧
  (opaqueRatioOf fullOpaque == 1)%Q ∧
  (opacityIQR b < opaqueRatioOf fullOpaque - opacityUpperBound b)%Q ∧
  (∃ a, flagged d 4 a ∧ a_type a = extra_opacity) ∧
  (∀ a, flagged d 4 a → a_type a = extra_opacity → a_severity a = moderate).
Proof.
  intros d b.
  split; [by vm_compute|]. split; [by vm_compute|]. split; [by vm_compute|].
  split; [by vm_compute|].
  destruct (opacity_flags resizeContain pixelmatch opacityFrames defaultOptions 4 fullOpaque)
    as (_ & Hextra & _ & Hsev).
  - simpl. lia.
  - by vm_compute.
  - done.
  - split; [|done]. apply Hextra. by vm_compute.
Qed.

Lemma C2_witness :
  Forall wfFrame [onePixel; halfOpaque] ∧
  ∃ out, stabilizeFrames [onePixel; halfOpaque] = Some out ∧ length out = 2.
Proof.
  assert (Forall wfFrame [onePixel; halfOpaque]) as Hwf by frames_wf.
  split; [exact Hwf|].
  destruct (C2_stabilize_canvas [onePixel; halfOpaque] Hwf) as (out & Hout & Hlen & _).
  exists out. split; [exact Hout|exact Hlen].
Defined.

(** The canvas of a single opaque pixel is 41 by 41, not 21 by 21. *)
Lemma C2_counterexample :
  wfFrame onePixel ∧
  maxContentWidth [onePixel] = 1 ∧ maxContentHeight [onePixel] = 1 ∧
  ∃ o, stabilizeFrames [onePixel] = Some [o] ∧ width o = 41 ∧ height o = 41 ∧
       width o ≠ maxContentWidth [onePixel] + 20 ∧
       height o ≠ maxContentHeight [onePixel] + 20.
Proof.
  assert (wfFrame onePixel) as Hwf by (unfold wfFrame; vm_compute; repeat split; lia).
  split; [exact Hwf|]. split; [reflexivity|]. split; [reflexivity|].
  exists (placed 41 41 onePixel).
  split.
  { rewrite stabilizeFrames_placed by (by apply Forall_cons_2; [|apply Forall_nil_2]).
    reflexivity. }
  split; [reflexivity|]. split; [reflexivity|].
  split; intros H; change (41 = 21) in H; discriminate H.
Qed.

Lemma C3_witness :
  ascending [0.1; 0.5; 0.5; 0.5; 0.9]%Q [0.5; 0.9; 0.1; 0.5; 0.5]%Q ∧
  (getMedian [0.5; 0.9; 0.1; 0.5; 0.5]%Q == 0.5)%Q.
Proof.
  assert (ascending [0.1; 0.5; 0.5; 0.5; 0.9]%Q [0.5; 0.9; 0.1; 0.5; 0.5]%Q) as Hasc.
  { split.
    - change [0.1; 0.5; 0.5; 0.5; 0.9]%Q with (sortNum [0.5; 0.9; 0.1; 0.5; 0.5]%Q).
      apply sortNum_Permutation.
    - change [0.1; 0.5; 0.5; 0.5; 0.9]%Q with (sortNum [0.5; 0.9; 0.1; 0.5; 0.5]%Q).
      apply sortNum_sorted. }
  split; [exact Hasc|].
  destruct (C3_nearest_rank _ _ Hasc) as (Hmed & _). exact Hmed.
Defined.

Lemma C4_witness :
  3 ≤ length flickerFrames ∧ interior (length flickerFrames) 4 ∧
  ∃ a, flagged (detectBadFrames sameSize countDiff flickerFrames defaultOptions) 4 a ∧
       a_type a = structural_damage.
Proof.
  assert (3 ≤ length flickerFrames) as Hlen by (simpl; lia).
  assert (interior (length flickerFrames) 4) as Hint by (unfold interior; simpl; lia).
  split; [exact Hlen|]. split; [exact Hint|].
  destruct (C4_structural_damage sameSize countDiff flickerFrames defaultOptions 4 Hlen Hint)
    as (_ & _ & _ & Hiff & _).
  apply Hiff. by vm_compute.
Defined.


Lemma C7_witness :
  length [onePixel; blankPixel] < 3 ∧ Forall wfFrame [onePixel; blankPixel] ∧
  detectBadFrames sameSize countDiff [onePixel; blankPixel] defaultOptions
  = mkDetection [] [].
Proof.
  assert (length [onePixel; blankPixel] < 3) as Hlen by (simpl; lia).
  assert (Forall wfFrame [onePixel; blankPixel]) as Hwf by frames_wf.
  split; [exact Hlen|]. split; [exact Hwf|].
  destruct (C7_short_sequence sameSize countDiff [onePixel; blankPixel] defaultOptions
              Hlen Hwf) as [Hd _].
  exact Hd.
Defined.

Lemma C8_witness :
  Forall wfFrame [onePixel; halfOpaque] ∧ Forall hasContent [onePixel; halfOpaque] ∧
  ∃ out, stabilizeFrames [onePixel; halfOpaque] = Some out ∧ stabilizeFrames out = Some out.
Proof.
  assert (Forall wfFrame [onePixel; halfOpaque]) as Hwf by frames_wf.
  assert (Forall hasContent [onePixel; halfOpaque]) as Hc.
  { repeat first [apply Forall_nil_2 | apply Forall_cons_2];
      exists 0, 0; (split; [simpl; lia|]); (split; [simpl; lia|]); by vm_compute. }
  split; [exact Hwf|]. split; [exact Hc|].
  exact (C8_stabilize_idempotent [onePixel; halfOpaque] Hwf Hc).
Defined.

(** A fully transparent pixel: its canvas is 41 by 41, and the canvas of the
    stabilized frame is 81 by 81. *)
Lemma C8_counterexample :
  wfFrame blankPixel ∧
  ∃ once twice,
    stabilizeFrames [blankPixel] = Some [once] ∧
    stabilizeFrames [once] = Some [twice] ∧
    width once = 41 ∧ width twice = 81 ∧ twice ≠ once.
Proof.
  assert (wfFrame blankPixel) as Hwf by (unfold wfFrame; vm_compute; repeat split; lia).
  split; [exact Hwf|].
  exists (placed 41 41 blankPixel), (placed 81 81 (placed 41 41 blankPixel)).
  assert (maxContentWidth [placed 41 41 blankPixel] = 41) as Ew by (vm_compute; reflexivity).
  assert (maxContentHeight [placed 41 41 blankPixel] = 41) as Eh by (vm_compute; reflexivity).
  split.
  { rewrite stabilizeFrames_placed by (by apply Forall_cons_2; [|apply Forall_nil_2]).
    reflexivity. }
  split.
  { rewrite stabilizeFrames_placed.
    - rewrite Ew, Eh. reflexivity.
    - apply Forall_cons_2; [|apply Forall_nil_2]. apply placed_wf; lia. }
  split; [reflexivity|]. split; [reflexivity|].
  intros H. apply (f_equal width) in H. change (81 = 41) in H. discriminate H.
Qed.

Lemma C10_witness :
  Forall wfFrame opacityFrames ∧
  ∃ r, autoFix sameSize countDiff opacityFrames defaultOptions = Some r ∧
       length (frames r) = 5 ∧ totalFrames (report r) = 5.
Proof.
  assert (Forall wfFrame opacityFrames) as Hwf by frames_wf.
  split; [exact Hwf|].
  exact (C10_length_preserved sameSize countDiff opacityFrames defaultOptions Hwf).
Defined.

(** * Further properties of the pipeline *)

(** ** The histogram pass never reports [green_washout] *)

Lemma histogramAnomalies_channels opts stats frame :
  histogramAnomalies opts stats frame
  = flat_map (channelCheck opts stats frame) [darkGreen; brown; darkPixels].
Proof.
  unfold histogramAnomalies.
  set (anomalies := flat_map (channelCheck opts stats frame) [darkGreen; brown; darkPixels]).
  destruct (Qltb 100 (m_darkGreen stats)) eqn:E1; [|done].
  destruct (Qltb _ (colorRatioThreshold opts)) eqn:E2; [|done].
  assert (existsb (onChannel darkGreen) anomalies = true) as ->; [|done].
  apply Qltb_lt in E1, E2.
  set (w := mkAnomaly color_loss (Some darkGreen)
              (if Qltb (QofN (count (colors (fa_stats frame)) darkGreen)
                        / medianOf stats darkGreen) 0.2 then severe else moderate)
              (ColorDetails (count (colors (fa_stats frame)) darkGreen)
                 (medianOf stats darkGreen)
                 (QofN (count (colors (fa_stats frame)) darkGreen)
                  / medianOf stats darkGreen))).
  assert (w ∈ channelCheck opts stats frame darkGreen) as Hin.
  { apply channelCheck_elem. split; [|by split]. simpl. lra. }
  apply existsb_exists. exists w. split; [|reflexivity].
  unfold anomalies. apply in_flat_map. exists darkGreen.
  split; [by left|]. by apply list_elem_of_In.
Qed.

Lemma histogramAnomalies_color_loss opts stats frame a :
  a ∈ histogramAnomalies opts stats frame → a_type a = color_loss.
Proof.
  rewrite histogramAnomalies_channels, list_elem_of_In, in_flat_map.
  intros (ch & _ & Ha%list_elem_of_In). by apply channelCheck_elem in Ha as (_ & _ & ->).
Qed.

Lemma haloAnomaly_elem fa frame a :
  a ∈ haloAnomaly fa frame ↔
  (Lit.d0_08 < fl (semiTransRatio (alpha (fa_stats frame)) - semiTransQ3 fa))%Q ∧
  a = mkAnomaly halo_effect None
        (if Qltb Lit.d0_15 (fl (semiTransRatio (alpha (fa_stats frame)) - semiTransQ3 fa))
         then severe else moderate)
        (HaloDetails (semiTransRatio (alpha (fa_stats frame))) (semiTransQ3 fa)
           (fl (semiTransRatio (alpha (fa_stats frame)) - semiTransQ3 fa))).
Proof.
  unfold haloAnomaly. fold (semiTransQ3 fa).
  destruct (Qltb Lit.d0_08 _) eqn:E.
  - apply Qltb_lt in E. rewrite list_elem_of_singleton.
    split; [intros ->; split; [exact E|reflexivity]|by intros [_ ->]].
  - apply Qltb_ge in E. rewrite elem_of_nil. split; [done|].
    intros [H _]. by destruct (Qlt_not_le _ _ H).
Qed.

Lemma pixelAnomaly_elem opts diffs prev i a :
  a ∈ pixelAnomaly opts diffs prev i ↔
  (outlierThreshold opts diffs < avgDiff diffs i)%Q ∧
  existsb (isType structural_damage) prev = false ∧
  a = mkAnomaly pixel_outlier None
        (if Qltb (fl (getMedian diffs * 4)) (avgDiff diffs i) then severe else moderate)
        (DiffDetails (avgDiff diffs i) (getMedian diffs) (outlierThreshold opts diffs)).
Proof.
  unfold pixelAnomaly. fold (getMedian diffs). fold (outlierThreshold opts diffs).
  fold (avgDiff diffs i).
  destruct (Qltb (outlierThreshold opts diffs) (avgDiff diffs i)) eqn:E.
  - apply Qltb_lt in E. destruct (existsb (isType structural_damage) prev); cbn [negb].
    + rewrite elem_of_nil. split; [done|]. by intros (_ & ? & _).
    + rewrite list_elem_of_singleton.
      split; [intros ->; split; [exact E|split; reflexivity]|by intros (_ & _ & ->)].
  - apply Qltb_ge in E. rewrite elem_of_nil. split; [done|].
    intros [H _]. by destruct (Qlt_not_le _ _ H).
Qed.

Lemma isType_spec t a : isType t a = true ↔ a_type a = t.
Proof. unfold isType. destruct t, (a_type a); split; congruence. Qed.

Lemma existsb_isType t (l : list Anomaly) :
  existsb (isType t) l = true ↔ ∃ a, a ∈ l ∧ a_type a = t.
Proof.
  rewrite existsb_exists. split.
  - intros (a & Ha & Ht). exists a. by rewrite list_elem_of_In, <- isType_spec.
  - intros (a & Ha & Ht). exists a. by rewrite <- list_elem_of_In, isType_spec.
Qed.

Section MorePasses.

Variable resizeContain : Frame → nat → nat → list Z.
Variable pixelmatch : list Z → list Z → nat → nat → nat.

(** X3. No frame is ever flagged [green_washout]: whenever the special
    check for the green bucket fires, the loop over the buckets has already
    recorded a [color_loss] on it. *)
Theorem green_washout_never fs opts j a :
  flagged (detectBadFrames resizeContain pixelmatch fs opts) j a →
  a_type a ≠ green_washout.
Proof.
  intros [_ Ha]%flagged_detect Hty.
  apply detectAnomalies_elem in Ha as [(frame & Hf & [Ha|[Ha|Ha]])|[[Hi Ha]|[Hi Ha]]].
  - by rewrite (histogramAnomalies_color_loss _ _ _ _ Ha) in Hty.
  - apply opacityAnomaly_elem in Ha as (_ & ->). cbn [a_type] in Hty. by destruct (Qltb _ _).
  - by rewrite (haloAnomaly_type _ _ _ Ha) in Hty.
  - apply structuralAnomaly_elem in Ha as (_ & ->). done.
  - by rewrite (pixelAnomaly_type _ _ _ _ _ Ha) in Hty.
Qed.

(** X4. A frame is flagged [halo_effect] exactly when the excess of its
    semi-transparent ratio over the third quartile of that ratio over the
    frames, the difference of the two doubles as the source computes it
    ([haloExcess]), is above the double nearest to 0.08; the anomaly is
    [severe] exactly when the excess is above the double nearest to 0.15.
    The two literals are [Lit.d0_08 = fl 0.08], which lies above 0.08, and
    [Lit.d0_15 = fl 0.15], which lies below 0.15. *)
Theorem halo_flags fs opts j f :
  3 ≤ length fs → fs !! j = Some f →
  let d := detectBadFrames resizeContain pixelmatch fs opts in
  let excess := haloExcess fs f in
  ((∃ a, flagged d j a ∧ a_type a = halo_effect) ↔ (Lit.d0_08 < excess)%Q) ∧
  (∀ a, flagged d j a → a_type a = halo_effect →
        (a_severity a = severe ↔ (Lit.d0_15 < excess)%Q)) ∧
  Lit.d0_08 = fl 0.08 ∧ (0.08 < Lit.d0_08)%Q ∧
  Lit.d0_15 = fl 0.15 ∧ (Lit.d0_15 < 0.15)%Q.
Proof.
  intros HN Hf d excess.
  pose proof (analyzeFrames_at fs j f Hf) as Hfa.
  set (frame := mkFrameAnalysis j f (analyzePixels (data f) (width f) (height f))) in *.
  assert (∀ a, flagged d j a → a_type a = halo_effect →
               a ∈ haloAnomaly (analyzeFrames fs) frame) as Hsrc.
  { intros a [_ Ha]%flagged_detect Hty.
    apply detectAnomalies_elem in Ha as [(frame' & Hf' & [Ha|[Ha|Ha]])|[[Hi Ha]|[Hi Ha]]].
    - by rewrite (histogramAnomalies_color_loss _ _ _ _ Ha) in Hty.
    - apply opacityAnomaly_elem in Ha as (_ & ->). cbn [a_type] in Hty. by destruct (Qltb _ _).
    - rewrite Hfa in Hf'. by injection Hf' as <-.
    - apply structuralAnomaly_elem in Ha as (_ & ->). done.
    - by rewrite (pixelAnomaly_type _ _ _ _ _ Ha) in Hty. }
  split; [|split].
  - split.
    + intros (a & Hfl & Hty). by apply (Hsrc a Hfl), haloAnomaly_elem in Hty as [? _].
    + intros Hex. eexists. split.
      * apply flagged_detect. split; [done|]. apply detectAnomalies_elem.
        left. exists frame. split; [done|]. right. right.
        apply haloAnomaly_elem. split; [exact Hex|reflexivity].
      * reflexivity.
  - intros a Hfl Hty. apply (Hsrc a Hfl), haloAnomaly_elem in Hty as [_ ->].
    cbn [a_severity]. change (semiTransRatio (alpha (fa_stats frame))) with (semiTransRatioOf f).
    fold (haloExcess fs f). fold excess. destruct (Qltb Lit.d0_15 excess) eqn:E.
    + apply Qltb_lt in E. split; [intros _; exact E|reflexivity].
    + apply Qltb_ge in E. split; [discriminate|].
      intros H. by destruct (Qlt_not_le _ _ H).
  - split; [vm_compute; reflexivity|]. split; [vm_compute; reflexivity|].
    split; vm_compute; reflexivity.
Qed.

Lemma consecutiveDiffs_length fs :
  length (consecutiveDiffs resizeContain pixelmatch fs) = length fs - 1.
Proof. unfold consecutiveDiffs. by rewrite length_fmap, length_seq. Qed.

Lemma consecutiveDiffs_at fs k :
  k < length fs - 1 →
  at_ (consecutiveDiffs resizeContain pixelmatch fs) k
  = fl (QofN (pixelmatch (nth k (normalizeFrames resizeContain fs) [])
                         (nth (k + 1) (normalizeFrames resizeContain fs) [])
                         (max_list (width <$> fs)) (max_list (height <$> fs)))
        / QofN (max_list (width <$> fs) * max_list (height <$> fs))).
Proof.
  intros Hk. unfold at_, consecutiveDiffs.
  rewrite nth_lookup, list_lookup_fmap.
  by rewrite (proj2 (lookup_seq 0 (length fs - 1) k k)).
Qed.

(** The anomalies a frame has before the pixel-difference pass. *)
Lemma structural_before_pixel fs opts j :
  let stats := calculateMedianStats (analyzeFrames fs) in
  existsb (isType structural_damage)
    (getAnomalies (method3 resizeContain opts fs
       (method2 opts stats (analyzeFrames fs) (method1 opts stats (analyzeFrames fs) ∅))) j)
  = true
  ↔ interior (length fs) j ∧
    ∃ a, a ∈ structuralAnomaly opts (adjacentSSIM resizeContain fs) j.
Proof.
  intros stats. rewrite existsb_isType. rewrite method3_get, method2_get, method1_get
    by apply analyzeFrames_selfIndexed.
  split.
  - intros (a & Ha & Hty). rewrite !elem_of_app in Ha.
    destruct Ha as [[Ha|Ha]|Ha].
    + destruct (analyzeFrames fs !! j); simpl in Ha; [|by apply elem_of_nil in Ha].
      by rewrite (histogramAnomalies_color_loss _ _ _ _ Ha) in Hty.
    + destruct (analyzeFrames fs !! j); simpl in Ha; [|by apply elem_of_nil in Ha].
      apply elem_of_app in Ha as [Ha|Ha].
      * apply opacityAnomaly_elem in Ha as (_ & ->). cbn [a_type] in Hty. by destruct (Qltb _ _).
      * by rewrite (haloAnomaly_type _ _ _ Ha) in Hty.
    + destruct (decide (interior (length fs) j)); [eauto|by apply elem_of_nil in Ha].
  - intros (Hi & a & Ha). exists a. split.
    + rewrite !elem_of_app. right. by rewrite decide_True.
    + by apply structuralAnomaly_elem in Ha as (_ & ->).
Qed.

(** X5. A frame with a neighbour on both sides is flagged [pixel_outlier]
    exactly when the average of its two adjacent difference ratios exceeds
    max(2.5 * median, pixelDiffThreshold) and it is not flagged
    [structural_damage]; the anomaly is [severe] exactly when the average
    exceeds four times the median. No frame carries both types. Every
    ratio, the average ([avgDiff]: the sum rounded, then halved), the
    product in the bound ([outlierThreshold]) and the product with four are
    doubles, each operation rounded as the source computes it; the anomaly
    records the average, the median and the bound. *)
Theorem pixel_outlier_flags fs opts i :
  3 ≤ length fs → interior (length fs) i →
  let d := detectBadFrames resizeContain pixelmatch fs opts in
  let diffs := consecutiveDiffs resizeContain pixelmatch fs in
  (∀ k, k < length fs - 1 →
     at_ diffs k
     = fl (QofN (pixelmatch (nth k (normalizeFrames resizeContain fs) [])
                            (nth (k + 1) (normalizeFrames resizeContain fs) [])
                            (max_list (width <$> fs)) (max_list (height <$> fs)))
           / QofN (max_list (width <$> fs) * max_list (height <$> fs)))) ∧
  ((∃ a, flagged d i a ∧ a_type a = pixel_outlier) ↔
   (outlierThreshold opts diffs < avgDiff diffs i)%Q ∧
   ¬ ∃ a, flagged d i a ∧ a_type a = structural_damage) ∧
  (∀ a, flagged d i a → a_type a = pixel_outlier →
        (a_severity a = severe ↔ (fl (getMedian diffs * 4) < avgDiff diffs i)%Q)) ∧
  (∀ a, flagged d i a → a_type a = pixel_outlier →
        a_details a = DiffDetails (avgDiff diffs i) (getMedian diffs)
                                  (outlierThreshold opts diffs)).
Proof.
  intros HN Hi d diffs.
  set (stats := calculateMedianStats (analyzeFrames fs)).
  set (prev := getAnomalies (method3 resizeContain opts fs
                 (method2 opts stats (analyzeFrames fs)
                    (method1 opts stats (analyzeFrames fs) ∅))) i).
  assert (∀ a, flagged d i a ∧ a_type a = pixel_outlier ↔
               a ∈ pixelAnomaly opts diffs prev i) as Hpix.
  { intros a. split.
    - intros [[_ Ha]%flagged_detect Hty].
      apply detectAnomalies_elem in Ha as [(frame' & Hf' & [Ha|[Ha|Ha]])|[[_ Ha]|[_ Ha]]].
      + by rewrite (histogramAnomalies_color_loss _ _ _ _ Ha) in Hty.
      + apply opacityAnomaly_elem in Ha as (_ & ->). cbn [a_type] in Hty. by destruct (Qltb _ _).
      + by rewrite (haloAnomaly_type _ _ _ Ha) in Hty.
      + apply structuralAnomaly_elem in Ha as (_ & ->). done.
      + done.
    - intros Ha. split; [|by apply pixelAnomaly_type in Ha].
      apply flagged_detect. split; [done|]. apply detectAnomalies_elem. right. right. done. }
  assert ((∃ a, flagged d i a ∧ a_type a = structural_damage) ↔
          existsb (isType structural_damage) prev = true) as Hstr.
  { unfold prev, stats. rewrite structural_before_pixel. split.
    - intros (a & Hfl & Hty). apply flagged_source in Hfl. rewrite Hty in Hfl.
      destruct Hfl as [? ?]. eauto.
    - intros (_ & a & Ha). exists a. split; [|by apply structuralAnomaly_elem in Ha as (_ & ->)].
      apply flagged_detect. split; [done|]. apply detectAnomalies_elem. right. left. done. }
  split; [apply consecutiveDiffs_at|].
  split; [|split].
  - split.
    + intros (a & Ha). apply Hpix, pixelAnomaly_elem in Ha as (Hgt & Hno & _).
      split; [exact Hgt|]. rewrite Hstr. congruence.
    + intros [Hgt Hno]. eexists. apply Hpix, pixelAnomaly_elem.
      split; [exact Hgt|]. split; [|reflexivity].
      destruct (existsb (isType structural_damage) prev) eqn:E; [|reflexivity].
      destruct Hno. by apply Hstr.
  - intros a Hfl Hty.
    pose proof (proj1 (Hpix a) (conj Hfl Hty)) as Ha.
    apply pixelAnomaly_elem in Ha as (_ & _ & ->).
    cbn [a_severity]. destruct (Qltb (fl (getMedian diffs * 4)) (avgDiff diffs i)) eqn:E.
    + apply Qltb_lt in E. split; [intros _; exact E|reflexivity].
    + apply Qltb_ge in E. split; [discriminate|].
      intros H. by destruct (Qlt_not_le _ _ H).
  - intros a Hfl Hty.
    pose proof (proj1 (Hpix a) (conj Hfl Hty)) as Ha.
    by apply pixelAnomaly_elem in Ha as (_ & _ & ->).
Qed.

(** X6. Only frames with a neighbour on both sides can be flagged
    [structural_damage] or [pixel_outlier]: the first and the last frame
    never are. *)
Theorem adjacency_flags_interior fs opts j a :
  flagged (detectBadFrames resizeContain pixelmatch fs opts) j a →
  a_type a = structural_damage ∨ a_type a = pixel_outlier →
  0 < j ∧ j < length fs - 1.
Proof.
  intros [_ Ha]%flagged_detect Hty.
  apply detectAnomalies_elem in Ha as [(frame & Hf & [Ha|[Ha|Ha]])|[[Hi Ha]|[Hi Ha]]].
  - rewrite (histogramAnomalies_color_loss _ _ _ _ Ha) in Hty. by destruct Hty.
  - apply opacityAnomaly_elem in Ha as (_ & ->). cbn [a_type] in Hty.
    destruct (Qltb _ _); by destruct Hty.
  - rewrite (haloAnomaly_type _ _ _ Ha) in Hty. by destruct Hty.
  - done.
  - done.
Qed.

End MorePasses.

(** ** The records of the result *)

Lemma insertByIndex_sorted b l :
  StronglySorted (λ x y, bf_index x ≤ bf_index y) l →
  StronglySorted (λ x y, bf_index x ≤ bf_index y) (insertByIndex b l).
Proof.
  induction 1 as [|c l Hs IH Hall]; simpl.
  - repeat constructor.
  - destruct (bf_index b <=? bf_index c) eqn:E.
    + apply Nat.leb_le in E. constructor; [by constructor|].
      constructor; [done|]. eapply Forall_impl; [exact Hall|]. simpl. intros; lia.
    + apply Nat.leb_gt in E. constructor; [done|].
      rewrite insertByIndex_Permutation. constructor; [lia|done].
Qed.

Lemma sortByIndex_sorted l :
  StronglySorted (λ x y, bf_index x ≤ bf_index y) (sortByIndex l).
Proof.
  induction l as [|b l IH]; simpl; [constructor|]. by apply insertByIndex_sorted.
Qed.

Lemma buildBadFrames_NoDup numFrames (m : gmap nat (list Anomaly)) :
  NoDup (bf_index <$> buildBadFrames numFrames m).
Proof.
  unfold buildBadFrames. rewrite sortByIndex_Permutation, <- list_fmap_compose.
  assert ((bf_index
            ∘ (λ '(index, reasons),
                 mkBadFrame index reasons (resolveReplacement numFrames (dom m) index)
                            (aggregateSeverity reasons))) <$> map_to_list m
          = (map_to_list m).*1) as ->.
  { apply list_fmap_ext. by intros i [k l] _. }
  apply NoDup_fst_map_to_list.
Qed.

Lemma sorted_nodup_strict (l : list BadFrameRecord) i j x y :
  StronglySorted (λ x y, bf_index x ≤ bf_index y) l → NoDup (bf_index <$> l) →
  l !! i = Some x → l !! j = Some y → i < j → bf_index x < bf_index y.
Proof.
  intros Hs. revert i j. induction Hs as [|c l Hs IH Hall]; intros i j Hnd Hi Hj Hij; [done|].
  simpl in Hnd. apply NoDup_cons in Hnd as [Hc Hnd].
  destruct j as [|j]; [lia|]. simpl in Hj.
  destruct i as [|i]; simpl in Hi.
  - injection Hi as <-.
    assert (y ∈ l) as Hy by (by eapply list_elem_of_lookup_2).
    rewrite Forall_forall in Hall. pose proof (Hall y Hy).
    assert (bf_index c ≠ bf_index y); [|lia].
    intros E. apply Hc. rewrite E. by apply list_elem_of_fmap_2.
  - apply (IH i j); [done..|lia].
Qed.

Lemma aggregateSeverity_severe reasons :
  aggregateSeverity reasons = severe ↔ ∃ a, a ∈ reasons ∧ a_severity a = severe.
Proof.
  unfold aggregateSeverity. destruct (existsb isSevere reasons) eqn:E.
  - split; [intros _|done]. apply existsb_exists in E as (a & Ha & Hs).
    exists a. split; [by apply list_elem_of_In|]. unfold isSevere in Hs.
    by destruct (a_severity a).
  - split; [done|]. intros (a & Ha & Hs).
    assert (existsb isSevere reasons = true); [|congruence].
    apply existsb_exists. exists a. split; [by apply list_elem_of_In|].
    unfold isSevere. by rewrite Hs.
Qed.

(** What replaceBadFrames returns when no record names, as its replacement,
    the index of a record. *)
Lemma replaceBadFrames_disjoint (recs : list BadFrameRecord) (fs : list Frame) :
  NoDup (bf_index <$> recs) →
  (∀ rec, rec ∈ recs →
     bf_index rec < length fs ∧ bf_replacement rec < length fs ∧
     bf_replacement rec ∉ bf_index <$> recs) →
  ∃ out, replaceBadFrames fs recs = Some out ∧ length out = length fs ∧
    (∀ rec, rec ∈ recs → out !! bf_index rec = fs !! bf_replacement rec) ∧
    (∀ i, i ∉ bf_index <$> recs → out !! i = fs !! i).
Proof.
  unfold replaceBadFrames. revert fs.
  induction recs as [|rec recs IH]; intros fs Hnd Hin; simpl.
  - exists fs. split; [done|]. split; [done|]. split; [|done].
    intros rec Hrec. by apply elem_of_nil in Hrec.
  - simpl in Hnd. apply NoDup_cons in Hnd as [Hfresh Hnd].
    destruct (Hin rec) as (Hi & Hr & Hgood); [apply list_elem_of_here|].
    destruct (lookup_lt_is_Some_2 fs (bf_replacement rec)) as [src Hsrc]; [lia|].
    rewrite Hsrc. simpl.
    assert ((bf_index rec <? length fs) = true) as -> by (by apply Nat.ltb_lt).
    destruct (IH (<[bf_index rec := src]> fs) Hnd) as (out & Hout & Hlen & Hrecs & Hrest).
    { intros rec' Hrec'. rewrite length_insert.
      destruct (Hin rec') as (? & ? & Hg); [by apply list_elem_of_further|].
      split; [done|]. split; [done|]. intros Hx. apply Hg. by apply list_elem_of_further. }
    rewrite length_insert in Hlen.
    exists out. split; [done|]. split; [done|]. split.
    + intros rec' [-> |Hrec']%elem_of_cons.
      * rewrite Hrest by done. by rewrite list_lookup_insert_eq.
      * rewrite Hrecs by done. apply list_lookup_insert_ne.
        destruct (Hin rec') as (_ & _ & Hg); [by apply list_elem_of_further|].
        intros E. apply Hg. rewrite <- E. apply list_elem_of_here.
    + intros i Hi'. rewrite Hrest.
      * apply list_lookup_insert_ne. intros E. apply Hi'. rewrite <- E. apply list_elem_of_here.
      * intros Hx. apply Hi'. by apply list_elem_of_further.
Qed.

Section MoreRecords.

Variable resizeContain : Frame → nat → nat → list Z.
Variable pixelmatch : list Z → list Z → nat → nat → nat.

(** X7. The records of the result are in strictly ascending order of frame
    index: a frame has at most one record. *)
Theorem badFrames_strictly_sorted fs opts i j x y :
  badFrames (detectBadFrames resizeContain pixelmatch fs opts) !! i = Some x →
  badFrames (detectBadFrames resizeContain pixelmatch fs opts) !! j = Some y →
  i < j → bf_index x < bf_index y.
Proof.
  destruct (decide (3 ≤ length fs)) as [HN|HN].
  - rewrite detectBadFrames_long by done.
    apply sorted_nodup_strict; [apply sortByIndex_sorted|apply buildBadFrames_NoDup].
  - rewrite detectBadFrames_short by lia. done.
Qed.

(** X8. Every record names a frame of the sequence, has at least one
    reason, holds exactly the anomalies the frame is flagged with, and is
    [severe] exactly when one of its reasons is. *)
Theorem badFrame_record_shape fs opts rec :
  rec ∈ badFrames (detectBadFrames resizeContain pixelmatch fs opts) →
  bf_index rec < length fs ∧ bf_reasons rec ≠ [] ∧
  (∀ a, a ∈ bf_reasons rec
        ↔ flagged (detectBadFrames resizeContain pixelmatch fs opts) (bf_index rec) a) ∧
  (bf_severity rec = severe ↔ ∃ a, a ∈ bf_reasons rec ∧ a_severity a = severe) ∧
  (bf_severity rec = moderate ↔ ∀ a, a ∈ bf_reasons rec → a_severity a = moderate).
Proof.
  intros Hrec. pose proof Hrec as Hrec'.
  apply elem_of_detectBadFrames in Hrec' as (HN & i & reasons & Hm & ->). simpl.
  split.
  { apply (detectAnomalies_keys resizeContain pixelmatch fs opts), elem_of_dom. eauto. }
  split; [by eapply detectAnomalies_nonEmpty|].
  split.
  { intros a. rewrite flagged_detect. unfold getAnomalies. rewrite Hm. simpl. tauto. }
  split; [apply aggregateSeverity_severe|].
  pose proof (aggregateSeverity_severe reasons) as Hsev.
  destruct (aggregateSeverity reasons).
  - split; [intros _|done]. intros a Ha. destruct (a_severity a) eqn:E; [done|].
    assert (moderate = severe) as [=]. apply Hsev. eauto.
  - split; [done|]. intros Hall. destruct (proj1 Hsev eq_refl) as (a & Ha & Hs).
    rewrite (Hall a Ha) in Hs. done.
Qed.

(** With a good frame in the sequence, the records returned name distinct
    frames of the sequence, and each names a good frame of the sequence as
    its replacement. *)
Lemma detected_records_apart fs opts g :
  g < length fs → g ∉ badSet (detectBadFrames resizeContain pixelmatch fs opts) →
  let d := detectBadFrames resizeContain pixelmatch fs opts in
  NoDup (bf_index <$> badFrames d) ∧
  ∀ rec, rec ∈ badFrames d →
    bf_index rec < length fs ∧ bf_replacement rec < length fs ∧
    bf_replacement rec ∉ badSet d.
Proof.
  intros Hg Hgood d. split.
  - unfold d. destruct (decide (3 ≤ length fs)) as [HN|HN].
    + rewrite detectBadFrames_long by done. apply buildBadFrames_NoDup.
    + rewrite detectBadFrames_short by lia. constructor.
  - intros rec Hrec.
    destruct (detect_records_in_range resizeContain pixelmatch fs opts rec Hrec) as [Hi Hr].
    split; [done|]. split; [done|].
    pose proof Hrec as Hrec'.
    apply elem_of_detectBadFrames in Hrec' as (HN & i & reasons & Hm & ->). simpl in *.
    apply (resolveReplacement_good _ _ _ g); [done| |done|done].
    unfold d. rewrite badSet_detect by done. apply elem_of_dom. eauto.
Qed.

(** X9. When the sequence has a good frame, replacing succeeds and gives:
    at the index of each record, the input frame at the record's
    replacement, which is a good frame; at every other index, the input
    frame. *)
Theorem replaceBadFrames_result fs opts g :
  g < length fs → g ∉ badSet (detectBadFrames resizeContain pixelmatch fs opts) →
  let d := detectBadFrames resizeContain pixelmatch fs opts in
  ∃ out, replaceBadFrames fs (badFrames d) = Some out ∧ length out = length fs ∧
    (∀ rec, rec ∈ badFrames d →
       (bf_replacement rec ∉ badSet d) ∧ (out !! bf_index rec = fs !! bf_replacement rec)) ∧
    (∀ i, i ∉ badSet d → out !! i = fs !! i).
Proof.
  intros Hg Hgood d.
  destruct (detected_records_apart fs opts g Hg Hgood) as [Hnd Hrecs]. fold d in Hnd, Hrecs.
  destruct (replaceBadFrames_disjoint (badFrames d) fs) as (out & Hout & Hlen & Hat & Hrest).
  - exact Hnd.
  - intros rec Hrec. destruct (Hrecs rec Hrec) as (? & ? & Hn).
    split; [done|]. split; [done|]. intros Hx. apply Hn. unfold badSet.
    by apply elem_of_list_to_set.
  - exists out. split; [done|]. split; [done|]. split.
    + intros rec Hrec. destruct (Hrecs rec Hrec) as (_ & _ & ?). split; [done|by apply Hat].
    + intros i Hi. apply Hrest. intros Hx. apply Hi. unfold badSet.
      by apply elem_of_list_to_set.
Qed.

(** C1 (amended). For a sequence of at least three frames, every record of
    the result names a frame of the sequence that is in the bad set, and its
    replacement is: the predecessor when that exists and is good; else the
    successor when that exists and is good; else the good frame at the least
    distance, the earlier one first, inside the sequence. The replacement is
    never the frame itself and is a frame of the sequence. When some frame of
    the sequence is good, the replacement is good, and replacing puts the
    input frame at the replacement in the place of the bad frame and leaves
    every good frame as it is. Replacing never fails. *)
Theorem C1_replacement_resolution fs opts rec :
  3 ≤ length fs →
  rec ∈ badFrames (detectBadFrames resizeContain pixelmatch fs opts) →
  let d := detectBadFrames resizeContain pixelmatch fs opts in
  let N := length fs in
  let i := bf_index rec in
  let r := bf_replacement rec in
  i < N ∧ i ∈ badSet d ∧
  (0 < i → i - 1 ∉ badSet d → r = i - 1) ∧
  (¬ (0 < i ∧ i - 1 ∉ badSet d) → i < N - 1 → i + 1 ∉ badSet d → r = i + 1) ∧
  (∀ dist, 2 ≤ dist → noneWithin N (badSet d) i dist →
     (earlierGood (badSet d) i dist → r = i - dist) ∧
     (¬ earlierGood (badSet d) i dist → laterGood N (badSet d) i dist → r = i + dist)) ∧
  r ≠ i ∧ r < N ∧
  ((∃ g, g < N ∧ g ∉ badSet d) →
     (r ∉ badSet d) ∧
     ∃ out, replaceBadFrames fs (badFrames d) = Some out ∧
       out !! i = fs !! r ∧
       (∀ j, j ∉ badSet d → out !! j = fs !! j)) ∧
  ∃ out, replaceBadFrames fs (badFrames d) = Some out ∧ length out = length fs.
Proof.
  intros HN Hrec. cbn zeta.
  pose proof Hrec as Hrec'.
  apply elem_of_detectBadFrames in Hrec' as (_ & i & reasons & Hm & Erec).
  set (bad := badSet (detectBadFrames resizeContain pixelmatch fs opts)) in *.
  assert (bf_index rec = i) as Ei by (by rewrite Erec).
  assert (bf_replacement rec = resolveReplacement (length fs) bad i) as Er
    by (by rewrite Erec).
  rewrite Ei, Er.
  assert (∀ j, j ∈ bad → j < length fs) as Hkeys.
  { intros j. unfold bad. rewrite badSet_detect by done. apply detectAnomalies_keys. }
  assert (i ∈ bad) as Hbad.
  { unfold bad. rewrite badSet_detect by done. apply elem_of_dom. eauto. }
  assert (i < length fs) as Hi by auto.
  split; [done|]. split; [done|].
  split.
  { intros H0 Hgood.
    apply (resolveReplacement_nearest (length fs) bad i 1 Hi); [done| |by split].
    intros d' ?. lia. }
  split.
  { intros Hne H1 Hgood.
    apply (resolveReplacement_nearest (length fs) bad i 1 Hi); [done| | |].
    - intros d' ?. lia.
    - intros [? ?]. apply Hne. split; [lia|]. done.
    - split; [lia|done]. }
  split.
  { intros dist Hd Hnone.
    apply (resolveReplacement_nearest (length fs) bad i dist Hi); [lia|done]. }
  split; [by apply resolveReplacement_ne|].
  split; [apply resolveReplacement_lt; [lia|done]|].
  split.
  { intros (g & Hg & Hgood).
    split; [by apply (resolveReplacement_good _ _ _ g)|].
    destruct (detected_records_apart fs opts g Hg Hgood) as [Hnd Hrecs].
    destruct (replaceBadFrames_disjoint
                (badFrames (detectBadFrames resizeContain pixelmatch fs opts)) fs)
      as (out & Hout & _ & Hat & Hrest).
    - exact Hnd.
    - intros rec' Hrec'. destruct (Hrecs rec' Hrec') as (? & ? & Hn).
      split; [done|]. split; [done|]. intros Hx. apply Hn. unfold badSet.
      by apply elem_of_list_to_set.
    - exists out. split; [exact Hout|]. split.
      + rewrite <- Er, <- Ei. by apply Hat.
      + intros j Hj. apply Hrest. intros Hx. apply Hj. unfold bad, badSet.
        by apply elem_of_list_to_set. }
  destruct (replaceBadFrames_detect resizeContain pixelmatch fs opts) as (out & Hout & Hlen & _).
  eauto.
Qed.

End MoreRecords.

(** ** The reasons of a record, in the order of the passes *)

Lemma existsb_isType_none t (l : list Anomaly) :
  (∀ a, a ∈ l → a_type a ≠ t) → existsb (isType t) l = false.
Proof.
  intros H. apply not_true_is_false. intros (a & Ha & Ht)%existsb_isType.
  by apply (H a Ha).
Qed.

Lemma pixelAnomaly_prev opts diffs prev prev' i :
  existsb (isType structural_damage) prev = existsb (isType structural_damage) prev' →
  pixelAnomaly opts diffs prev i = pixelAnomaly opts diffs prev' i.
Proof. intros H. unfold pixelAnomaly. by rewrite H. Qed.

Lemma channelCheck_length opts stats frame ch :
  length (channelCheck opts stats frame ch) ≤ 1.
Proof. unfold channelCheck. by repeat (destruct (Qltb _ _); simpl; try lia). Qed.

Lemma opacityAnomaly_length stats b frame : length (opacityAnomaly stats b frame) ≤ 1.
Proof. unfold opacityAnomaly. destruct (_ || _); simpl; lia. Qed.

Lemma haloAnomaly_length fa frame : length (haloAnomaly fa frame) ≤ 1.
Proof. unfold haloAnomaly. destruct (Qltb _ _); simpl; lia. Qed.

Lemma adjacency_length opts pairs diffs i :
  length (structuralAnomaly opts pairs i
          ++ pixelAnomaly opts diffs (structuralAnomaly opts pairs i) i) ≤ 1.
Proof.
  unfold structuralAnomaly. destruct (_ && _); simpl.
  - unfold pixelAnomaly. destruct (Qltb _ _); simpl; lia.
  - unfold pixelAnomaly. repeat (destruct (Qltb _ _); simpl; try lia).
Qed.

Section PassOrder.

Variable resizeContain : Frame → nat → nat → list Z.
Variable pixelmatch : list Z → list Z → nat → nat → nat.

(** X16. The reasons of a record are what the passes found for its frame,
    in the order of the passes: the colour losses of the three buckets, the
    opacity anomaly, the halo, and for a frame with two neighbours the
    structural damage or else the pixel outlier. A record has at most six
    reasons. *)
Theorem reasons_in_pass_order fs opts rec frame :
  rec ∈ badFrames (detectBadFrames resizeContain pixelmatch fs opts) →
  analyzeFrames fs !! bf_index rec = Some frame →
  let fa := analyzeFrames fs in
  let stats := calculateMedianStats fa in
  let structural := structuralAnomaly opts (adjacentSSIM resizeContain fs) (bf_index rec) in
  bf_reasons rec
  = flat_map (channelCheck opts stats frame) [darkGreen; brown; darkPixels]
    ++ opacityAnomaly stats (opacityBounds opts fa) frame
    ++ haloAnomaly fa frame
    ++ (if decide (interior (length fs) (bf_index rec))
        then structural
             ++ pixelAnomaly opts (consecutiveDiffs resizeContain pixelmatch fs)
                  structural (bf_index rec)
        else [])
  ∧ length (bf_reasons rec) ≤ 6.
Proof.
  intros Hrec Hframe fa stats structural.
  apply elem_of_detectBadFrames in Hrec as (HN & i & reasons & Hm & ->).
  simpl in *.
  assert (reasons = getAnomalies (detectAnomalies resizeContain pixelmatch fs opts) i) as ->
    by (unfold getAnomalies; by rewrite Hm).
  clear Hm.
  assert (getAnomalies (detectAnomalies resizeContain pixelmatch fs opts) i
          = flat_map (channelCheck opts stats frame) [darkGreen; brown; darkPixels]
            ++ opacityAnomaly stats (opacityBounds opts fa) frame
            ++ haloAnomaly fa frame
            ++ (if decide (interior (length fs) i)
                then structural
                     ++ pixelAnomaly opts (consecutiveDiffs resizeContain pixelmatch fs)
                          structural i
                else [])) as ->.
  { unfold detectAnomalies. fold fa. fold stats.
    rewrite method4_get, method3_get, method2_get, method1_get
      by apply analyzeFrames_selfIndexed.
    fold fa. change (fa !! i = Some frame) in Hframe. rewrite Hframe. simpl from_option.
    rewrite histogramAnomalies_channels. fold structural.
    destruct (decide (interior (length fs) i)) as [Hi|Hi].
    - rewrite <- ?app_assoc. do 4 f_equal.
      apply pixelAnomaly_prev. rewrite !existsb_app.
      rewrite (existsb_isType_none structural_damage (flat_map _ _)).
      2:{ intros a Ha Hty. rewrite <- histogramAnomalies_channels in Ha.
          by rewrite (histogramAnomalies_color_loss _ _ _ _ Ha) in Hty. }
      rewrite (existsb_isType_none structural_damage (opacityAnomaly _ _ _)).
      2:{ intros a Ha Hty. apply opacityAnomaly_elem in Ha as (_ & ->). cbn [a_type] in Hty.
          by destruct (Qltb _ _). }
      rewrite (existsb_isType_none structural_damage (haloAnomaly _ _)).
      2:{ intros a Ha Hty. by rewrite (haloAnomaly_type _ _ _ Ha) in Hty. }
      done.
    - by rewrite ?app_nil_r, <- ?app_assoc. }
  split; [done|].
  rewrite !length_app.
  pose proof (opacityAnomaly_length stats (opacityBounds opts fa) frame).
  pose proof (haloAnomaly_length fa frame).
  assert (length (flat_map (channelCheck opts stats frame) [darkGreen; brown; darkPixels]) ≤ 3).
  { simpl. rewrite app_nil_r, !length_app.
    pose proof (channelCheck_length opts stats frame darkGreen).
    pose proof (channelCheck_length opts stats frame brown).
    pose proof (channelCheck_length opts stats frame darkPixels). lia. }
  destruct (decide (interior (length fs) i)); [|cbn [length]; lia].
  pose proof (adjacency_length opts (adjacentSSIM resizeContain fs)
                (consecutiveDiffs resizeContain pixelmatch fs) i) as Hadj.
  fold structural in Hadj. lia.
Qed.

End PassOrder.

(** ** A sequence of equal frames *)

Lemma rank_const (l : list Q) v k :
  (∀ x, x ∈ l → x = v) → k < length l → at_ (sortNum l) k = v.
Proof. intros H Hk. by apply H, at_sortNum_elem. Qed.

Lemma getMedian_const (l : list Q) v :
  (∀ x, x ∈ l → x = v) → l ≠ [] → getMedian l = v.
Proof.
  intros H Hne. rewrite getMedian_at. apply rank_const; [done|].
  apply Nat.div_lt; [|lia]. destruct l; [done|simpl; lia].
Qed.

Lemma quartiles_const (l : list Q) v :
  (∀ x, x ∈ l → x = v) → l ≠ [] →
  quartile1 (sortNum l) = v ∧ quartile3 (sortNum l) = v.
Proof.
  intros H Hne. rewrite quartile1_at, quartile3_at.
  assert (0 < length l) as Hn by (destruct l; [done|simpl; lia]).
  destruct (rank_indices (length l) Hn) as (H1 & H2 & H3).
  split; apply rank_const; try done. lia.
Qed.

Lemma fmap_const {A} (g : A → Q) (l : list A) v :
  (∀ a, a ∈ l → g a = v) → ∀ x, x ∈ g <$> l → x = v.
Proof. intros H x (a & -> & Ha)%list_elem_of_fmap. by apply H. Qed.

Lemma foldl_fixed {A B} (f : A → B → A) (l : list B) (m : A) :
  (∀ m x, x ∈ l → f m x = m) → foldl f m l = m.
Proof.
  revert m. induction l as [|x l IH]; intros m H; simpl; [done|].
  rewrite H by apply list_elem_of_here. apply IH. intros m' y Hy.
  by apply H, list_elem_of_further.
Qed.

Lemma analyzeFrames_replicate n f fa :
  fa ∈ analyzeFrames (replicate n f) →
  fa_stats fa = analyzePixels (data f) (width f) (height f).
Proof.
  intros [i H]%list_elem_of_lookup. rewrite analyzeFrames_lookup in H.
  destruct (replicate n f !! i) as [g|] eqn:Hg; simpl in H; [|done].
  apply lookup_replicate in Hg as [-> _]. by injection H as <-.
Qed.

Lemma channelCheck_uniform opts fa frame ch :
  (colorRatioThreshold opts <= 1)%Q → frame ∈ fa →
  (∀ g, g ∈ fa → fa_stats g = fa_stats frame) →
  ch ∈ [darkGreen; brown; darkPixels] →
  channelCheck opts (calculateMedianStats fa) frame ch = [].
Proof.
  intros Hthr Hin Hsame Hch. unfold channelCheck. rewrite medianOf_channel by done.
  rewrite <- list_fmap_compose.
  rewrite (getMedian_const _ (QofN (count (colors (fa_stats frame)) ch))).
  - destruct (Qltb 50 _) eqn:H50; [|done].
    apply Qltb_lt in H50.
    assert (Qltb (QofN (count (colors (fa_stats frame)) ch)
                  / QofN (count (colors (fa_stats frame)) ch)) (colorRatioThreshold opts)
            = false) as ->; [|done].
    apply Qltb_ge. apply Qle_trans with 1%Q; [done|].
    apply Qle_shift_div_l; lra.
  - apply fmap_const. intros g Hg. simpl. by rewrite (Hsame g Hg).
  - intros E. apply fmap_nil_inv in E. subst fa. by apply elem_of_nil in Hin.
Qed.

Lemma histogramAnomalies_uniform opts fa frame :
  (colorRatioThreshold opts <= 1)%Q → frame ∈ fa →
  (∀ g, g ∈ fa → fa_stats g = fa_stats frame) →
  histogramAnomalies opts (calculateMedianStats fa) frame = [].
Proof.
  intros Hthr Hin Hsame. unfold histogramAnomalies.
  assert (flat_map (channelCheck opts (calculateMedianStats fa) frame)
            [darkGreen; brown; darkPixels] = []) as ->.
  { simpl. rewrite !channelCheck_uniform; try done;
      repeat first [apply list_elem_of_here | apply list_elem_of_further]. }
  assert (m_darkGreen (calculateMedianStats fa)
          = QofN (n_darkGreen (colors (fa_stats frame)))) as ->.
  { unfold calculateMedianStats. cbn [m_darkGreen]. apply getMedian_const.
    - apply fmap_const. intros g Hg. by rewrite (Hsame g Hg).
    - intros E. apply fmap_nil_inv in E. subst fa. by apply elem_of_nil in Hin. }
  destruct (Qltb 100 _) eqn:H100; [|done].
  apply Qltb_lt in H100.
  assert (Qltb (QofN (n_darkGreen (colors (fa_stats frame)))
                / QofN (n_darkGreen (colors (fa_stats frame)))) (colorRatioThreshold opts)
          = false) as ->; [|done].
  apply Qltb_ge. apply Qle_trans with 1%Q; [done|].
  apply Qle_shift_div_l; lra.
Qed.

(** A bound computed from a double [r] and a spread of zero is [r]. *)
Lemma fl_spread_zero k r :
  fl r = r →
  fl (r - fl (k * fl (r - r))) = r ∧ fl (r + fl (k * fl (r - r))) = r.
Proof.
  intros Hr.
  assert (fl (r - r) = 0%Q) as -> by (apply fl_zero; lra).
  assert (fl (k * 0) = 0%Q) as -> by (apply fl_zero; lra).
  split; rewrite <- Hr at 2; apply fl_proper; lra.
Qed.

Lemma ssim_double data1 data2 w h :
  fl (calculateSimplifiedSSIM data1 data2 w h) = calculateSimplifiedSSIM data1 data2 w h.
Proof.
  unfold calculateSimplifiedSSIM. cbv zeta.
  destruct (_ =? 0); [vm_compute; reflexivity|apply fl_idem].
Qed.

Lemma opacityAnomaly_uniform opts fa frame :
  frame ∈ fa → (∀ g, g ∈ fa → fa_stats g = fa_stats frame) →
  fl (opaqueRatio (alpha (fa_stats frame))) = opaqueRatio (alpha (fa_stats frame)) →
  opacityAnomaly (calculateMedianStats fa) (opacityBounds opts fa) frame = [].
Proof.
  intros Hin Hsame Hdbl. unfold opacityAnomaly, opacityBounds.
  cbn [opacityLowerBound opacityUpperBound opacityIQR].
  destruct (quartiles_const ((λ f, opaqueRatio (alpha (fa_stats f))) <$> fa)
              (opaqueRatio (alpha (fa_stats frame)))) as [-> ->].
  - apply fmap_const. intros g Hg. by rewrite (Hsame g Hg).
  - intros E. apply fmap_nil_inv in E. subst fa. by apply elem_of_nil in Hin.
  - set (r := opaqueRatio (alpha (fa_stats frame))) in *.
    destruct (fl_spread_zero (opacityIQRMultiplier opts) r Hdbl) as [-> ->].
    assert (Qltb r r = false) as -> by (apply Qltb_ge; lra).
    reflexivity.
Qed.

Lemma haloAnomaly_uniform fa frame :
  frame ∈ fa → (∀ g, g ∈ fa → fa_stats g = fa_stats frame) →
  haloAnomaly fa frame = [].
Proof.
  intros Hin Hsame. unfold haloAnomaly.
  rewrite floorIdx_three_quarters.
  rewrite (rank_const _ (semiTransRatio (alpha (fa_stats frame)))).
  - set (s := semiTransRatio (alpha (fa_stats frame))).
    assert (fl (s - s) = 0%Q) as -> by (apply fl_zero; lra).
    reflexivity.
  - apply fmap_const. intros g Hg. by rewrite (Hsame g Hg).
  - assert (0 < length ((λ f, semiTransRatio (alpha (fa_stats f))) <$> fa)) as Hn.
    { rewrite length_fmap. destruct fa; [by apply elem_of_nil in Hin|simpl; lia]. }
    by destruct (rank_indices _ Hn) as (_ & _ & ?).
Qed.

Lemma structuralAnomaly_uniform opts pairs i s :
  (∀ x, x ∈ score <$> pairs → x = s) → fl s = s → 1 ≤ i → i < length pairs →
  structuralAnomaly opts pairs i = [].
Proof.
  intros Hsame Hdbl H1 Hi. unfold structuralAnomaly, ssimOutlierThreshold.
  destruct (quartiles_const (score <$> pairs) s) as [-> ->]; [done| |].
  { intros E. apply fmap_nil_inv in E. subst pairs. simpl in Hi. lia. }
  assert (ssimAt pairs i = s) as ->.
  { apply Hsame, list_elem_of_In, nth_In. by rewrite length_fmap. }
  destruct (fl_spread_zero 3.0 s Hdbl) as [-> _].
  assert (Qltb s s = false) as -> by (apply Qltb_ge; lra).
  by rewrite andb_false_r.
Qed.

Lemma pixelAnomaly_uniform opts diffs anomalies i d :
  (∀ x, x ∈ diffs → x = d) → (0 <= d)%Q → fl d = d → 1 ≤ i → i < length diffs →
  pixelAnomaly opts diffs anomalies i = [].
Proof.
  intros Hsame Hd Hdbl H1 Hi. unfold pixelAnomaly.
  rewrite sortNum_length, floorIdx_half.
  rewrite (rank_const diffs d) by (done || (apply Nat.div_lt; lia)).
  assert (at_ diffs (i - 1) = d) as -> by (apply Hsame, list_elem_of_In, nth_In; lia).
  assert (at_ diffs i = d) as -> by (apply Hsame, list_elem_of_In, nth_In; lia).
  assert (fl (fl (d + d) / 2) = d) as ->.
  { rewrite <- Hdbl at 3. apply fl_proper.
    assert (fl (d + d) = fl (2 * d)) as -> by (apply fl_proper; lra).
    rewrite fl_double, Hdbl. field. }
  assert (Qltb (Qmax (fl (d * 2.5)) (pixelDiffThreshold opts)) d = false) as ->; [|done].
  apply Qltb_ge. apply Qle_trans with (fl (d * 2.5)); [|apply Q.le_max_l].
  rewrite <- Hdbl at 1. apply fl_mono. lra.
Qed.

Section EqualFrames.

Variable resizeContain : Frame → nat → nat → list Z.
Variable pixelmatch : list Z → list Z → nat → nat → nat.

Lemma normalizeFrames_replicate n f k :
  k < n →
  nth k (normalizeFrames resizeContain (replicate n f)) []
  = resizeContain f (max_list (width <$> replicate n f)) (max_list (height <$> replicate n f)).
Proof.
  intros Hk. unfold normalizeFrames. rewrite fmap_replicate.
  apply nth_lookup_Some with (d := []). by apply lookup_replicate_2.
Qed.

(** X10. A sequence of equal frames has no bad frame, whatever the codec
    returns, as long as the colour ratio threshold is at most one. *)
Theorem equal_frames_clean n f opts :
  (colorRatioThreshold opts <= 1)%Q →
  badFrames (detectBadFrames resizeContain pixelmatch (replicate n f) opts) = [].
Proof.
  intros Hthr. set (fs := replicate n f).
  destruct (decide (3 ≤ length fs)) as [HN|HN];
    [|by rewrite detectBadFrames_short by lia].
  rewrite detectBadFrames_long by done.
  assert (length fs = n) as Hlen by apply length_replicate.
  assert (∀ a b, a ∈ analyzeFrames fs → b ∈ analyzeFrames fs → fa_stats b = fa_stats a)
    as Hsame.
  { intros a b Ha Hb.
    by rewrite (analyzeFrames_replicate n f a Ha), (analyzeFrames_replicate n f b Hb). }
  assert (detectAnomalies resizeContain pixelmatch fs opts = ∅) as ->; [|done].
  unfold detectAnomalies.
  assert (method1 opts (calculateMedianStats (analyzeFrames fs)) (analyzeFrames fs) ∅ = ∅)
    as ->.
  { apply foldl_fixed. intros m frame Hin. cbv zeta.
    rewrite histogramAnomalies_uniform; [done..|]. intros g. by apply Hsame. }
  assert (method2 opts (calculateMedianStats (analyzeFrames fs)) (analyzeFrames fs) ∅ = ∅)
    as ->.
  { apply foldl_fixed. intros m frame Hin. cbv zeta.
    rewrite opacityAnomaly_uniform, haloAnomaly_uniform; try done;
      try (intros g; by apply Hsame).
    by destruct (analyzeFrames_doubles fs frame Hin). }
  assert (method3 resizeContain opts fs ∅ = ∅) as ->.
  { apply foldl_fixed. intros m i [H1 Hi]%elem_of_seq.
    rewrite (structuralAnomaly_uniform opts _ i
               (calculateSimplifiedSSIM
                  (resizeContain f (max_list (width <$> fs)) (max_list (height <$> fs)))
                  (resizeContain f (max_list (width <$> fs)) (max_list (height <$> fs)))
                  (max_list (width <$> fs)) (max_list (height <$> fs))));
      [done| |apply ssim_double|done|].
    - unfold adjacentSSIM. rewrite <- list_fmap_compose.
      apply fmap_const. intros k [_ Hk]%elem_of_seq. simpl. unfold fs.
      by rewrite !normalizeFrames_replicate by lia.
    - rewrite adjacentSSIM_length. lia. }
  apply foldl_fixed. intros m i [H1 Hi]%elem_of_seq.
  rewrite (pixelAnomaly_uniform opts _ _ i
             (fl (QofN (pixelmatch
                      (resizeContain f (max_list (width <$> fs)) (max_list (height <$> fs)))
                      (resizeContain f (max_list (width <$> fs)) (max_list (height <$> fs)))
                      (max_list (width <$> fs)) (max_list (height <$> fs)))
              / QofN (max_list (width <$> fs) * max_list (height <$> fs)))));
    [done| | |apply fl_idem|done|].
  - unfold consecutiveDiffs. apply fmap_const. intros k [_ Hk]%elem_of_seq. unfold fs.
    by rewrite !normalizeFrames_replicate by lia.
  - apply fl_nonneg. apply Qmult_le_0_compat; [|apply Qinv_le_0_compat];
      change 0%Q with (QofN 0); apply QofN_le; lia.
  - unfold consecutiveDiffs. rewrite length_fmap, length_seq. lia.
Qed.

End EqualFrames.

(** ** analyzePixels *)

Lemma analyzeStep_counts data c a i :
  let st := analyzeStep data (c, a) i in
  alphaTotal st.2 = S (alphaTotal a) ∧
  colorTotal st.1
  = colorTotal c + (if negb (byteAt data (i + 3) <? 128)%Z then 1 else 0) ∧
  (opaque a ≤ colorTotal c → opaque st.2 ≤ colorTotal st.1).
Proof.
  unfold analyzeStep, alphaTotal. cbv zeta. rewrite !Z.gtb_ltb.
  destruct (Z.ltb_spec 250 (byteAt data (i + 3))), (Z.ltb_spec 5 (byteAt data (i + 3))),
    (Z.ltb_spec (byteAt data (i + 3)) 128); simpl;
    try lia;
    destruct (classify (byteAt data i) (byteAt data (i + 1)) (byteAt data (i + 2)));
    unfold colorTotal; simpl; repeat split; intros; lia.
Qed.

Lemma analyze_fold_counts data (offsets : list nat) c a :
  let st := foldl (analyzeStep data) (c, a) offsets in
  alphaTotal st.2 = alphaTotal a + length offsets ∧
  colorTotal st.1
  = colorTotal c
    + length (List.filter (λ i, negb (byteAt data (i + 3) <? 128)%Z) offsets) ∧
  (opaque a ≤ colorTotal c → opaque st.2 ≤ colorTotal st.1).
Proof.
  revert c a. induction offsets as [|i offsets IH]; intros c a; cbn [foldl List.filter length].
  - simpl. split; [lia|]. split; [lia|done].
  - destruct (analyzeStep_counts data c a i) as (Ha & Hc & Ho).
    destruct (analyzeStep data (c, a) i) as [c' a'] eqn:E. simpl in Ha, Hc, Ho.
    destruct (IH c' a') as (Ha' & Hc' & Ho').
    split; [lia|]. split; [|auto].
    rewrite Hc', Hc. destruct (negb _); simpl; lia.
Qed.

Lemma pixelOffsets_length data : length (pixelOffsets data) = (length data + 3) / 4.
Proof. unfold pixelOffsets. by rewrite length_fmap, length_seq. Qed.

Lemma pixelOffsets_wf f : wfFrame f → length (pixelOffsets (data f)) = width f * height f.
Proof.
  intros (_ & _ & Hlen). rewrite pixelOffsets_length, Hlen.
  replace (height f * width f * 4 + 3) with (3 + (width f * height f) * 4) by lia.
  rewrite Nat.div_add by done. simpl. lia.
Qed.

Lemma QofN_plus a b : (QofN (a + b) == QofN a + QofN b)%Q.
Proof. unfold QofN. by rewrite Nat2Z.inj_add, inject_Z_plus. Qed.

Lemma QofN_pos n : 0 < n → (0 < QofN n)%Q.
Proof. intros H. change 0%Q with (QofN 0). by apply QofN_lt. Qed.

(** X1. On a decoded frame every pixel is opaque, semi-transparent or
    transparent: when the loop of analyzePixels ends its three alpha
    counters add up to width * height, and each ratio returned is the double
    nearest to its counter divided by width * height. (The three doubles
    need not add up to one: 1/6 + 4/6 + 1/6 gives 0.9999999999999999.) *)
Theorem alpha_counts_total f :
  wfFrame f →
  let a := alphaCounts (data f) in
  let r := alpha (analyzePixels (data f) (width f) (height f)) in
  alphaTotal a = width f * height f ∧
  opaqueRatio r = fl (QofN (opaque a) / QofN (width f * height f)) ∧
  semiTransRatio r = fl (QofN (semiTrans a) / QofN (width f * height f)) ∧
  transparentRatio r = fl (QofN (transparent a) / QofN (width f * height f)).
Proof.
  intros Hwf. pose proof (pixelOffsets_wf f Hwf) as Hn.
  unfold analyzePixels, alphaCounts.
  destruct (analyze_fold_counts (data f) (pixelOffsets (data f))
              (mkColors 0 0 0 0) (mkAlphaCounts 0 0 0)) as (Ha & _ & _).
  destruct (foldl _ _ _) as [c a].
  cbn [snd alpha opaqueRatio semiTransRatio transparentRatio] in *.
  rewrite Hn in Ha. change (alphaTotal (mkAlphaCounts 0 0 0)) with 0 in Ha.
  split; [exact Ha|]. repeat split; reflexivity.
Qed.

(** X2. The four bucket counts add up to the number of pixels whose alpha
    is at least 128; that number is at most the number of pixels, and the
    opaque pixels (alpha above 250) are among them: the opaque counter is at
    most the sum of the buckets, and the opaque ratio is at most the double
    nearest to that sum divided by the number of pixels. *)
Theorem bucket_counts_total f :
  wfFrame f →
  let st := analyzePixels (data f) (width f) (height f) in
  colorTotal (colors st) = classifiedPixels (data f) ∧
  colorTotal (colors st) ≤ width f * height f ∧
  opaque (alphaCounts (data f)) ≤ colorTotal (colors st) ∧
  (opaqueRatio (alpha st)
   <= fl (QofN (colorTotal (colors st)) / QofN (width f * height f)))%Q.
Proof.
  intros Hwf. pose proof (pixelOffsets_wf f Hwf) as Hn.
  unfold analyzePixels, alphaCounts.
  destruct (analyze_fold_counts (data f) (pixelOffsets (data f))
              (mkColors 0 0 0 0) (mkAlphaCounts 0 0 0)) as (_ & Hc & Ho).
  destruct (foldl _ _ _) as [c a].
  cbn [fst snd colors alpha opaqueRatio] in *.
  change (colorTotal (mkColors 0 0 0 0)) with 0 in Hc, Ho.
  change (opaque (mkAlphaCounts 0 0 0)) with 0 in Ho.
  rewrite Nat.add_0_l in Hc.
  assert (opaque a ≤ colorTotal c) as Hle by (apply Ho; lia).
  split; [exact Hc|]. split; [rewrite Hc, <- Hn; apply filter_length_le|].
  split; [exact Hle|].
  assert (0 < width f * height f) as Hpos by (destruct Hwf as (? & ? & _); lia).
  apply QofN_pos in Hpos. apply QofN_le in Hle.
  apply fl_mono. apply Qmult_le_compat_r; [exact Hle|].
  apply Qlt_le_weak, Qinv_lt_0_compat, Hpos.
Qed.

(** ** calculateSimplifiedSSIM *)

Lemma ssim_fold_skip data1 data2 offsets st :
  (∀ i, i ∈ offsets → (byteAt data1 (i + 3) <= 64)%Z ∧ (byteAt data2 (i + 3) <= 64)%Z) →
  foldl (ssimStep data1 data2) st offsets = st.
Proof.
  induction offsets as [|i offsets IH]; intros H; simpl; [done|].
  destruct (H i) as [H1 H2]; [apply list_elem_of_here|].
  unfold ssimStep at 2.
  assert ((byteAt data1 (i + 3) >? 64)%Z = false) as -> by (rewrite Z.gtb_ltb; by apply Z.ltb_ge).
  assert ((byteAt data2 (i + 3) >? 64)%Z = false) as -> by (rewrite Z.gtb_ltb; by apply Z.ltb_ge).
  simpl. apply IH. intros j Hj. by apply H, list_elem_of_further.
Qed.

(** X12. When no pixel has alpha above 64 in either buffer nothing is
    compared, and the score is 1. *)
Theorem ssim_nothing_to_compare data1 data2 w h :
  (∀ i, i ∈ pixelOffsets data1 →
        (byteAt data1 (i + 3) <= 64)%Z ∧ (byteAt data2 (i + 3) <= 64)%Z) →
  calculateSimplifiedSSIM data1 data2 w h = 1%Q.
Proof.
  intros H. unfold calculateSimplifiedSSIM. by rewrite ssim_fold_skip.
Qed.

Lemma Qmult_comm_eq (x y : Q) : (x * y)%Q = (y * x)%Q.
Proof. unfold Qmult. f_equal; [apply Z.mul_comm|apply Pos.mul_comm]. Qed.

Lemma ssimStep_swap data1 data2 st i :
  ssimStep data2 data1 (swapSums st) i = swapSums (ssimStep data1 data2 st i).
Proof.
  unfold ssimStep. rewrite (orb_comm (byteAt data2 (i + 3) >? 64)%Z).
  destruct ((byteAt data1 (i + 3) >? 64)%Z || (byteAt data2 (i + 3) >? 64)%Z); [|done].
  unfold swapSums. cbn [sum1 sum2 sumSq1 sumSq2 sumProd ssimCount].
  set (l1 := fl (fl (fl (Lit.d0_299 * inject_Z (byteAt data1 i)) + _) + _)).
  set (l2 := fl (fl (fl (Lit.d0_299 * inject_Z (byteAt data2 i)) + _) + _)).
  by rewrite (Qmult_comm_eq l2 l1).
Qed.

Lemma ssim_fold_swap data1 data2 offsets st :
  foldl (ssimStep data2 data1) (swapSums st) offsets
  = swapSums (foldl (ssimStep data1 data2) st offsets).
Proof.
  revert st. induction offsets as [|i offsets IH]; intros st; simpl; [done|].
  by rewrite ssimStep_swap, IH.
Qed.

(** X11. On two buffers of the same length the score does not depend on
    their order. *)
Theorem ssim_symmetric data1 data2 w h :
  length data1 = length data2 →
  calculateSimplifiedSSIM data1 data2 w h = calculateSimplifiedSSIM data2 data1 w h.
Proof.
  intros Hlen. unfold calculateSimplifiedSSIM.
  assert (pixelOffsets data2 = pixelOffsets data1) as -> by (unfold pixelOffsets; by rewrite Hlen).
  rewrite (ssim_fold_swap data1 data2 _ (mkSsimSums 0 0 0 0 0 0) : foldl (ssimStep data2 data1) (mkSsimSums 0 0 0 0 0 0) _ = _).
  destruct (foldl (ssimStep data1 data2) _ _) as [s1 s2 q1 q2 p n].
  unfold swapSums. cbn [sum1 sum2 sumSq1 sumSq2 sumProd ssimCount]. cbv zeta.
  destruct (n =? 0); [reflexivity|].
  set (m1 := fl (s1 / QofN n)). set (m2 := fl (s2 / QofN n)).
  set (v1 := fl (fl (q1 / QofN n) - fl (m1 * m1))).
  set (v2 := fl (fl (q2 / QofN n) - fl (m2 * m2))).
  assert (fl m1 = m1) as D1 by apply fl_idem.
  assert (fl m2 = m2) as D2 by apply fl_idem.
  assert (fl (fl (2 * m1) * m2) = fl (fl (2 * m2) * m1)) as ->.
  { apply fl_proper. rewrite !fl_double, D1, D2. ring. }
  rewrite (Qmult_comm_eq m1 m2).
  assert (fl (fl (m1 * m1) + fl (m2 * m2)) = fl (fl (m2 * m2) + fl (m1 * m1))) as ->
    by (apply fl_proper; ring).
  assert (fl (v1 + v2) = fl (v2 + v1)) as -> by (apply fl_proper; ring).
  reflexivity.
Qed.

(** ** Stabilized frames reach the verifier with one size *)

Lemma placeOnCanvas_size cw ch f b o :
  placeOnCanvas cw ch f b = Some o → width o = cw ∧ height o = ch.
Proof.
  unfold placeOnCanvas. destruct (Sharp.extract _ _ _ _ _) as [content|]; simpl; [|done].
  unfold Sharp.compositeOnBlank. destruct (_ && _); [|done]. by intros [= <-].
Qed.

Lemma stabilizeFrames_sizes fs st :
  stabilizeFrames fs = Some st →
  ∀ o, o ∈ st →
    width o = max_list ((λ f, Bounds.width (boundsOf f)) <$> fs) + 40 ∧
    height o = max_list ((λ f, Bounds.height (boundsOf f)) <$> fs) + 40.
Proof.
  unfold stabilizeFrames. rewrite <- !list_fmap_compose.
  change ((λ f : Frame * Bounds.t, Bounds.width f.2) ∘ (λ buf, (buf, boundsOf buf)))
    with (λ f, Bounds.width (boundsOf f)).
  change ((λ f : Frame * Bounds.t, Bounds.height f.2) ∘ (λ buf, (buf, boundsOf buf)))
    with (λ f, Bounds.height (boundsOf f)).
  intros Hst%mapM_Some_1 o [k Ho]%list_elem_of_lookup.
  destruct (Forall2_lookup_r _ _ _ _ _ Hst Ho) as (x & _ & Hx).
  by apply placeOnCanvas_size in Hx.
Qed.

Section MorePipeline.

Variable resizeContain : Frame → nat → nat → list Z.
Variable pixelmatch : list Z → list Z → nat → nat → nat.

(** X14. Whatever autoFix returns, its frames share one width and one
    height, and the verifier's issues in the report never include
    inconsistent sizes. *)
Theorem autoFix_sizes_consistent fs opts r :
  autoFix resizeContain pixelmatch fs opts = Some r →
  (∀ f g, f ∈ frames r → g ∈ frames r → width f = width g ∧ height f = height g) ∧
  ∀ sizes, InconsistentSizes sizes ∉ issues (verificationDetails (report r)).
Proof.
  intros Hr. rewrite autoFix_unfold in Hr.
  destruct (if 0 <? _ then _ else _) as [replaced|]; simpl in Hr; [|done].
  destruct (stabilizeFrames replaced) as [st|] eqn:Hst; simpl in Hr; [|done].
  destruct (verifyFrames pixelmatch st) as [finalCheck|] eqn:Hv; simpl in Hr; [|done].
  injection Hr as <-. simpl.
  pose proof (stabilizeFrames_sizes replaced st Hst) as Hsz.
  assert (∀ f g, f ∈ st → g ∈ st → width f = width g ∧ height f = height g) as Hsame.
  { intros f g Hf Hg. destruct (Hsz f Hf) as [-> ->]. destruct (Hsz g Hg) as [-> ->]. done. }
  split; [done|].
  intros sizes Hin.
  apply (verifyFrames_issues pixelmatch st finalCheck _ Hv) in Hin
    as [[Hlen _]|(_ & q & _ & _ & [=])].
  apply two_distinct in Hlen as (a & b & Ha & Hb & Hne); [|apply sizeSet_NoDup].
  apply elem_of_sizeSet, list_elem_of_fmap in Ha as (f & -> & Hf).
  apply elem_of_sizeSet, list_elem_of_fmap in Hb as (g & -> & Hg).
  destruct (Hsame f g Hf Hg) as [Ew Eh]. by rewrite Ew, Eh in Hne.
Qed.

End MorePipeline.

(** ** A buffer compared with itself *)

Lemma Qsq_nonneg (a : Q) : (0 <= a * a)%Q.
Proof. unfold Qle, Qmult. simpl. nia. Qed.

Lemma fl_eq x y : (fl x == fl y)%Q → fl x = fl y.
Proof. intros H. rewrite <- (fl_idem x), <- (fl_idem y). by apply fl_proper. Qed.

Lemma ssimStep_self d st i : selfSums st → selfSums (ssimStep d d st i).
Proof.
  unfold ssimStep. destruct (_ || _); [|done].
  destruct st as [s1 s2 q1 q2 p n]. unfold selfSums.
  cbn [sum1 sum2 sumSq1 sumSq2 sumProd]. by intros (-> & -> & ->).
Qed.

Lemma ssim_fold_self d offsets st :
  selfSums st → selfSums (foldl (ssimStep d d) st offsets).
Proof.
  revert st. induction offsets as [|i offsets IH]; intros st H; simpl; [done|].
  by apply IH, ssimStep_self.
Qed.

(** The score of a buffer compared with itself is 1 as long as the variance
    the function computes for it ([var1], which is zero or more in exact
    arithmetic and can only fall below zero by the rounding of the sums) is
    at least -29: the numerator and the denominator are then the same
    positive double. *)
Lemma ssim_self_var d w h :
  (- (29) <= ssimVar1 d d)%Q → calculateSimplifiedSSIM d d w h = 1%Q.
Proof.
  unfold calculateSimplifiedSSIM, ssimVar1. cbv zeta.
  assert (selfSums (mkSsimSums 0 0 0 0 0 0)) as H0 by done.
  pose proof (ssim_fold_self d (pixelOffsets d) _ H0) as H.
  destruct (foldl _ _ _) as [s1 s2 q1 q2 p n]. unfold selfSums in H.
  cbn [sum1 sum2 sumSq1 sumSq2 sumProd ssimCount] in *.
  destruct H as (-> & -> & ->). intros Hv.
  destruct (n =? 0); [reflexivity|].
  set (m := fl (s1 / QofN n)) in *.
  set (v := fl (fl (q1 / QofN n) - fl (m * m))) in *.
  assert (fl m = m) as Dm by apply fl_idem.
  assert (fl (fl (2 * m) * m) = fl (fl (m * m) + fl (m * m))) as ->.
  { assert (fl (fl (2 * m) * m) = fl (2 * (m * m))) as ->
      by (apply fl_proper; rewrite fl_double, Dm; ring).
    assert (fl (fl (m * m) + fl (m * m)) = fl (2 * fl (m * m))) as ->
      by (apply fl_proper; ring).
    apply fl_eq. by rewrite !fl_double, fl_idem. }
  assert (fl (2 * v) = fl (v + v)) as -> by (apply fl_proper; ring).
  set (A := fl (fl (fl (m * m) + fl (m * m)) + Lit.d6_5025)).
  set (B := fl (fl (v + v) + Lit.d58_5225)).
  assert (0 < A)%Q as HA.
  { apply fl_sign_pos.
    pose proof (fl_nonneg _ (Qsq_nonneg m)) as Hm.
    assert (0 <= fl (fl (m * m) + fl (m * m)))%Q as Hs by (apply fl_nonneg; lra).
    assert (0 < Lit.d6_5025)%Q as Hc by (vm_compute; reflexivity).
    lra. }
  assert (0 < B)%Q as HB.
  { apply fl_sign_pos.
    assert (fl (- (58)) <= fl (v + v))%Q as Hs by (apply fl_mono; lra).
    assert (fl (- (58)) = (- (58))%Q) as E by (vm_compute; reflexivity).
    rewrite E in Hs.
    assert (58 < Lit.d58_5225)%Q as Hc by (vm_compute; reflexivity).
    lra. }
  assert (0 < fl (A * B))%Q as HX by (apply fl_sign_pos, Qmult_lt_0_compat; assumption).
  assert (fl (fl (A * B) / fl (A * B)) = fl 1) as ->.
  { apply fl_proper. field. lra. }
  vm_compute. reflexivity.
Qed.

Lemma QofN_S n : (QofN (S n) == QofN n + 1)%Q.
Proof. unfold QofN. rewrite Nat2Z.inj_succ, <- Z.add_1_r, inject_Z_plus. reflexivity. Qed.

Lemma QofN_nonneg n : (0 <= QofN n)%Q.
Proof. change 0%Q with (QofN 0). apply QofN_le. lia. Qed.

Lemma variance_step (c s q l : Q) :
  (0 <= c)%Q → (0 <= q)%Q → (s * s <= c * q)%Q →
  ((s + l) * (s + l) <= (c + 1) * (q + l * l))%Q.
Proof.
  intros Hc Hq H.
  destruct (Qlt_le_dec 0 c) as [Hpos|Hle].
  - pose proof (Qsq_nonneg (s - c * l)) as Hsq.
    assert (0 <= (c + 1) * (c * q - s * s))%Q as Hp
      by (apply Qmult_le_0_compat; lra).
    assert (0 <= c * ((c + 1) * (q + l * l) - (s + l) * (s + l)))%Q as Hprod.
    { setoid_replace (c * ((c + 1) * (q + l * l) - (s + l) * (s + l)))%Q
        with ((c + 1) * (c * q - s * s) + (s - c * l) * (s - c * l))%Q using relation Qeq
        by ring.
      lra. }
    destruct (Qlt_le_dec ((c + 1) * (q + l * l)) ((s + l) * (s + l))) as [Hlt|Hge]; [|done].
    exfalso.
    assert (0 < c * ((s + l) * (s + l) - (c + 1) * (q + l * l)))%Q as Hneg
      by (apply Qmult_lt_0_compat; lra).
    setoid_replace (c * ((s + l) * (s + l) - (c + 1) * (q + l * l)))%Q
      with (- (c * ((c + 1) * (q + l * l) - (s + l) * (s + l))))%Q using relation Qeq in Hneg
      by ring.
    lra.
  - assert (c == 0)%Q as Ec by lra. rewrite Ec in H |- *.
    pose proof (Qsq_nonneg s) as Hs. pose proof (Qsq_nonneg l) as Hl.
    assert (s * s == 0)%Q as Es by lra.
    assert (s == 0)%Q as E0.
    { destruct (Qmult_integral _ _ Es); done. }
    rewrite E0. lra.
Qed.

Lemma byteAt_isByte data i : Forall isByte data → isByte (byteAt data i).
Proof.
  intros H. unfold byteAt. destruct (nth_in_or_default i data 0%Z) as [Hin| ->].
  - rewrite Forall_forall in H. by apply H, list_elem_of_In.
  - unfold isByte. lia.
Qed.

(** The rounding of a product of a non-negative double constant with a byte. *)
Lemma fl_scaled_byte (c : Q) (b : Z) (k : Q) :
  (0 <= c)%Q → isByte b → (fl (c * 255) <= k)%Q →
  (0 <= fl (c * inject_Z b))%Q ∧ (fl (c * inject_Z b) <= k)%Q.
Proof.
  intros Hc [Hb0 Hb1] Hk.
  assert (0 <= inject_Z b)%Q as H0 by (change 0%Q with (inject_Z 0); by rewrite <- Zle_Qle).
  assert (inject_Z b <= 255)%Q as H1 by (change 255%Q with (inject_Z 255); by rewrite <- Zle_Qle).
  split.
  - apply fl_nonneg. by apply Qmult_le_0_compat.
  - eapply Qle_trans; [|exact Hk]. apply fl_mono.
    rewrite !(Qmult_comm c). by apply Qmult_le_compat_r.
Qed.

Lemma lum_range data i : Forall isByte data → (0 <= lum data i)%Q ∧ (lum data i <= 257)%Q.
Proof.
  intros H. unfold lum.
  destruct (fl_scaled_byte Lit.d0_299 (byteAt data i) 77) as [A0 A1];
    [by vm_compute|by apply byteAt_isByte|by vm_compute|].
  destruct (fl_scaled_byte Lit.d0_587 (byteAt data (i + 1)) 150) as [B0 B1];
    [by vm_compute|by apply byteAt_isByte|by vm_compute|].
  destruct (fl_scaled_byte Lit.d0_114 (byteAt data (i + 2)) 30) as [C0 C1];
    [by vm_compute|by apply byteAt_isByte|by vm_compute|].
  set (a := fl (Lit.d0_299 * _)) in *. set (b := fl (Lit.d0_587 * _)) in *.
  set (c := fl (Lit.d0_114 * _)) in *.
  assert (0 <= fl (a + b))%Q as D0 by (apply fl_nonneg; lra).
  assert (fl (a + b) <= 227)%Q as D1.
  { assert (fl 227 = 227%Q) as <- by (vm_compute; reflexivity). apply fl_mono. lra. }
  split; [apply fl_nonneg; lra|].
  assert (fl 257 = 257%Q) as <- by (vm_compute; reflexivity). apply fl_mono. lra.
Qed.

Lemma Qmult_le_compat_l (x y z : Q) : (x <= y)%Q → (0 <= z)%Q → (z * x <= z * y)%Q.
Proof.
  intros Hxy Hz. assert (z * x == x * z)%Q as -> by ring.
  assert (z * y == y * z)%Q as -> by ring. by apply Qmult_le_compat_r.
Qed.

Lemma ssimStep_self_cases d st i :
  ssimStep d d st i = st ∨
  ssimStep d d st i
  = mkSsimSums (fl (sum1 st + lum d i)) (fl (sum2 st + lum d i))
               (fl (sumSq1 st + fl (lum d i * lum d i)))
               (fl (sumSq2 st + fl (lum d i * lum d i)))
               (fl (sumProd st + fl (lum d i * lum d i))) (S (ssimCount st)).
Proof. unfold ssimStep. destruct (_ || _); [right; reflexivity|by left]. Qed.

(** One more term in the two sums: the bounds of [sumsBound] with one more
    rounding each. *)
Lemma sums_step (c S T s q l : Q) :
  (0 <= c)%Q → (2 * (c + 1) * ulp53 <= 1)%Q →
  (0 <= l)%Q → (l <= 257)%Q →
  (0 <= S)%Q → (0 <= T)%Q →
  (0 <= s)%Q → (s <= S * (1 + 2 * c * ulp53))%Q →
  (0 <= q)%Q → (T * (1 - (c + 1) * ulp53) <= q)%Q →
  (fl (s + l) <= (S + l) * (1 + 2 * (c + 1) * ulp53))%Q ∧
  ((T + l * l) * (1 - (c + 1 + 1) * ulp53) <= fl (q + fl (l * l)))%Q ∧
  (l * l <= 66049)%Q.
Proof.
  intros Hc Hcap Hl0 Hl1 HS HT Hs0 Hs Hq0 Hq.
  assert (0 < ulp53)%Q as Hu by (by vm_compute).
  assert (ulp53 <= 1 # 2)%Q as Hu1 by (by vm_compute).
  pose proof (Qsq_nonneg l) as Hll.
  split; [|split].
  - destruct (fl_rel (s + l)) as [_ F]; [lra|].
    eapply Qle_trans; [exact F|].
    set (a := (1 + 2 * c * ulp53)%Q) in *.
    assert (1 <= a)%Q as Ha.
    { unfold a. pose proof (Qmult_le_0_compat _ _ Hc (Qlt_le_weak _ _ Hu)). lra. }
    assert (s + l <= (S + l) * a)%Q as H1.
    { assert (0 <= l * (a - 1))%Q by (apply Qmult_le_0_compat; lra).
      assert ((S + l) * a == S * a + l + l * (a - 1))%Q as -> by ring. lra. }
    apply Qle_trans with ((S + l) * a * (1 + ulp53))%Q.
    { apply Qmult_le_compat_r; lra. }
    rewrite <- Qmult_assoc. apply Qmult_le_compat_l; [|lra].
    unfold a.
    assert ((1 + 2 * c * ulp53) * (1 + ulp53)
            == 1 + 2 * (c + 1) * ulp53 - ulp53 * (1 - 2 * c * ulp53))%Q as -> by ring.
    assert (0 <= ulp53 * (1 - 2 * c * ulp53))%Q; [|lra].
    apply Qmult_le_0_compat; lra.
  - assert (0 <= fl (l * l))%Q as Hfl by (by apply fl_nonneg).
    destruct (fl_rel (l * l) Hll) as [F1 _].
    destruct (fl_rel (q + fl (l * l))) as [F2 _]; [lra|].
    eapply Qle_trans; [|exact F2].
    set (b := (1 - (c + 1) * ulp53)%Q) in *.
    assert (0 <= b)%Q as Hb0 by (unfold b; lra).
    assert (b <= 1 - ulp53)%Q as Hb1.
    { unfold b. pose proof (Qmult_le_0_compat _ _ Hc (Qlt_le_weak _ _ Hu)). lra. }
    assert ((T + l * l) * b <= q + fl (l * l))%Q as H1.
    { assert (l * l * b <= l * l * (1 - ulp53))%Q
        by (apply Qmult_le_compat_l; lra).
      assert ((T + l * l) * b == T * b + l * l * b)%Q as -> by ring. lra. }
    apply Qle_trans with ((T + l * l) * b * (1 - ulp53))%Q.
    2:{ apply Qmult_le_compat_r; lra. }
    rewrite <- Qmult_assoc. apply Qmult_le_compat_l; [|lra].
    unfold b.
    assert ((1 - (c + 1) * ulp53) * (1 - ulp53)
            == 1 - (c + 1 + 1) * ulp53 + (c + 1) * ulp53 * ulp53)%Q as -> by ring.
    assert (0 <= (c + 1) * ulp53 * ulp53)%Q; [|lra].
    repeat apply Qmult_le_0_compat; lra.
  - change 66049%Q with (257 * 257)%Q.
    apply Qle_trans with (l * 257)%Q.
    + apply Qmult_le_compat_l; lra.
    + apply Qmult_le_compat_r; lra.
Qed.

Lemma sumsBound_step d st i :
  Forall isByte d → sumsBound st →
  (2 * (QofN (ssimCount st) + 1) * ulp53 <= 1)%Q →
  sumsBound (ssimStep d d st i).
Proof.
  intros Hd Hst Hcap. destruct (ssimStep_self_cases d st i) as [-> | ->]; [done|].
  destruct Hst as (S & T & HS & HT & Hvar & HT1 & Hs0 & Hs & Hq0 & Hq).
  destruct (lum_range d i Hd) as [Hl0 Hl1]. set (l := lum d i) in *.
  pose proof (QofN_nonneg (ssimCount st)) as Hc.
  destruct (sums_step (QofN (ssimCount st)) S T (sum1 st) (sumSq1 st) l)
    as (A1 & A2 & A3); try done.
  pose proof (Qsq_nonneg l) as Hll.
  exists (S + l)%Q, (T + l * l)%Q. unfold sumsBound. 
  cbn [sum1 sumSq1 ssimCount]. rewrite !QofN_S.
  split; [lra|]. split; [lra|].
  split; [by apply variance_step|].
  split; [lra|].
  split; [apply fl_nonneg; lra|]. split; [exact A1|].
  split; [apply fl_nonneg; pose proof (fl_nonneg _ Hll); lra|exact A2].
Qed.

Lemma ssimStep_count d st i :
  ssimCount (ssimStep d d st i) ≤ S (ssimCount st).
Proof. destruct (ssimStep_self_cases d st i) as [-> | ->]; simpl; lia. Qed.

Lemma sumsBound_fold d offsets st :
  Forall isByte d → sumsBound st →
  (2 * QofN (ssimCount st + length offsets) * ulp53 <= 1)%Q →
  sumsBound (foldl (ssimStep d d) st offsets) ∧
  ssimCount (foldl (ssimStep d d) st offsets) ≤ ssimCount st + length offsets.
Proof.
  intros Hd. revert st. induction offsets as [|i offsets IH]; intros st Hst Hcap.
  { simpl. split; [done|lia]. }
  cbn [foldl length] in *.
  assert (0 < ulp53)%Q as Hu by (by vm_compute).
  pose proof (ssimStep_count d st i) as Hn.
  assert (∀ a b, a ≤ b → (2 * QofN a * ulp53 <= 2 * QofN b * ulp53)%Q) as Hmono.
  { intros a b Hab. apply QofN_le in Hab. apply Qmult_le_compat_r; lra. }
  destruct (IH (ssimStep d d st i)) as [A B].
  - apply sumsBound_step; [done..|].
    rewrite <- QofN_S. eapply Qle_trans; [|exact Hcap]. apply Hmono. lia.
  - eapply Qle_trans; [|exact Hcap]. apply Hmono. lia.
  - split; [done|lia].
Qed.

(** The variance computed from sums within the bounds of [sumsBound], for a
    count of at most 2^35. *)
Lemma variance_floor (c S T s q : Q) :
  (1 <= c)%Q → (2 * c * ulp53 <= 1 # 131072)%Q →
  (0 <= S)%Q → (0 <= T)%Q → (S * S <= c * T)%Q → (T <= c * 66049)%Q →
  (0 <= s)%Q → (s <= S * (1 + 2 * c * ulp53))%Q →
  (0 <= q)%Q → (T * (1 - (c + 1) * ulp53) <= q)%Q →
  (- (3) <= fl (q / c) - fl (fl (s / c) * fl (s / c)))%Q.
Proof.
  intros Hc Hcap HS HT Hvar HT1 Hs0 Hs Hq0 Hq.
  assert (0 < ulp53)%Q as Hu by (by vm_compute).
  assert (ulp53 <= 1 # 262144)%Q as Hu1 by (by vm_compute).
  assert (0 < / c)%Q as Hic by (apply Qinv_lt_0_compat; lra).
  set (t := (1 # 262144)%Q).
  set (P := (S / c)%Q). set (W := (T / c)%Q).
  assert (0 <= P)%Q as HP by (unfold P; apply Qmult_le_0_compat; lra).
  assert (0 <= W)%Q as HW by (unfold W; apply Qmult_le_0_compat; lra).
  assert (W <= 66049)%Q as HW1.
  { unfold W. apply Qle_shift_div_r; lra. }
  assert (P * P <= W)%Q as HPW.
  { unfold P, W. assert (S / c * (S / c) == S * S / c / c)%Q as -> by (field; lra).
    apply Qle_shift_div_r; [lra|].
    assert (T / c * c == T)%Q as -> by (field; lra).
    apply Qle_shift_div_r; lra. }
  (* the mean *)
  assert (s / c <= P * (1 + 2 * t))%Q as Hm1.
  { apply Qle_shift_div_r; [lra|].
    assert (P * (1 + 2 * t) * c == S * (1 + 2 * t))%Q as -> by (unfold P; field; lra).
    eapply Qle_trans; [exact Hs|]. apply Qmult_le_compat_l; [|done]. unfold t. lra. }
  assert (0 <= s / c)%Q as Hm0 by (apply Qmult_le_0_compat; lra).
  destruct (fl_rel (s / c) Hm0) as [_ Fm].
  pose proof (fl_nonneg _ Hm0) as Hfm0.
  set (m := fl (s / c)) in *.
  set (k1 := ((1 + 2 * t) * (1 + t))%Q).
  assert (m <= P * k1)%Q as Hm.
  { eapply Qle_trans; [exact Fm|].
    apply Qle_trans with (P * (1 + 2 * t) * (1 + ulp53))%Q.
    - apply Qmult_le_compat_r; lra.
    - unfold k1. rewrite <- Qmult_assoc. apply Qmult_le_compat_l; [|done].
      apply Qmult_le_compat_l; unfold t; lra. }
  assert (m * m <= W * (k1 * k1))%Q as Hmm.
  { apply Qle_trans with (P * k1 * (P * k1))%Q.
    - apply Qle_trans with (m * (P * k1))%Q.
      + by apply Qmult_le_compat_l.
      + apply Qmult_le_compat_r; [done|lra].
    - assert (P * k1 * (P * k1) == P * P * (k1 * k1))%Q as -> by ring.
      apply Qmult_le_compat_r; [done|]. by vm_compute. }
  destruct (fl_rel (m * m) (Qsq_nonneg m)) as [_ Fmm].
  assert (fl (m * m) <= W * (k1 * k1 * (1 + t)))%Q as Hfmm.
  { eapply Qle_trans; [exact Fmm|].
    apply Qle_trans with (W * (k1 * k1) * (1 + ulp53))%Q.
    - apply Qmult_le_compat_r; lra.
    - rewrite <- Qmult_assoc. apply Qmult_le_compat_l; [|done].
      apply Qmult_le_compat_l; [unfold t; lra|by vm_compute]. }
  (* the mean of the squares *)
  assert (W * (1 - 2 * t) <= q / c)%Q as Hq1.
  { apply Qle_shift_div_l; [lra|].
    assert (W * (1 - 2 * t) * c == T * (1 - 2 * t))%Q as -> by (unfold W; field; lra).
    eapply Qle_trans; [|exact Hq]. apply Qmult_le_compat_l; [|done]. unfold t. lra. }
  assert (0 <= q / c)%Q as Hqc by (apply Qmult_le_0_compat; lra).
  destruct (fl_rel (q / c) Hqc) as [Fq _].
  assert (W * ((1 - 2 * t) * (1 - t)) <= fl (q / c))%Q as Hfq.
  { eapply Qle_trans; [|exact Fq].
    apply Qle_trans with (W * (1 - 2 * t) * (1 - ulp53))%Q.
    - rewrite <- Qmult_assoc. apply Qmult_le_compat_l; [|done].
      apply Qmult_le_compat_l; [unfold t; lra|by vm_compute].
    - apply Qmult_le_compat_r; lra. }
  set (D := (k1 * k1 * (1 + t) - (1 - 2 * t) * (1 - t))%Q).
  assert (0 <= D)%Q as HD0 by (by vm_compute).
  assert (66049 * D <= 3)%Q as HD1 by (by vm_compute).
  assert (W * D <= 66049 * D)%Q as HWD by (by apply Qmult_le_compat_r).
  assert (W * D == W * (k1 * k1 * (1 + t)) - W * ((1 - 2 * t) * (1 - t)))%Q as E
    by (unfold D; ring).
  lra.
Qed.

(** X15. The score of a buffer of bytes compared with itself is 1, for
    every buffer of at most 2^36 bytes: numerator and denominator are the
    same double, which is positive because the rounding of the sums cannot
    push the computed variance below -3. *)
Theorem ssim_self d w h :
  Forall isByte d → (Z.of_nat (length d) ≤ 2 ^ 36)%Z →
  calculateSimplifiedSSIM d d w h = 1%Q.
Proof.
  intros Hd Hlen. apply ssim_self_var. unfold ssimVar1. cbv zeta.
  assert (0 < ulp53)%Q as Hu by (by vm_compute).
  assert (sumsBound (mkSsimSums 0 0 0 0 0 0)) as H0.
  { exists 0%Q, 0%Q. cbn [sum1 sumSq1 ssimCount]. repeat split; by vm_compute. }
  assert (length (pixelOffsets d) ≤ Z.to_nat (2 ^ 35)) as Hoff.
  { rewrite pixelOffsets_length. apply Nat2Z.inj_le. rewrite Z2Nat.id by lia.
    rewrite Nat2Z.inj_div, Nat2Z.inj_add. change (Z.of_nat 3) with 3%Z.
    change (Z.of_nat 4) with 4%Z. apply Z.div_le_upper_bound; lia. }
  assert (∀ n, n ≤ length (pixelOffsets d) → (2 * QofN n * ulp53 <= 1 # 131072)%Q) as Hcap.
  { intros n Hn. assert (QofN n <= inject_Z (2 ^ 35))%Q as Hq.
    { unfold QofN. rewrite <- Zle_Qle. lia. }
    apply Qle_trans with (2 * inject_Z (2 ^ 35) * ulp53)%Q; [|by vm_compute].
    apply Qmult_le_compat_r; lra. }
  destruct (sumsBound_fold d (pixelOffsets d) (mkSsimSums 0 0 0 0 0 0) Hd H0) as [Hb Hn].
  { cbn [ssimCount]. rewrite Nat.add_0_l.
    eapply Qle_trans; [apply Hcap; lia|by vm_compute]. }
  cbn [ssimCount] in Hn. rewrite Nat.add_0_l in Hn.
  destruct (foldl _ _ _) as [s1 s2 q1 q2 p n].
  cbn [sum1 sumSq1 ssimCount] in *.
  destruct Hb as (S & T & HS & HT & Hvar & HT1 & Hs0 & Hs & Hq0 & Hq).
  cbn [sum1 sumSq1 ssimCount] in *.
  destruct n as [|n].
  - assert (fl (fl (q1 / QofN 0) - fl (fl (s1 / QofN 0) * fl (s1 / QofN 0))) = 0%Q) as ->;
      [|by vm_compute].
    assert (∀ x, x / QofN 0 == 0)%Q as Hdiv.
    { intros x. change (QofN 0) with 0%Q. unfold Qdiv. change (/ 0)%Q with 0%Q. ring. }
    assert (fl (s1 / QofN 0) = 0%Q) as -> by apply fl_zero, Hdiv.
    assert (fl (q1 / QofN 0) = 0%Q) as -> by apply fl_zero, Hdiv.
    assert (fl (0 * 0) = 0%Q) as -> by (apply fl_zero; ring).
    apply fl_zero. ring.
  - assert (1 <= QofN (Datatypes.S n))%Q as Hc.
    { change 1%Q with (QofN 1). apply QofN_le. lia. }
    pose proof (variance_floor (QofN (Datatypes.S n)) S T s1 q1 Hc (Hcap _ Hn)
                  HS HT Hvar HT1 Hs0 Hs Hq0 Hq) as Hfloor.
    apply fl_mono in Hfloor.
    assert (fl (- (3)) = (- (3))%Q) as E by (vm_compute; reflexivity).
    rewrite E in Hfloor. lra.
Qed.

(** ** The content box of one frame *)

(** X13. The bounds stabilizeFrames computes for a frame are the tight box
    of its pixels with alpha above 20 when there is such a pixel, and the
    whole frame when there is none. *)
Theorem boundsOf_cases f :
  0 < width f →
  (hasContent f → TightBox (data f) (width f) (height f) (boundsOf f)) ∧
  ((∀ x y, x < width f → y < height f → ¬ contentAt (data f) (width f) x y) →
   boundsOf f = Bounds.mk 0 0 (width f) (height f)).
Proof.
  intros Hw. split.
  - intros Hc. by apply findContentBounds_tight.
  - intros Hnone. by apply findContentBounds_blank.
Qed.

(** ** The properties on sample inputs *)

Import Samples.

Lemma flagged_at d k rec j n a :
  badFrames d !! k = Some rec → bf_index rec = j → bf_reasons rec !! n = Some a →
  flagged d j a.
Proof.
  intros Hrec Hj Ha. exists rec. split; [by eapply list_elem_of_lookup_2|].
  split; [done|]. by eapply list_elem_of_lookup_2.
Qed.

Lemma C1_witness :
  3 ≤ length greenFrames ∧
  paleRecord ∈ badFrames (detectBadFrames sameSize countDiff greenFrames defaultOptions) ∧
  bf_replacement paleRecord ≠ bf_index paleRecord ∧
  bf_replacement paleRecord < length greenFrames.
Proof.
  assert (3 ≤ length greenFrames) as Hlen by (simpl; lia).
  assert (paleRecord
          ∈ badFrames (detectBadFrames sameSize countDiff greenFrames defaultOptions)) as Hin.
  { apply list_elem_of_In. vm_compute. left. reflexivity. }
  split; [exact Hlen|]. split; [exact Hin|].
  destruct (C1_replacement_resolution sameSize countDiff greenFrames defaultOptions
              paleRecord Hlen Hin) as (_ & _ & _ & _ & _ & Hne & Hlt & _).
  split; [exact Hne|exact Hlt].
Defined.

(** On [allBad] every frame is flagged: the record of frame 0 names the bad
    frame 1 as its replacement and carries no other mark, and replacing
    overwrites frame 0. *)
Lemma C1_counterexample :
  let d := detectBadFrames sameSize countDiff allBad defaultOptions in
  bf_index <$> badFrames d = [0; 1; 2] ∧
  bf_replacement <$> badFrames d = [1; 0; 1] ∧
  (∀ g, g < length allBad → g ∈ badSet d) ∧
  replaceBadFrames allBad (badFrames d) = Some [noTan; noTan; noTan] ∧
  allBad !! 0 = Some noGreen ∧ noGreen ≠ noTan.
Proof.
  intros d.
  assert (bf_index <$> badFrames d = [0; 1; 2]) as Hidx by (by vm_compute).
  split; [exact Hidx|]. split; [by vm_compute|].
  split.
  { intros g Hg. unfold badSet. rewrite Hidx. simpl in Hg.
    destruct g as [|[|[|g]]]; [set_solver..|lia]. }
  split; [by vm_compute|]. split; [done|].
  intros H. apply (f_equal (λ f, byteAt (data f) 0)) in H. by vm_compute in H.
Qed.

Lemma alpha_counts_total_witness :
  wfFrame halfOpaque ∧ alphaTotal (alphaCounts (data halfOpaque)) = 2.
Proof.
  assert (wfFrame halfOpaque) as Hwf by (unfold wfFrame; vm_compute; repeat split; lia).
  split; [exact Hwf|].
  destruct (alpha_counts_total halfOpaque Hwf) as [H _]. exact H.
Defined.

Lemma bucket_counts_total_witness :
  wfFrame halfOpaque ∧
  colorTotal (colors (analyzePixels (data halfOpaque) 2 1)) = classifiedPixels (data halfOpaque).
Proof.
  assert (wfFrame halfOpaque) as Hwf by (unfold wfFrame; vm_compute; repeat split; lia).
  split; [exact Hwf|].
  destruct (bucket_counts_total halfOpaque Hwf) as [H _]. exact H.
Defined.

Lemma green_washout_never_witness :
  ∃ a, flagged (detectBadFrames sameSize countDiff greenFrames defaultOptions) 1 a ∧
       a_type a ≠ green_washout.
Proof.
  eexists. 
  assert (flagged (detectBadFrames sameSize countDiff greenFrames defaultOptions) 1
            (mkAnomaly color_loss (Some darkGreen) severe (ColorDetails 6 60%Q (6 # 60)%Q)))
    as Hfl.
  { apply (flagged_at _ 0 paleRecord 1 0); [vm_compute; reflexivity|reflexivity..]. }
  split; [exact Hfl|].
  exact (green_washout_never sameSize countDiff greenFrames defaultOptions 1 _ Hfl).
Defined.

Lemma halo_flags_witness :
  3 ≤ length haloFrames ∧ haloFrames !! 2 = Some hazyPixel ∧
  ∃ a, flagged (detectBadFrames sameSize countDiff haloFrames defaultOptions) 2 a ∧
       a_type a = halo_effect.
Proof.
  assert (3 ≤ length haloFrames) as Hlen by (simpl; lia).
  assert (haloFrames !! 2 = Some hazyPixel) as Hf by reflexivity.
  split; [exact Hlen|]. split; [exact Hf|].
  destruct (halo_flags sameSize countDiff haloFrames defaultOptions 2 hazyPixel Hlen Hf)
    as [Hiff _].
  apply Hiff. vm_compute; reflexivity.
Defined.

Lemma pixel_outlier_flags_witness :
  3 ≤ length shimmerFrames ∧ interior (length shimmerFrames) 4 ∧
  (outlierThreshold defaultOptions (consecutiveDiffs sameSize countDiff shimmerFrames)
   < avgDiff (consecutiveDiffs sameSize countDiff shimmerFrames) 4)%Q ∧
  ¬ ∃ a, flagged (detectBadFrames sameSize countDiff shimmerFrames defaultOptions) 4 a ∧
         a_type a = structural_damage.
Proof.
  assert (3 ≤ length shimmerFrames) as Hlen by (simpl; lia).
  assert (interior (length shimmerFrames) 4) as Hint by (unfold interior; simpl; lia).
  split; [exact Hlen|]. split; [exact Hint|].
  destruct (pixel_outlier_flags sameSize countDiff shimmerFrames defaultOptions 4 Hlen Hint)
    as (_ & Hiff & _).
  apply Hiff.
  eexists. split.
  - eapply (flagged_at _ 1 _ 4 0); [vm_compute; reflexivity|reflexivity..].
  - reflexivity.
Defined.

Lemma adjacency_flags_interior_witness :
  ∃ a, flagged (detectBadFrames sameSize countDiff shimmerFrames defaultOptions) 3 a ∧
       a_type a = pixel_outlier ∧ 0 < 3 ∧ 3 < length shimmerFrames - 1.
Proof.
  assert (∃ a, flagged (detectBadFrames sameSize countDiff shimmerFrames defaultOptions) 3 a ∧
               a_type a = pixel_outlier) as (a & Hfl & Hty).
  { eexists. split.
    - eapply (flagged_at _ 0 _ 3 0); [vm_compute; reflexivity|reflexivity..].
    - reflexivity. }
  exists a. split; [exact Hfl|]. split; [exact Hty|].
  exact (adjacency_flags_interior sameSize countDiff shimmerFrames defaultOptions 3 a Hfl
           (or_intror Hty)).
Defined.

Lemma badFrames_strictly_sorted_witness :
  ∃ x y,
    badFrames (detectBadFrames sameSize countDiff allBad defaultOptions) !! 0 = Some x ∧
    badFrames (detectBadFrames sameSize countDiff allBad defaultOptions) !! 2 = Some y ∧
    bf_index x < bf_index y.
Proof.
  assert (is_Some (badFrames (detectBadFrames sameSize countDiff allBad defaultOptions) !! 0))
    as [x Hx].
  { apply lookup_lt_is_Some. vm_compute. lia. }
  assert (is_Some (badFrames (detectBadFrames sameSize countDiff allBad defaultOptions) !! 2))
    as [y Hy].
  { apply lookup_lt_is_Some. vm_compute. lia. }
  exists x, y. split; [exact Hx|]. split; [exact Hy|].
  apply (badFrames_strictly_sorted sameSize countDiff allBad defaultOptions 0 2 x y Hx Hy).
  lia.
Defined.

Lemma badFrame_record_shape_witness :
  paleRecord ∈ badFrames (detectBadFrames sameSize countDiff greenFrames defaultOptions) ∧
  bf_index paleRecord < length greenFrames ∧ bf_reasons paleRecord ≠ [].
Proof.
  assert (paleRecord
          ∈ badFrames (detectBadFrames sameSize countDiff greenFrames defaultOptions)) as Hin.
  { apply list_elem_of_In. vm_compute. left. reflexivity. }
  split; [exact Hin|].
  destruct (badFrame_record_shape sameSize countDiff greenFrames defaultOptions paleRecord Hin)
    as (Hlt & Hne & _).
  split; [exact Hlt|exact Hne].
Defined.

Lemma replaceBadFrames_result_witness :
  0 < length greenFrames ∧
  (0 ∉ badSet (detectBadFrames sameSize countDiff greenFrames defaultOptions)) ∧
  ∃ out,
    replaceBadFrames greenFrames
      (badFrames (detectBadFrames sameSize countDiff greenFrames defaultOptions)) = Some out ∧
    length out = length greenFrames.
Proof.
  assert (0 < length greenFrames) as Hlen by (simpl; lia).
  assert (0 ∉ badSet (detectBadFrames sameSize countDiff greenFrames defaultOptions)) as Hgood.
  { unfold badSet. rewrite elem_of_list_to_set.
    assert (bf_index <$> badFrames (detectBadFrames sameSize countDiff greenFrames
                                      defaultOptions) = [1]) as -> by (vm_compute; reflexivity).
    intros Hin. apply list_elem_of_In in Hin. simpl in Hin. lia. }
  split; [exact Hlen|]. split; [exact Hgood|].
  destruct (replaceBadFrames_result sameSize countDiff greenFrames defaultOptions 0 Hlen Hgood)
    as (out & Hout & Hl & _).
  exists out. split; [exact Hout|exact Hl].
Defined.

Lemma equal_frames_clean_witness :
  (colorRatioThreshold defaultOptions <= 1)%Q ∧
  badFrames (detectBadFrames sameSize countDiff (replicate 3 onePixel) defaultOptions) = [].
Proof.
  assert (colorRatioThreshold defaultOptions <= 1)%Q as Hthr
    by (unfold Qle; simpl; lia).
  split; [exact Hthr|].
  exact (equal_frames_clean sameSize countDiff 3 onePixel defaultOptions Hthr).
Defined.

Lemma ssim_symmetric_witness :
  length (data whitePixel) = length (data blackPixel) ∧
  calculateSimplifiedSSIM (data whitePixel) (data blackPixel) 1 1
  = calculateSimplifiedSSIM (data blackPixel) (data whitePixel) 1 1.
Proof.
  assert (length (data whitePixel) = length (data blackPixel)) as Hlen by reflexivity.
  split; [exact Hlen|].
  exact (ssim_symmetric (data whitePixel) (data blackPixel) 1 1 Hlen).
Defined.

Lemma ssim_self_witness :
  Forall isByte (data whitePixel) ∧ (Z.of_nat (length (data whitePixel)) ≤ 2 ^ 36)%Z ∧
  calculateSimplifiedSSIM (data whitePixel) (data whitePixel) 1 1 = 1%Q.
Proof.
  assert (Forall isByte (data whitePixel)) as Hd
    by (repeat constructor; unfold isByte; lia).
  assert (Z.of_nat (length (data whitePixel)) ≤ 2 ^ 36)%Z as Hlen by (simpl; lia).
  split; [exact Hd|]. split; [exact Hlen|].
  exact (ssim_self (data whitePixel) 1 1 Hd Hlen).
Defined.

Lemma ssim_nothing_to_compare_witness :
  calculateSimplifiedSSIM (data blankPixel) (data blankPixel) 1 1 = 1%Q.
Proof.
  apply ssim_nothing_to_compare. intros i Hi.
  change (pixelOffsets (data blankPixel)) with [0] in Hi.
  apply list_elem_of_In in Hi. simpl in Hi.
  destruct Hi as [<-|[]]. split; vm_compute; discriminate.
Defined.

Lemma boundsOf_cases_witness :
  0 < width blankPixel ∧ boundsOf blankPixel = Bounds.mk 0 0 1 1.
Proof.
  assert (0 < width blankPixel) as Hw by (simpl; lia).
  split; [exact Hw|].
  destruct (boundsOf_cases blankPixel Hw) as [_ Hblank].
  apply Hblank. intros x y Hx Hy Hc.
  simpl in Hx, Hy. assert (x = 0) as -> by lia. assert (y = 0) as -> by lia.
  vm_compute in Hc. discriminate Hc.
Defined.

Lemma autoFix_sizes_consistent_witness :
  ∃ r, autoFix sameSize countDiff opacityFrames defaultOptions = Some r ∧
       ∀ sizes, InconsistentSizes sizes ∉ issues (verificationDetails (report r)).
Proof.
  assert (Forall wfFrame opacityFrames) as Hwf by frames_wf.
  destruct (autoFix_total sameSize countDiff opacityFrames defaultOptions Hwf)
    as (replaced & st & finalCheck & _ & _ & _ & _ & _ & Hr).
  eexists. split; [exact Hr|].
  destruct (autoFix_sizes_consistent sameSize countDiff opacityFrames defaultOptions _ Hr)
    as [_ H].
  exact H.
Defined.

Lemma reasons_in_pass_order_witness :
  paleRecord ∈ badFrames (detectBadFrames sameSize countDiff greenFrames defaultOptions) ∧
  analyzeFrames greenFrames !! 1
  = Some (mkFrameAnalysis 1 paleGreen
            (analyzePixels (data paleGreen) (width paleGreen) (height paleGreen))) ∧
  length (bf_reasons paleRecord) ≤ 6.
Proof.
  assert (paleRecord
          ∈ badFrames (detectBadFrames sameSize countDiff greenFrames defaultOptions)) as Hin.
  { apply list_elem_of_In. vm_compute. left. reflexivity. }
  assert (analyzeFrames greenFrames !! bf_index paleRecord
          = Some (mkFrameAnalysis 1 paleGreen
                    (analyzePixels (data paleGreen) (width paleGreen) (height paleGreen))))
    as Hfa by (by apply analyzeFrames_at).
  split; [exact Hin|]. split; [exact Hfa|].
  destruct (reasons_in_pass_order sameSize countDiff greenFrames defaultOptions paleRecord _
              Hin Hfa) as [_ Hle].
  exact Hle.
Defined.
